(** * Evm-transfer: the per-network monitor of [src/index.js]

    The development embeds [monitorAndTransfer] and the closures it
    creates ([getTokenDetails], [transferToken], [handleIncomingTransfer],
    the [setInterval] polling callback and the [catch] block) as programs
    of a small resumption monad, gives them a sequential semantics (one
    call, answers supplied by an oracle) and an event-loop semantics
    (several suspended calls of one network, resumed in any order at
    their [await] points), and states the properties of the specification
    over those definitions. *)

From Stdlib Require Import ZArith String Ascii List Bool Lia DecimalString DecimalZ.
From stdpp Require Import gmap strings list.

Import ListNotations.
#[local] Open Scope string_scope.
#[local] Open Scope Z_scope.

(** ** JavaScript strings

    A string is a sequence of code units; [string] holds the code units
    below 256 (Latin-1), on which [toLowerCase] keeps the length and
    [trim] removes the white space listed in [isWhiteSpace]. Values of the
    environment with other code units are outside the model. *)

Module Js.

Definition isWhiteSpace (c : ascii) : bool :=
  let n := N_of_ascii c in
  ((9 <=? n) && (n <=? 13) || (n =? 32) || (n =? 160))%N.

Definition lowerChar (c : ascii) : ascii :=
  let n := N_of_ascii c in
  if ((65 <=? n) && (n <=? 90)
      || (192 <=? n) && (n <=? 222) && negb (n =? 215))%N
  then ascii_of_N (n + 32) else c.

Fixpoint toLowerCase (s : string) : string :=
  match s with
  | EmptyString => EmptyString
  | String c r => String (lowerChar c) (toLowerCase r)
  end.

Fixpoint trimStart (s : string) : string :=
  match s with
  | EmptyString => EmptyString
  | String c r => if isWhiteSpace c then trimStart r else s
  end.

Fixpoint trimEnd (s : string) : string :=
  match s with
  | EmptyString => EmptyString
  | String c r =>
      match trimEnd r with
      | EmptyString => if isWhiteSpace c then EmptyString else String c EmptyString
      | r' => String c r'
      end
  end.

Definition trim (s : string) : string := trimEnd (trimStart s).

(** [s.split(sep)] for a one-character separator: never the empty list,
    the empty string gives the list of one empty string. *)
Fixpoint split (sep : ascii) (s : string) : list string :=
  match s with
  | EmptyString => [EmptyString]
  | String c r =>
      if Ascii.eqb c sep then EmptyString :: split sep r
      else match split sep r with
           | [] => [String c EmptyString]
           | p :: ps => String c p :: ps
           end
  end.

Fixpoint join (sep : ascii) (l : list string) : string :=
  match l with
  | [] => EmptyString
  | [p] => p
  | p :: ps => p ++ String sep (join sep ps)
  end.

Definition startsWith (s p : string) : bool := String.prefix p s.

Fixpoint includes (s p : string) : bool :=
  String.prefix p s ||
  match s with
  | EmptyString => false
  | String _ r => includes r p
  end.

Fixpoint contains (c : ascii) (s : string) : bool :=
  match s with
  | EmptyString => false
  | String d r => Ascii.eqb d c || contains c r
  end.

End Js.

(** ** Configuration: the custom token list (index.js, lines 32-37) *)

Definition comma : ascii := ","%char.

(** [process.env.CUSTOM_TOKENS] or else the empty string: an unset
    variable and the empty string both give the empty string. *)
Definition customTokensEnv (CUSTOM_TOKENS : option string) : string :=
  match CUSTOM_TOKENS with
  | Some s => s
  | None => EmptyString
  end.

Definition normalize (addr : string) : string := Js.toLowerCase (Js.trim addr).

Definition keep (addr : string) : bool :=
  (String.length addr =? 42)%nat && Js.startsWith addr "0x".

Definition customTokenAddresses (CUSTOM_TOKENS : option string) : list string :=
  List.filter keep
         (map normalize (Js.split comma (customTokensEnv CUSTOM_TOKENS))).

(** The specification's notion of a well-formed address: 42 characters,
    the prefix [0x], then 40 hexadecimal digits. It follows the words of
    the specification, not the source, and is compared with [keep]. *)
Definition isHexDigit (c : ascii) : bool :=
  let n := N_of_ascii c in
  ((48 <=? n) && (n <=? 57) || (97 <=? n) && (n <=? 102) || (65 <=? n) && (n <=? 70))%N.

Fixpoint allHex (s : string) : bool :=
  match s with
  | EmptyString => true
  | String c r => isHexDigit c && allHex r
  end.

Definition wellFormedAddress (addr : string) : bool :=
  (String.length addr =? 42)%nat && Js.startsWith addr "0x"
  && allHex (String.substring 2 40 addr).

(** ** Values exchanged with the chain and with ethers *)

(** A thrown JavaScript error, as far as the code inspects it
    ([err.code], [err.message]). *)
Record JsError := { code : string; message : string }.

Inductive result (T : Type) : Type :=
| Ok (v : T)
| Err (e : JsError).
Arguments Ok {T} v.
Arguments Err {T} e.

(** [p.catch(() => d)] on the outcome of one promise. *)
Definition catch_default {T} (r : result T) (d : T) : T :=
  match r with
  | Ok v => v
  | Err _ => d
  end.

Record NetworkConfig := { name : string; rpcUrl : string }.

Record TokenDetails := { symbol : string; decimals : Z; tokenName : string }.

(** A log entry returned by [provider.getLogs]. *)
Record Log := { transactionHash : string; address : string; blockNumber : Z }.

(** The response of [tokenContract.transfer]: the code reads [tx.hash]
    and calls [tx.wait()]. *)
Record TxResponse := { hash : string }.

(** The calls the code awaits. The index is the type of the value the
    awaited promise settles with; a promise that may reject settles with a
    [result]. [PromiseAll a b] is [Promise.all] over two promises that
    cannot reject (each member carries its own [.catch]); both calls are
    issued before either settles. *)
Inductive rpc : Type -> Type :=
| GetAddress : rpc (result string)
| GetBlockNumber : rpc (result Z)
| GetLogs (fromBlock toBlock : Z) (topics : list (option string)) : rpc (result (list Log))
| CallSymbol (token : string) : rpc (result string)
| CallDecimals (token : string) : rpc (result Z)
| CallName (token : string) : rpc (result string)
| BalanceOf (token owner : string) : rpc (result Z)
| Transfer (token to : string) (amount : Z) : rpc (result TxResponse)
| WaitTx (txHash : string) : rpc (result unit)
| Sleep (ms : Z) : rpc unit
| PromiseAll {X Y} (a : rpc X) (b : rpc Y) : rpc (X * Y).

(** The same calls without the type index, for traces. *)
Inductive request : Type :=
| RGetAddress
| RGetBlockNumber
| RGetLogs (fromBlock toBlock : Z) (topics : list (option string))
| RCallSymbol (token : string)
| RCallDecimals (token : string)
| RCallName (token : string)
| RBalanceOf (token owner : string)
| RTransfer (token to : string) (amount : Z)
| RWaitTx (txHash : string)
| RSleep (ms : Z)
| RPromiseAll (a b : request).

Fixpoint erase {X} (r : rpc X) : request :=
  match r with
  | GetAddress => RGetAddress
  | GetBlockNumber => RGetBlockNumber
  | GetLogs f t tp => RGetLogs f t tp
  | CallSymbol a => RCallSymbol a
  | CallDecimals a => RCallDecimals a
  | CallName a => RCallName a
  | BalanceOf a o => RBalanceOf a o
  | Transfer a t v => RTransfer a t v
  | WaitTx h => RWaitTx h
  | Sleep ms => RSleep ms
  | PromiseAll a b => RPromiseAll (erase a) (erase b)
  end.

(** The constants a closure of one [monitorAndTransfer] call captures
    ([name], [senderAddress], [recipient]). *)
Record Captured := {
  network : string;
  senderAddress : string;
  recipient : string
}.

(** Timers the code registers: the polling callback of [setInterval]
    (line 138) and the restart of [setTimeout] (line 188). *)
Inductive callback :=
| PollingCallback (cap : Captured)
| RestartCallback (cfg : NetworkConfig).

(** What the monitor reports on the console (content, not layout), the
    timers it registers, and the entry points of its closures. The
    [Enter*] events are not output of the program: they mark a call of the
    closure, so that calls can be counted. The last three are recorded by
    the semantics: a call sent to the chain (or a timer awaited), an
    identifier added to [processedTxs], an assignment to
    [lastCheckedBlock]. *)
Inductive event : Type :=
| LogBanner (network wallet recipient : string)
| LogMonitoringFrom (block : Z)
| LogCheckingCustomTokens
| LogIncomingTransfer (l : Log) (d : TokenDetails) (token : string)
| LogTransferring (formatted : string) (d : TokenDetails)
| LogTransferred (formatted : string) (d : TokenDetails)
| LogTxHash (h : string)
| LogTransferFailed (d : TokenDetails) (e : JsError)
| LogInvalidPrivateKey
| LogFatalError (e : JsError)
| LogRestarting
| SetInterval (cb : callback) (ms : Z)
| SetTimeout (cb : callback) (ms : Z)
| EnterGetTokenDetails (token : string)
| EnterTransferToken (token : string)
| Issued (r : request)
| Marked (txHash : string)
| Assigned (block : Z).

(** ** The monad of the monitor's code

    A program is a tree: it returns, throws, reads or updates the two
    variables of the enclosing [monitorAndTransfer] call ([processedTxs],
    only through [has] and [add]; [lastCheckedBlock]), reports an event, or
    awaits a call and continues with its answer. Everything between two
    [Await] nodes runs without interruption, as JavaScript runs a callback
    to its next [await]. *)
Inductive async (A : Type) : Type :=
| Ret (a : A)
| Throw (e : JsError)
| HasTx (h : string) (k : bool -> async A)
| AddTx (h : string) (k : async A)
| ReadLast (k : Z -> async A)
| WriteLast (v : Z) (k : async A)
| Say (e : event) (k : async A)
| Await {X : Type} (r : rpc X) (k : X -> async A).
Arguments Ret {A} a.
Arguments Throw {A} e.
Arguments HasTx {A} h k.
Arguments AddTx {A} h k.
Arguments ReadLast {A} k.
Arguments WriteLast {A} v k.
Arguments Say {A} e k.
Arguments Await {A X} r k.

Fixpoint bind {A B} (p : async A) (f : A -> async B) : async B :=
  match p with
  | Ret a => f a
  | Throw e => Throw e
  | HasTx h k => HasTx h (fun b => bind (k b) f)
  | AddTx h k => AddTx h (bind k f)
  | ReadLast k => ReadLast (fun v => bind (k v) f)
  | WriteLast v k => WriteLast v (bind k f)
  | Say e k => Say e (bind k f)
  | Await r k => Await r (fun x => bind (k x) f)
  end.

(** [try { p } catch (e) { h e }] *)
Fixpoint try_catch {A} (p : async A) (h : JsError -> async A) : async A :=
  match p with
  | Ret a => Ret a
  | Throw e => h e
  | HasTx t k => HasTx t (fun b => try_catch (k b) h)
  | AddTx t k => AddTx t (try_catch k h)
  | ReadLast k => ReadLast (fun v => try_catch (k v) h)
  | WriteLast v k => WriteLast v (try_catch k h)
  | Say e k => Say e (try_catch k h)
  | Await r k => Await r (fun x => try_catch (k x) h)
  end.

Declare Scope async_scope.
Delimit Scope async_scope with async.
Bind Scope async_scope with async.
Notation "x <- p ;; q" := (bind p (fun x => q))
  (at level 100, p at next level, right associativity) : async_scope.
Notation "p ;; q" := (bind p (fun _ => q))
  (at level 100, right associativity) : async_scope.
#[local] Open Scope async_scope.

Definition say (e : event) : async unit := Say e (Ret tt).
Definition hasTx (h : string) : async bool := HasTx h Ret.
Definition addTx (h : string) : async unit := AddTx h (Ret tt).
Definition readLast : async Z := ReadLast Ret.
Definition writeLast (v : Z) : async unit := WriteLast v (Ret tt).

(** [await e] for a promise that settles with any value. *)
Definition await {X} (r : rpc X) : async X := Await r Ret.

(** A synchronous library call that returns or throws. *)
Definition lift {T} (r : result T) : async T :=
  match r with
  | Ok v => Ret v
  | Err e => Throw e
  end.

(** [await e] for a promise that resolves or rejects. *)
Definition call {T} (r : rpc (result T)) : async T := Await r lift.

(** [for (const x of l) { await body(x) }] *)
Fixpoint for_each {T} (l : list T) (body : T -> async unit) : async unit :=
  match l with
  | [] => Ret tt
  | x :: rest => body x ;; for_each rest body
  end.

(** ** ethers and the process environment

    The synchronous entry points of ethers the code calls; each returns or
    throws. [formatUnits] renders an amount, [zeroPadValue] pads the wallet
    address into a topic, [TRANSFER_TOPIC] is
    [id("Transfer(address,address,uint256)")]. *)
Inductive Runner := WithProvider | WithWallet.

Record Ethers := {
  new_JsonRpcProvider : string -> result unit;
  new_Wallet : string -> result unit;
  new_Contract : string -> Runner -> result unit;
  formatUnits : Z -> Z -> result string;
  zeroPadValue : string -> Z -> result string;
  TRANSFER_TOPIC : string
}.

Record ProcessEnv := {
  PRIVATE_KEY : string;
  RECIPIENT_ADDRESS : string;
  CUSTOM_TOKENS : option string
}.

(** The functions of [ERC20_ABI] (lines 14-20); [tokenContract.name] is
    defined when the ABI has a function [name]. *)
Definition ERC20_ABI : list string :=
  ["balanceOf"; "decimals"; "symbol"; "name"; "transfer"].

Definition abi_has (f : string) : bool := existsb (String.eqb f) ERC20_ABI.

(** [balance.toString()] of a bigint. *)
Definition toString (z : Z) : string := NilZero.string_of_int (Z.to_int z).

(** ["─".repeat(n)] throws a RangeError for a negative count (line 45). *)
Definition repeat_count (n : Z) : result unit :=
  if n <? 0
  then Err {| code := "RangeError"; message := "Invalid count value" |}
  else Ok tt.

Definition defaultDetails : TokenDetails :=
  {| symbol := "UNKNOWN"; decimals := 18; tokenName := "Unknown Token" |}.

Section Monitor.

Variable E : Ethers.
Variable env : ProcessEnv.

(** index.js, lines 52-66 *)
Definition getTokenDetails (tokenAddress : string) : async TokenDetails :=
  say (EnterGetTokenDetails tokenAddress) ;;
  try_catch
    (lift (new_Contract E tokenAddress WithProvider) ;;
     if abi_has "name" then
       Await (PromiseAll (CallSymbol tokenAddress)
                (PromiseAll (CallDecimals tokenAddress) (CallName tokenAddress)))
         (fun '(s, (d, n)) =>
            Ret {| symbol := catch_default s "UNKNOWN";
                   decimals := catch_default d 18;
                   tokenName := catch_default n "Unknown Token" |})
     else
       Await (PromiseAll (CallSymbol tokenAddress) (CallDecimals tokenAddress))
         (fun '(s, d) =>
            Ret {| symbol := catch_default s "UNKNOWN";
                   decimals := catch_default d 18;
                   tokenName := "Unknown Token" |}))
    (fun _ => Ret defaultDetails).

(** index.js, lines 24-26 *)
Definition formatTokenAmount (amount decimals : Z) : result string :=
  formatUnits E amount decimals.

(** index.js, lines 68-105 *)
Definition transferToken (cap : Captured) (tokenAddress : string)
    (tokenDetails : TokenDetails) : async bool :=
  say (EnterTransferToken tokenAddress) ;;
  try_catch
    (lift (new_Contract E tokenAddress WithWallet) ;;
     balance <- call (BalanceOf tokenAddress (senderAddress cap)) ;;
     if (balance =? 0) || String.eqb (toString balance) "0" then Ret false
     else
       formattedBalance <- lift (formatTokenAmount balance (decimals tokenDetails)) ;;
       say (LogTransferring formattedBalance tokenDetails) ;;
       tx <- call (Transfer tokenAddress (recipient cap) balance) ;;
       call (WaitTx (hash tx)) ;;
       say (LogTransferred formattedBalance tokenDetails) ;;
       say (LogTxHash (hash tx)) ;;
       Ret true)
    (fun error =>
       say (LogTransferFailed tokenDetails error) ;;
       Ret false).

(** index.js, lines 109-129 *)
Definition handleIncomingTransfer (cap : Captured) (log : Log) : async unit :=
  let txHash := transactionHash log in
  seen <- hasTx txHash ;;
  if seen then Ret tt
  else
    addTx txHash ;;
    let tokenAddress := Js.toLowerCase (address log) in
    tokenDetails <- getTokenDetails tokenAddress ;;
    say (LogIncomingTransfer log tokenDetails tokenAddress) ;;
    await (Sleep 60000) ;;
    transferToken cap tokenAddress tokenDetails ;;
    Ret tt.

(** The callback of [setInterval], index.js, lines 138-160 *)
Definition pollingCallback (cap : Captured) : async unit :=
  try_catch
    (currentBlock <- call GetBlockNumber ;;
     lastCheckedBlock <- readLast ;;
     if currentBlock >? lastCheckedBlock then
       topic <- lift (zeroPadValue E (senderAddress cap) 32) ;;
       logs <- call (GetLogs (lastCheckedBlock + 1) currentBlock
                       [Some (TRANSFER_TOPIC E); None; Some topic]) ;;
       for_each logs (handleIncomingTransfer cap) ;;
       writeLast currentBlock
     else Ret tt)
    (fun _ => Ret tt).

(** The test of the [catch] block, lines 175-178 *)
Definition isInvalidPrivateKey (err : JsError) : bool :=
  String.eqb (code err) "INVALID_ARGUMENT"
  && Js.includes (message err) "invalid BytesLike value".

(** The [catch] block, lines 174-190 *)
Definition onStartupError (networkConfig : NetworkConfig) (err : JsError) : async unit :=
  if isInvalidPrivateKey err then
    say LogInvalidPrivateKey
  else
    say (LogFatalError err) ;;
    say LogRestarting ;;
    say (SetTimeout (RestartCallback networkConfig) 30000).

(** The custom-token pass, lines 162-173 *)
Definition customTokenPass (cap : Captured) (tokens : list string) : async unit :=
  if (0 <? length tokens)%nat then
    say LogCheckingCustomTokens ;;
    for_each tokens (fun tokenAddress =>
      tokenDetails <- getTokenDetails tokenAddress ;;
      transferToken cap tokenAddress tokenDetails ;;
      Ret tt)
  else Ret tt.

(** The [try] block, lines 40-173. [processedTxs] starts empty in the
    variables of the call (see [fresh]). *)
Definition startup (networkConfig : NetworkConfig) : async unit :=
  lift (new_JsonRpcProvider E (rpcUrl networkConfig)) ;;
  lift (new_Wallet E (PRIVATE_KEY env)) ;;
  addr <- call GetAddress ;;
  let cap := {| network := name networkConfig;
                senderAddress := Js.toLowerCase addr;
                recipient := RECIPIENT_ADDRESS env |} in
  lift (repeat_count (45 - Z.of_nat (String.length (name networkConfig)))) ;;
  say (LogBanner (name networkConfig) (senderAddress cap) (recipient cap)) ;;
  lastCheckedBlock <- call GetBlockNumber ;;
  writeLast lastCheckedBlock ;;
  say (LogMonitoringFrom lastCheckedBlock) ;;
  say (SetInterval (PollingCallback cap) 15000) ;;
  customTokenPass cap (customTokenAddresses (CUSTOM_TOKENS env)).

(** index.js, lines 28-191 *)
Definition monitorAndTransfer (networkConfig : NetworkConfig) : async unit :=
  try_catch (startup networkConfig) (onStartupError networkConfig).

End Monitor.

(** ** The variables of one [monitorAndTransfer] call

    [processedTxs] (line 107) and [lastCheckedBlock] (line 131). Every
    call of [monitorAndTransfer] has its own pair; [processedTxs] is
    created empty, [lastCheckedBlock] is assigned by [startup] before any
    closure reads it. Block numbers are integers below 2^53, where
    JavaScript numbers are exact. *)
Record Vars := { processedTxs : gset string; lastCheckedBlock : Z }.

Definition fresh : Vars := {| processedTxs := ∅; lastCheckedBlock := 0 |}.

Definition markProcessed (h : string) (c : Vars) : Vars :=
  {| processedTxs := {[ h ]} ∪ processedTxs c; lastCheckedBlock := lastCheckedBlock c |}.

Definition setLastChecked (v : Z) (c : Vars) : Vars :=
  {| processedTxs := processedTxs c; lastCheckedBlock := v |}.

Definition hasProcessed (h : string) (c : Vars) : bool :=
  bool_decide (h ∈ processedTxs c).

(** ** Sequential semantics: one call, run to its end

    The [n]-th awaited call is answered by [o n]. Programs are finite
    trees, so every call ends: it returns or raises. *)
Inductive outcome (A : Type) : Type :=
| Returned (a : A)
| Raised (e : JsError).
Arguments Returned {A} a.
Arguments Raised {A} e.

Definition oracle : Type := nat -> forall X : Type, rpc X -> X.

Record ran (A : Type) : Type := Ran {
  res : outcome A;
  vars : Vars;
  trace : list event;
  awaited : nat
}.
Arguments Ran {A} res vars trace awaited.
Arguments res {A} r.
Arguments vars {A} r.
Arguments trace {A} r.
Arguments awaited {A} r.

Definition logged {A} (e : event) (r : ran A) : ran A :=
  Ran (res r) (vars r) (e :: trace r) (awaited r).

Fixpoint run {A} (o : oracle) (p : async A) (c : Vars) (n : nat) : ran A :=
  match p with
  | Ret a => Ran (Returned a) c [] n
  | Throw e => Ran (Raised e) c [] n
  | HasTx h k => run o (k (hasProcessed h c)) c n
  | AddTx h k => logged (Marked h) (run o k (markProcessed h c) n)
  | ReadLast k => run o (k (lastCheckedBlock c)) c n
  | WriteLast v k => logged (Assigned v) (run o k (setLastChecked v c) n)
  | Say e k => logged e (run o k c n)
  | Await r k => logged (Issued (erase r)) (run o (k (o n _ r)) c (S n))
  end.

(** ** Event-loop semantics: the suspended calls of one network

    [advance] runs a program to its next [await]. *)
Inductive susp (A : Type) : Type :=
| Finished (a : A)
| Crashed (e : JsError)
| Blocked {X : Type} (r : rpc X) (k : X -> async A).
Arguments Finished {A} a.
Arguments Crashed {A} e.
Arguments Blocked {A X} r k.

Record advanced (A : Type) : Type := Advanced {
  at_await : susp A;
  vars_then : Vars;
  emitted : list event
}.
Arguments Advanced {A} at_await vars_then emitted.
Arguments at_await {A} a.
Arguments vars_then {A} a.
Arguments emitted {A} a.

Definition emitting {A} (e : event) (a : advanced A) : advanced A :=
  Advanced (at_await a) (vars_then a) (e :: emitted a).

Fixpoint advance {A} (p : async A) (c : Vars) : advanced A :=
  match p with
  | Ret a => Advanced (Finished a) c []
  | Throw e => Advanced (Crashed e) c []
  | HasTx h k => advance (k (hasProcessed h c)) c
  | AddTx h k => emitting (Marked h) (advance k (markProcessed h c))
  | ReadLast k => advance (k (lastCheckedBlock c)) c
  | WriteLast v k => emitting (Assigned v) (advance k (setLastChecked v c))
  | Say e k => emitting e (advance k c)
  | Await r k => Advanced (Blocked r k) c [Issued (erase r)]
  end.

(** What the chain, ethers or a timer delivers when an awaited call
    settles, and its reading at the type the call expects. *)
Inductive answer : Type :=
| AString (s : string)
| ANumber (z : Z)
| ALogs (l : list Log)
| ATx (t : TxResponse)
| ADone
| AError (e : JsError)
| APair (a b : answer).

Fixpoint decode {X} (r : rpc X) (a : answer) : option X :=
  match r in rpc X return option X with
  | GetAddress | CallSymbol _ | CallName _ =>
      match a with AString s => Some (Ok s) | AError e => Some (Err e) | _ => None end
  | GetBlockNumber | CallDecimals _ | BalanceOf _ _ =>
      match a with ANumber z => Some (Ok z) | AError e => Some (Err e) | _ => None end
  | GetLogs _ _ _ =>
      match a with ALogs l => Some (Ok l) | AError e => Some (Err e) | _ => None end
  | Transfer _ _ _ =>
      match a with ATx t => Some (Ok t) | AError e => Some (Err e) | _ => None end
  | WaitTx _ =>
      match a with ADone => Some (Ok tt) | AError e => Some (Err e) | _ => None end
  | Sleep _ =>
      match a with ADone => Some tt | _ => None end
  | PromiseAll r1 r2 =>
      match a with
      | APair a1 a2 =>
          match decode r1 a1, decode r2 a2 with
          | Some x, Some y => Some (x, y)
          | _, _ => None
          end
      | _ => None
      end
  end.

(** The least time a call takes: a [setTimeout] promise never settles
    early. *)
Fixpoint latency {X} (r : rpc X) : Z :=
  match r with
  | Sleep ms => ms
  | PromiseAll a b => Z.max (latency a) (latency b)
  | _ => 0
  end.

(** A call of instance [owner] suspended at time [since] on [r]. *)
Inductive Task : Type :=
| Suspended (owner : nat) (since : Z) {X : Type} (r : rpc X) (k : X -> async unit).

Record Timer := {
  t_owner : nat;
  due : Z;
  cb : callback;
  every : option Z
}.

(** The state of the event loop for one network: the clock (ms), the
    variables of every [monitorAndTransfer] call made so far, the
    suspended calls, the timers, and what happened (time, task, event). *)
Record Machine := {
  now : Z;
  instances : list Vars;
  tasks : list (option Task);
  timers : list (option Timer);
  history : list (Z * nat * event)
}.

Definition timer_of (t : Z) (i : nat) (e : event) : option Timer :=
  match e with
  | SetInterval cb ms => Some {| t_owner := i; due := t + ms; cb := cb; every := Some ms |}
  | SetTimeout cb ms => Some {| t_owner := i; due := t + ms; cb := cb; every := None |}
  | _ => None
  end.

Definition timers_of (t : Z) (i : nat) (evs : list event) : list (option Timer) :=
  List.filter (fun o => match o with Some _ => true | None => false end)
              (map (timer_of t i) evs).

Definition vars_of (m : Machine) (i : nat) : Vars :=
  match instances m !! i with
  | Some c => c
  | None => fresh
  end.

(** Run [p] as task [slot] of instance [i] at time [t], to its next
    [await]. *)
Definition resume (t : Z) (i slot : nat) (p : async unit) (m : Machine) : Machine :=
  let a := advance p (vars_of m i) in
  {| now := t;
     instances := <[ i := vars_then a ]> (instances m);
     tasks := <[ slot := match at_await a with
                         | Blocked r k => Some (Suspended i t r k)
                         | _ => None
                         end ]> (tasks m);
     timers := timers m ++ timers_of t i (emitted a);
     history := history m ++ map (fun e => (t, slot, e)) (emitted a) |}.

Definition spawn (t : Z) (i : nat) (p : async unit) (m : Machine) : Machine :=
  resume t i (length (tasks m)) p
    {| now := now m; instances := instances m; tasks := tasks m ++ [None];
       timers := timers m; history := history m |}.

Definition new_instance (m : Machine) : Machine :=
  {| now := now m; instances := instances m ++ [fresh]; tasks := tasks m;
     timers := timers m; history := history m |}.

Definition set_timer (j : nat) (o : option Timer) (m : Machine) : Machine :=
  {| now := now m; instances := instances m; tasks := tasks m;
     timers := <[ j := o ]> (timers m); history := history m |}.

(** A step happens at a time [t] not before the clock and not after a
    timer that is due: timers fire on time, and none is skipped. *)
Definition punctual (t : Z) (m : Machine) : bool :=
  (now m <=? t) &&
  forallb (fun o => match o with Some tm => t <=? due tm | None => true end) (timers m).

Inductive Step : Type :=
| Fire (timer : nat)
| Settle (task : nat) (a : answer).

Section Loop.

Variable E : Ethers.
Variable env : ProcessEnv.

(** Timer [j] fires: an interval timer is armed again, a timeout is
    removed. The polling callback runs as a new task on the variables of
    the call that registered it; a restart is a new call of
    [monitorAndTransfer], with variables of its own. *)
Definition fire (t : Z) (j : nat) (tm : Timer) (m : Machine) : Machine :=
  let rearmed :=
    match every tm with
    | Some ms => Some {| t_owner := t_owner tm; due := t + ms; cb := cb tm; every := every tm |}
    | None => None
    end in
  let m1 := set_timer j rearmed m in
  match cb tm with
  | PollingCallback cap => spawn t (t_owner tm) (pollingCallback E cap) m1
  | RestartCallback cfg =>
      spawn t (length (instances m1)) (monitorAndTransfer E env cfg) (new_instance m1)
  end.

(** One step of the event loop at time [t]: a due timer fires, or the
    call awaited by a suspended task settles with an answer of its type, no
    earlier than its latency allows, and the task runs to its next
    [await]. *)
Definition step (m : Machine) (t : Z) (s : Step) : option Machine :=
  if punctual t m then
    match s with
    | Fire j =>
        match timers m !! j with
        | Some (Some tm) => if due tm =? t then Some (fire t j tm m) else None
        | _ => None
        end
    | Settle j a =>
        match tasks m !! j with
        | Some (Some (Suspended i since r k)) =>
            if since + latency r <=? t then
              match decode r a with
              | Some x => Some (resume t i j (k x) m)
              | None => None
              end
            else None
        | _ => None
        end
    end
  else None.

Fixpoint play (m : Machine) (schedule : list (Z * Step)) : option Machine :=
  match schedule with
  | [] => Some m
  | (t, s) :: rest =>
      match step m t s with
      | Some m' => play m' rest
      | None => None
      end
  end.

(** [main] calls [monitorAndTransfer] once for the network, at time 0. *)
Definition boot (networkConfig : NetworkConfig) : Machine :=
  spawn 0 0 (monitorAndTransfer E env networkConfig)
    {| now := 0; instances := [fresh]; tasks := []; timers := []; history := [] |}.

End Loop.

(** ** Composition of runs *)

(** [r], then [f] on its value from the variables and the count [r] ends
    with; a raised error ends the run. *)
Definition and_then {A B} (r : ran A) (f : A -> Vars -> nat -> ran B) : ran B :=
  match res r with
  | Returned a =>
      let r2 := f a (vars r) (awaited r) in
      Ran (res r2) (vars r2) (trace r ++ trace r2) (awaited r2)
  | Raised e => Ran (Raised e) (vars r) (trace r) (awaited r)
  end.

(** [r], then the handler [h] if [r] raised. *)
Definition or_else {A} (r : ran A) (h : JsError -> Vars -> nat -> ran A) : ran A :=
  match res r with
  | Returned a => Ran (Returned a) (vars r) (trace r) (awaited r)
  | Raised e =>
      let r2 := h e (vars r) (awaited r) in
      Ran (res r2) (vars r2) (trace r ++ trace r2) (awaited r2)
  end.

(** An oracle read from a list of answers: the [n]-th awaited call gets
    the [n]-th answer; a call with no answer of its type gets [silent]. *)
Definition noAnswer : JsError := {| code := "TIMEOUT"; message := "request timeout" |}.

Fixpoint silent {X} (r : rpc X) : X :=
  match r in rpc X return X with
  | GetAddress | CallSymbol _ | CallName _ => Err noAnswer
  | GetBlockNumber | CallDecimals _ | BalanceOf _ _ => Err noAnswer
  | GetLogs _ _ _ => Err noAnswer
  | Transfer _ _ _ => Err noAnswer
  | WaitTx _ => Err noAnswer
  | Sleep _ => tt
  | PromiseAll a b => (silent a, silent b)
  end.

Definition scripted (l : list answer) : oracle :=
  fun n X r =>
    match nth_error l n with
    | Some a => match decode r a with Some x => x | None => silent r end
    | None => silent r
    end.

(** ** Reading traces *)

Definition isEntry (e : event) : bool :=
  match e with
  | EnterGetTokenDetails _ | EnterTransferToken _ => true
  | _ => false
  end.

(** The calls of [getTokenDetails] and [transferToken] in a trace, in
    order. *)
Definition entries (tr : list event) : list event := List.filter isEntry tr.

Definition isSweep (e : event) : bool :=
  match e with
  | EnterTransferToken _ => true
  | _ => false
  end.

(** The number of calls of [transferToken] in a trace. *)
Definition sweeps (tr : list event) : nat := length (List.filter isSweep tr).

(** An event that changes a variable of the monitor. *)
Definition isWrite (e : event) : bool :=
  match e with
  | Marked _ | Assigned _ => true
  | _ => false
  end.

Definition writes (tr : list event) : list event := List.filter isWrite tr.

(** ** Reading histories *)

Definition entry : Type := (Z * nat * event)%type.

Definition isCheckpoint (x : entry) : bool :=
  match x with
  | (_, _, Assigned _) => true
  | _ => false
  end.

(** The assignments to [lastCheckedBlock], in order. *)
Definition checkpoints (h : list entry) : list entry := List.filter isCheckpoint h.

Definition isLogQuery (x : entry) : bool :=
  match x with
  | (_, _, Issued (RGetLogs _ _ _)) => true
  | _ => false
  end.

(** The log queries sent, in order. *)
Definition logQueries (h : list entry) : list entry := List.filter isLogQuery h.

(** [x] comes before [y] in [h]. *)
Definition precedes (x y : entry) (h : list entry) : Prop :=
  exists i j, (i < j)%nat /\ nth_error h i = Some x /\ nth_error h j = Some y.

(** Task 0 of a booted machine is the [monitorAndTransfer] call itself,
    which runs the custom-token pass; the polling callbacks are the later
    tasks, and an identifier is marked only by [handleIncomingTransfer].
    [passBeforePolling h]: no event of task 0 comes after a mark made by
    another task. *)
Definition passBeforePolling (h : list entry) : Prop :=
  forall t1 k tx t2 e,
    k <> 0%nat -> ~ precedes (t1, k, Marked tx) (t2, 0%nat, e) h.

(** [lastCheckedBlock] never goes down along a history. *)
Definition nonDecreasing (h : list entry) : Prop :=
  forall t1 k1 v1 t2 k2 v2,
    precedes (t1, k1, Assigned v1) (t2, k2, Assigned v2) h -> v1 <= v2.

(** ** Bounds that hold on every path of a program

    [at_most n p]: whatever the answers and whatever the variables hold
    when [p] reads them, [p] calls [transferToken] at most [n] times. *)
Fixpoint at_most {A} (n : nat) (p : async A) : Prop :=
  match p with
  | Ret _ | Throw _ => True
  | HasTx _ k => forall b, at_most n (k b)
  | AddTx _ k => at_most n k
  | ReadLast k => forall v, at_most n (k v)
  | WriteLast _ k => at_most n k
  | Say e k =>
      if isSweep e
      then match n with
           | O => False
           | S n' => at_most n' k
           end
      else at_most n k
  | Await r k => forall x, at_most n (k x)
  end.

(** The calls of [transferToken] made by task [j] in a history. *)
Definition sweeps_of (j : nat) (h : list entry) : nat :=
  length (List.filter (fun x : entry =>
                         match x with (_, k, e) => (k =? j)%nat && isSweep e end) h).

(** The suspended call in slot [j], if any, has at most [b] calls of
    [transferToken] ahead. *)
Definition budget (j b : nat) (m : Machine) : Prop :=
  match tasks m !! j with
  | Some (Some (Suspended _ _ r k)) => forall x, at_most b (k x)
  | _ => True
  end.


(** ** Concrete inputs used by the examples below *)

(** An entry of 42 characters that starts with [0x] and has no
    hexadecimal digit after it. *)
Definition notHex : string := "0xzzzzzzzzzzzzzzzzzzzzzzzzzzzzzzzzzzzzzzzz".

(** An address written with capitals and surrounded by blanks. *)
Definition daiRaw : string := " 0x6B175474E89094C44Da98b954EedeAC495271d0F ".
Definition dai : string := "0x6b175474e89094c44da98b954eedeac495271d0f".

(** An ethers whose constructors and helpers succeed. *)
Definition ethersOk : Ethers := {|
  new_JsonRpcProvider := fun _ => Ok tt;
  new_Wallet := fun _ => Ok tt;
  new_Contract := fun _ _ => Ok tt;
  formatUnits := fun v _ => Ok (toString v);
  zeroPadValue := fun s _ => Ok s;
  TRANSFER_TOPIC := "0xddf252ad"
|}.

Definition ethereum : NetworkConfig := {| name := "Ethereum"; rpcUrl := "https://rpc.example" |}.

Definition wallet : Captured :=
  {| network := "Ethereum"; senderAddress := "0xwallet"; recipient := "0xrecipient" |}.

Definition daiDetails : TokenDetails :=
  {| symbol := "DAI"; decimals := 18; tokenName := "Dai Stablecoin" |}.

Definition reverted : JsError := {| code := "CALL_EXCEPTION"; message := "execution reverted" |}.

Definition rpcDown : JsError := {| code := "SERVER_ERROR"; message := "503 Service Unavailable" |}.

(** The variables of a monitor whose checkpoint is block 10. *)
Definition atBlock10 : Vars := {| processedTxs := ∅; lastCheckedBlock := 10 |}.

Definition walletTopics : list (option string) :=
  [Some "0xddf252ad"; None; Some "0xwallet"].

(** Two log entries of one transaction that name different token
    contracts (a transaction that moved two tokens to the wallet). *)
Definition usdt : string := "0xdac17f958d2ee523a2206206994597c13d831ec7".
Definition entryDai : Log :=
  {| transactionHash := "0xabc1"; address := dai; blockNumber := 11 |}.
Definition entryUsdt : Log :=
  {| transactionHash := "0xabc1"; address := usdt; blockNumber := 11 |}.

(** A machine with one monitor and nothing pending. *)
Definition idle : Machine :=
  {| now := 0; instances := [atBlock10]; tasks := []; timers := []; history := [] |}.

Definition processEnv : ProcessEnv :=
  {| PRIVATE_KEY := "4c0883a69102937d6231471b5dbb6204fe5129617082792ae468d01a3f362318";
     RECIPIENT_ADDRESS := "0xrecipient";
     CUSTOM_TOKENS := None |}.

Definition daiAnswer : answer :=
  APair (AString "DAI") (APair (ANumber 18) (AString "Dai Stablecoin")).

Definition usdtAnswer : answer :=
  APair (AString "USDT") (APair (ANumber 6) (AString "Tether USD")).

(** A run of one monitor in which ticks overlap. The monitor starts at
    block 10 and its timer fires every 15 s from 15.1 s on. The tick of
    15.1 s reads height 11 and finds one transfer, in block 11; its handler
    sleeps 60 s from 15.4 s. The ticks of 30.1 s, 45.1 s, 60.1 s and 75.1 s
    read heights 12, 14, 15 and 16; the first of them finds the same
    transfer, already marked, the others find nothing. The sleeping handler
    resumes at 75.4 s and its sweep is confirmed at 80 s. The tick of 90.1 s
    reads height 17. *)
Definition overlappingTicks : list (Z * Step) :=
  [ (0, Settle 0 (AString "0xWALLET"));
    (100, Settle 0 (ANumber 10));
    (15100, Fire 0);
    (15200, Settle 1 (ANumber 11));
    (15300, Settle 1 (ALogs [entryDai]));
    (15400, Settle 1 daiAnswer);
    (30100, Fire 0);
    (30200, Settle 2 (ANumber 12));
    (30300, Settle 2 (ALogs [entryDai]));
    (45100, Fire 0);
    (45200, Settle 3 (ANumber 14));
    (45300, Settle 3 (ALogs []));
    (60100, Fire 0);
    (60200, Settle 4 (ANumber 15));
    (60300, Settle 4 (ALogs []));
    (75100, Fire 0);
    (75200, Settle 5 (ANumber 16));
    (75300, Settle 5 (ALogs []));
    (75400, Settle 1 ADone);
    (75500, Settle 1 (ANumber 1000));
    (75600, Settle 1 (ATx {| hash := "0xsweep" |}));
    (80000, Settle 1 ADone);
    (90100, Fire 0);
    (90200, Settle 6 (ANumber 17)) ].

(** A monitor with two custom tokens. *)
Definition envTwoTokens : ProcessEnv :=
  {| PRIVATE_KEY := PRIVATE_KEY processEnv;
     RECIPIENT_ADDRESS := "0xrecipient";
     CUSTOM_TOKENS := Some (dai ++ "," ++ usdt)%string |}.

(** A start in which the custom-token pass sweeps two tokens, each sweep
    confirmed about 12 s after it was submitted; the timer registered at
    0.1 s fires at 15.1 s, while the confirmation of the second sweep is
    awaited, and its tick finds a transfer. *)
Definition tickDuringPass : list (Z * Step) :=
  [ (0, Settle 0 (AString "0xWALLET"));
    (100, Settle 0 (ANumber 10));
    (200, Settle 0 daiAnswer);
    (300, Settle 0 (ANumber 1000));
    (400, Settle 0 (ATx {| hash := "0xsweep1" |}));
    (12400, Settle 0 ADone);
    (12500, Settle 0 usdtAnswer);
    (12600, Settle 0 (ANumber 500));
    (12700, Settle 0 (ATx {| hash := "0xsweep2" |}));
    (15100, Fire 0);
    (15200, Settle 1 (ANumber 11));
    (15300, Settle 1 (ALogs [entryDai]));
    (24700, Settle 0 ADone) ].



(** A start whose height query fails: the restart timer is set at 0.1 s
    and fires at 30.1 s. *)
Definition failedStart : list (Z * Step) :=
  [ (0, Settle 0 (AString "0xWALLET"));
    (100, Settle 0 (AError rpcDown));
    (30100, Fire 0);
    (30200, Settle 1 (AString "0xWALLET"));
    (30300, Settle 1 (ANumber 25)) ].



(** A monitor at block 10 whose start has ended and whose polling timer
    is due at 15.1 s. *)
Definition pollingTimer : Timer :=
  {| t_owner := 0; due := 15100; cb := PollingCallback wallet; every := Some 15000 |}.

Definition armed : Machine :=
  {| now := 100; instances := [atBlock10]; tasks := [None];
     timers := [Some pollingTimer]; history := [] |}.




(** ** The entry point (index.js, lines 193-238)

    [process.env] as [main] reads it: a variable is unset or holds a
    string. *)
Record RawEnv := {
  env_PRIVATE_KEY : option string;
  env_RECIPIENT_ADDRESS : option string;
  env_CUSTOM_TOKENS : option string;
  env_RPC_URL : option string;
  env_ARBITRUM_RPC_URL : option string;
  env_BASE_RPC_URL : option string;
  env_POLYGON_RPC_URL : option string
}.

(** The truth value JavaScript gives a variable of the environment:
    unset and the empty string are false. *)
Definition truthy (v : option string) : bool :=
  match v with
  | Some s => negb (String.eqb s EmptyString)
  | None => false
  end.

Definition valueOf (v : option string) : string :=
  match v with
  | Some s => s
  | None => EmptyString
  end.

(** The four candidate networks of lines 206-211, before the filter. *)
Definition candidateNetworks (raw : RawEnv) : list (string * option string) :=
  [ ("Ethereum", env_RPC_URL raw);
    ("Arbitrum", env_ARBITRUM_RPC_URL raw);
    ("Base", env_BASE_RPC_URL raw);
    ("Polygon", env_POLYGON_RPC_URL raw) ].

(** [.filter((n) => n.rpcUrl)] *)
Definition networkConfigs (raw : RawEnv) : list NetworkConfig :=
  map (fun n => {| name := fst n; rpcUrl := valueOf (snd n) |})
      (List.filter (fun n => truthy (snd n)) (candidateNetworks raw)).

Inductive MainEvent : Type :=
| LogMissingVariables
| LogNoRpcUrl
| LogInitializing
| LogRecipient (recipient : string)
| LogMonitoring (count : nat) (names : list string).

(** [main] ends the process with [process.exit(code)] or calls
    [monitorAndTransfer] for each configuration of [monitors], in list
    order, and awaits them all. *)
Inductive MainResult : Type :=
| Exit (code : Z) (out : list MainEvent)
| Monitors (out : list MainEvent) (monitors : list NetworkConfig).

Definition main (raw : RawEnv) : MainResult :=
  if negb (truthy (env_PRIVATE_KEY raw)) || negb (truthy (env_RECIPIENT_ADDRESS raw)) then
    Exit 1 [LogMissingVariables]
  else
    let configs := networkConfigs raw in
    if (length configs =? 0)%nat then Exit 1 [LogNoRpcUrl]
    else
      Monitors [LogInitializing;
                LogRecipient (valueOf (env_RECIPIENT_ADDRESS raw));
                LogMonitoring (length configs) (map name configs)]
               configs.

(** What [monitorAndTransfer] reads of the environment (lines 30-32). *)
Definition processEnvOf (raw : RawEnv) : ProcessEnv :=
  {| PRIVATE_KEY := valueOf (env_PRIVATE_KEY raw);
     RECIPIENT_ADDRESS := valueOf (env_RECIPIENT_ADDRESS raw);
     CUSTOM_TOKENS := env_CUSTOM_TOKENS raw |}.

(** ** Properties of every path of a program *)

(** [never_throws p]: whatever the answers and the variables, [p] ends
    by returning. *)
Fixpoint never_throws {A} (p : async A) : Prop :=
  match p with
  | Ret _ => True
  | Throw _ => False
  | HasTx _ k => forall b, never_throws (k b)
  | AddTx _ k => never_throws k
  | ReadLast k => forall v, never_throws (k v)
  | WriteLast _ k => never_throws k
  | Say _ k => never_throws k
  | Await r k => forall x, never_throws (k x)
  end.

(** [emits_at_most P n p]: on every path [p] reports at most [n] events
    that satisfy [P]. *)
Fixpoint emits_at_most {A} (P : event -> bool) (n : nat) (p : async A) : Prop :=
  match p with
  | Ret _ | Throw _ => True
  | HasTx _ k => forall b, emits_at_most P n (k b)
  | AddTx _ k => emits_at_most P n k
  | ReadLast k => forall v, emits_at_most P n (k v)
  | WriteLast _ k => emits_at_most P n k
  | Say e k =>
      if P e
      then match n with
           | O => False
           | S n' => emits_at_most P n' k
           end
      else emits_at_most P n k
  | Await r k => forall x, emits_at_most P n (k x)
  end.

(** The settling delay of [handleIncomingTransfer] (line 127). *)
Definition isSettlingDelay {X} (r : rpc X) : bool :=
  match r with
  | Sleep ms => ms =? 60000
  | _ => false
  end.

Definition isMark (e : event) : bool :=
  match e with
  | Marked _ => true
  | _ => false
  end.

(** [sweeps_after_delay slept p]: on every path of [p], between adding an
    identifier to [processedTxs] and the next call of [transferToken] a
    settling delay is awaited ([slept] tells whether one has been awaited
    since the last identifier was added before [p]). *)
Fixpoint sweeps_after_delay {A} (slept : bool) (p : async A) : Prop :=
  match p with
  | Ret _ | Throw _ => True
  | HasTx _ k => forall b, sweeps_after_delay slept (k b)
  | AddTx _ k => sweeps_after_delay false k
  | ReadLast k => forall v, sweeps_after_delay slept (k v)
  | WriteLast _ k => sweeps_after_delay slept k
  | Say e k =>
      (isSweep e = true -> slept = true)
      /\ sweeps_after_delay (if isMark e then false else slept) k
  | Await r k => forall x, sweeps_after_delay (slept || isSettlingDelay r) (k x)
  end.

Definition isTimer (e : event) : bool :=
  match e with
  | SetInterval _ _ | SetTimeout _ _ => true
  | _ => false
  end.

Definition count (P : event -> bool) (tr : list event) : nat :=
  length (List.filter P tr).

(** The timers that are pending. *)
Definition active (tm : list (option Timer)) : nat :=
  length (List.filter (fun o : option Timer =>
                         match o with Some _ => true | None => false end) tm).


(** A suspended call that cannot end with an uncaught error. *)
Definition safe_task (o : option Task) : Prop :=
  match o with
  | Some (Suspended _ _ r k) => forall x, never_throws (k x)
  | None => True
  end.

(** A restart registered with [setInterval]; the code registers its
    restart with [setTimeout] only. *)
Definition isRepeatingRestart (e : event) : bool :=
  match e with
  | SetInterval (RestartCallback _) _ => true
  | _ => false
  end.

(** A suspended call that registers at most [b] timers from here on, and
    no repeating restart. *)
Definition may_register (b : nat) (o : option Task) : Prop :=
  match o with
  | Some (Suspended _ _ r k) =>
      forall x, emits_at_most isTimer b (k x) /\ emits_at_most isRepeatingRestart 0 (k x)
  | None => True
  end.

Definition one_shot_restart (o : option Timer) : Prop :=
  match o with
  | Some tm => match cb tm with
               | RestartCallback _ => every tm = None
               | PollingCallback _ => True
               end
  | None => True
  end.

(** [timers] holds the timers that run a callback of the program: the
    polling interval of line 138 and the restart timeout of line 188. The
    settling delay of line 127, [setTimeout(resolve, 60000)], is an awaited
    promise: a task suspended on [Sleep], not an entry of [timers]. At most
    one polling or restart timer is pending or still to be registered:
    either none is pending and one task, [who], may register one, or no
    task may register any; and a pending restart does not repeat. *)
Definition one_timer_with (who : option nat) (m : Machine) : Prop :=
  (forall j o, tasks m !! j = Some o ->
               may_register (if bool_decide (who = Some j) then 1 else 0) o)
  /\ (forall j o, timers m !! j = Some o -> one_shot_restart o)
  /\ match who with
     | Some _ => active (timers m) = 0%nat
     | None => (active (timers m) <= 1)%nat
     end.

Definition one_timer (m : Machine) : Prop := exists who, one_timer_with who m.

(** The state of task [j] with respect to the settling delay: its events
    in [new] are not later than the clock, the identifiers it marked are
    not later than [asOf], and, when [slept] holds, a delay that began at
    or after the last mark has run out. *)
Definition marks_until (j : nat) (s : Z) (new : list entry) : Prop :=
  forall a h, In (a, j, Marked h) new -> a <= s.

Definition delayed_sweeps (j : nat) (new : list entry) : Prop :=
  forall a h t tok,
    precedes (a, j, Marked h) (t, j, EnterTransferToken tok) new -> a + 60000 <= t.

Definition delay_state (j : nat) (slept : bool) (new : list entry) (m : Machine) : Prop :=
  marks_until j (now m) new
  /\ delayed_sweeps j new
  /\ (slept = true -> exists s, s + 60000 <= now m /\ marks_until j s new)
  /\ match tasks m !! j with
     | Some (Some (Suspended _ since r k)) =>
         (forall x, sweeps_after_delay (slept || isSettlingDelay r) (k x))
         /\ since <= now m
         /\ marks_until j since new
     | _ => True
     end.

(** What [trimStart] returns is empty or starts with a character that is
    not white space, and [trimEnd] keeps that. *)
Definition noLeadingSpace (s : string) : Prop :=
  match s with
  | EmptyString => True
  | String c _ => Js.isWhiteSpace c = false
  end.

(** A test on events that only timers pass. *)
Definition timersOnly (P : event -> bool) : Prop :=
  forall e, isTimer e = false -> P e = false.

(** [only_emits Q p]: on every path of [p], every event reported, every
    call awaited and every change of a variable satisfies [Q]. *)
Fixpoint only_emits {A} (Q : event -> Prop) (p : async A) : Prop :=
  match p with
  | Ret _ | Throw _ => True
  | HasTx _ k => forall b, only_emits Q (k b)
  | AddTx h k => Q (Marked h) /\ only_emits Q k
  | ReadLast k => forall v, only_emits Q (k v)
  | WriteLast v k => Q (Assigned v) /\ only_emits Q k
  | Say e k => Q e /\ only_emits Q k
  | Await r k => Q (Issued (erase r)) /\ forall x, only_emits Q (k x)
  end.

(** The [transfer] calls of a request, as (token, to, amount). *)
Fixpoint transfersOf (q : request) : list (string * string * Z) :=
  match q with
  | RTransfer token to amount => [(token, to, amount)]
  | RPromiseAll a b => (transfersOf a ++ transfersOf b)%list
  | _ => []
  end.

Definition callbackOf (e : event) : option callback :=
  match e with
  | SetInterval cb _ | SetTimeout cb _ => Some cb
  | _ => None
  end.

(** What a timer runs when it fires (see [fire]). *)
Definition program_of (E : Ethers) (env : ProcessEnv) (cb : callback) : async unit :=
  match cb with
  | PollingCallback cap => pollingCallback E cap
  | RestartCallback cfg => monitorAndTransfer E env cfg
  end.

(** Every timer registered under [Q] runs a program that keeps to [Q]. *)
Definition closed_under_callbacks (E : Ethers) (env : ProcessEnv) (Q : event -> Prop) : Prop :=
  forall e cb, callbackOf e = Some cb -> Q e -> only_emits Q (program_of E env cb).

Definition task_only (Q : event -> Prop) (o : option Task) : Prop :=
  match o with
  | Some (Suspended _ _ r k) => forall x, only_emits Q (k x)
  | None => True
  end.

(** The event loop has kept to [Q] and will. *)
Definition emits_only (E : Ethers) (env : ProcessEnv) (Q : event -> Prop) (m : Machine) : Prop :=
  Forall (fun x : entry => Q (snd x)) (history m)
  /\ (forall j o, tasks m !! j = Some o -> task_only Q o)
  /\ (forall j tm, timers m !! j = Some (Some tm) -> only_emits Q (program_of E env (cb tm))).

(** A transfer goes to [R] and moves a non-zero amount; a polling
    callback sweeps to [R]. *)
Definition to_recipient (R : string) (e : event) : Prop :=
  match e with
  | Issued q =>
      forall token to amount, In (token, to, amount) (transfersOf q) -> to = R /\ amount <> 0
  | SetInterval (PollingCallback cap) _ | SetTimeout (PollingCallback cap) _ =>
      recipient cap = R
  | _ => True
  end.

(** The delays a request awaits: [Sleep ms] is
    [new Promise((resolve) => setTimeout(resolve, ms))]. *)
Fixpoint sleepsOf (q : request) : list Z :=
  match q with
  | RSleep ms => [ms]
  | RPromiseAll a b => (sleepsOf a ++ sleepsOf b)%list
  | _ => []
  end.

(** The three [setInterval] and [setTimeout] calls of the program, for
    the network [cfg]: the polling interval of 15 seconds (line 138), the
    restart after 30 seconds (line 188), and the settling delay of 60
    seconds, which is awaited (line 127). *)
Definition known_timer (env : ProcessEnv) (cfg : NetworkConfig) (e : event) : Prop :=
  match e with
  | SetInterval cb ms =>
      ms = 15000
      /\ exists cap, cb = PollingCallback cap
                     /\ network cap = name cfg /\ recipient cap = RECIPIENT_ADDRESS env
  | SetTimeout cb ms => ms = 30000 /\ cb = RestartCallback cfg
  | Issued q => forall ms, In ms (sleepsOf q) -> ms = 60000
  | _ => True
  end.

(** The calls a trace awaits, in order. *)
Definition issued (tr : list event) : list request :=
  flat_map (fun e => match e with Issued q => [q] | _ => [] end) tr.

(** ** Concrete inputs of the examples of the further properties *)

(** What follows the tick of 15.1 s: it reads height 11 and finds one
    transfer; its handler sleeps from 15.4 s to 75.4 s, while four more
    ticks start, and its sweep is confirmed at 80 s. *)
Definition afterFirstTick : list (Z * Step) :=
  [ (15200, Settle 1 (ANumber 11));
    (15300, Settle 1 (ALogs [entryDai]));
    (15400, Settle 1 daiAnswer);
    (30100, Fire 0);
    (45100, Fire 0);
    (60100, Fire 0);
    (75100, Fire 0);
    (75400, Settle 1 ADone);
    (75500, Settle 1 (ANumber 1000));
    (75600, Settle 1 (ATx {| hash := "0xsweep" |}));
    (80000, Settle 1 ADone) ].

(** The environment of a process with two of the four RPC URLs set and
    two custom tokens. *)
Definition rawEnv : RawEnv :=
  {| env_PRIVATE_KEY := Some (PRIVATE_KEY processEnv);
     env_RECIPIENT_ADDRESS := Some "0xrecipient";
     env_CUSTOM_TOKENS := Some (dai ++ "," ++ usdt)%string;
     env_RPC_URL := Some "https://rpc.example";
     env_ARBITRUM_RPC_URL := None;
     env_BASE_RPC_URL := Some "https://base.example";
     env_POLYGON_RPC_URL := Some EmptyString |}.

(** ** Marking and the checkpoint *)

(** The hashes received so far by a call, after [r] is answered with
    [x]: a log query adds the transaction hashes of its logs. *)
Definition received {X} (r : rpc X) : X -> gset string -> gset string :=
  match r in rpc X return X -> gset string -> gset string with
  | GetLogs _ _ _ =>
      fun x all =>
        match x with
        | Ok logs => all ∪ list_to_set (map transactionHash logs)
        | Err _ => all
        end
  | _ => fun _ all => all
  end.

(** [marks p known all Q]: [p] never assigns [lastCheckedBlock], and
    wherever it returns [Q] holds of its value, of hashes known to be in
    [processedTxs] then, and of the hashes received by then, when the
    hashes of [known] are in [processedTxs] and those of [all] have been
    received at the start. A hash is known to be in [processedTxs] once
    [has] has answered true for it or [add] has added it. *)
Fixpoint marks {A} (p : async A) (known all : gset string)
    (Q : A -> gset string -> gset string -> Prop) : Prop :=
  match p with
  | Ret a => Q a known all
  | Throw _ => True
  | HasTx h k => marks (k true) ({[ h ]} ∪ known) all Q /\ marks (k false) known all Q
  | AddTx h k => marks k ({[ h ]} ∪ known) all Q
  | ReadLast k => forall v, marks (k v) known all Q
  | WriteLast _ _ => False
  | Say e k => isWrite e = false /\ marks k known all Q
  | Await r k => forall x, marks (k x) known (received r x all) Q
  end.

Definition isRet {A} (p : async A) : Prop :=
  match p with
  | Ret _ => True
  | _ => False
  end.

(** [checkpoint_guarded known all p]: on every path of [p], an
    assignment to [lastCheckedBlock] is made only when every hash received
    is known to be in [processedTxs], and the call returns right after
    it. *)
Fixpoint checkpoint_guarded {A} (known all : gset string) (p : async A) : Prop :=
  match p with
  | Ret _ | Throw _ => True
  | HasTx h k =>
      checkpoint_guarded ({[ h ]} ∪ known) all (k true)
      /\ checkpoint_guarded known all (k false)
  | AddTx h k => checkpoint_guarded ({[ h ]} ∪ known) all k
  | ReadLast k => forall v, checkpoint_guarded known all (k v)
  | WriteLast _ k => all ⊆ known /\ isRet k
  | Say e k => isWrite e = false /\ checkpoint_guarded known all k
  | Await r k => forall x, checkpoint_guarded known (received r x all) (k x)
  end.

(** The state of the tick in slot [s], a call of instance [i], with
    respect to its checkpoint, [D] being the hashes it has received and
    [new] what has happened since it began: while it is suspended it has
    assigned nothing and goes on guarded; once it has ended, if it has
    assigned [lastCheckedBlock], every hash it received is in
    [processedTxs]. *)
Definition tick_state (s i : nat) (D : gset string) (new : list entry) (m : Machine) : Prop :=
  (s < length (tasks m))%nat
  /\ (i < length (instances m))%nat
  /\ match tasks m !! s with
     | Some (Some (Suspended i' _ r k)) =>
         i' = i
         /\ (forall t v, ~ In (t, s, Assigned v) new)
         /\ exists known,
              known ⊆ processedTxs (vars_of m i)
              /\ forall x, checkpoint_guarded known (received r x D) (k x)
     | _ =>
         (exists t v, In (t, s, Assigned v) new) -> D ⊆ processedTxs (vars_of m i)
     end.

(** * Properties *)

(** ** Strings *)

Lemma split_nonempty sep s : Js.split sep s <> [].
Proof.
  destruct s as [|c r]; simpl; [discriminate|].
  destruct (Ascii.eqb c sep); [discriminate|].
  destruct (Js.split sep r); discriminate.
Qed.

Lemma join_cons sep p ps :
  ps <> [] -> Js.join sep (p :: ps) = (p ++ String sep (Js.join sep ps))%string.
Proof. destruct ps; [congruence | reflexivity]. Qed.

(** The pieces of [split], joined again with the separator, are the
    string. *)
Lemma join_split sep s : Js.join sep (Js.split sep s) = s.
Proof.
  induction s as [|c r IH]; simpl; [reflexivity|].
  pose proof (split_nonempty sep r) as Hn.
  destruct (Ascii.eqb_spec c sep) as [->|Hne].
  - rewrite join_cons by assumption. simpl. now rewrite IH.
  - destruct (Js.split sep r) as [|p ps] eqn:Hs; [congruence|].
    destruct ps as [|q qs].
    + simpl in *. now rewrite IH.
    + rewrite join_cons by discriminate. rewrite join_cons in IH by discriminate.
      rewrite <- IH. reflexivity.
Qed.

(** No piece contains the separator. *)
Lemma split_no_sep sep s p : In p (Js.split sep s) -> Js.contains sep p = false.
Proof.
  revert p. induction s as [|c r IH]; simpl; intros p Hp.
  - destruct Hp as [<-|[]]. reflexivity.
  - destruct (Ascii.eqb_spec c sep) as [->|Hne].
    + destruct Hp as [<-|Hp]; [reflexivity | now apply IH].
    + destruct (Js.split sep r) as [|q qs] eqn:Hs.
      * destruct Hp as [<-|[]]. simpl.
        destruct (Ascii.eqb_spec c sep); [contradiction|reflexivity].
      * destruct Hp as [<-|Hp].
        -- simpl. destruct (Ascii.eqb_spec c sep); [contradiction|].
           simpl. apply IH. now left.
        -- apply IH. now right.
Qed.

Lemma lowerChar_idem c : Js.lowerChar (Js.lowerChar c) = Js.lowerChar c.
Proof. destruct c as [[] [] [] [] [] [] [] []]; reflexivity. Qed.

Lemma toLowerCase_idem s : Js.toLowerCase (Js.toLowerCase s) = Js.toLowerCase s.
Proof. induction s; simpl; [reflexivity|]. now rewrite lowerChar_idem, IHs. Qed.

Lemma wellFormed_keep a : wellFormedAddress a = true -> keep a = true.
Proof.
  unfold wellFormedAddress, keep. intros H.
  apply andb_true_iff in H as [H _]. exact H.
Qed.

(** ** The custom token list *)

(** C6, as stated, fails: the list keeps an entry of 42 characters that
    starts with [0x] whatever the other 40 characters are; here none of
    them is a hexadecimal digit. *)
Lemma customTokenAddresses_keeps_non_hex :
  ~ (forall a, In a (customTokenAddresses (Some notHex)) -> wellFormedAddress a = true).
Proof.
  intros H. specialize (H notHex).
  assert (Hin : In notHex (customTokenAddresses (Some notHex))) by (vm_compute; now left).
  apply H in Hin. vm_compute in Hin. discriminate.
Qed.

(** C6, amended: for every value of the configuration string, the parsed
    list holds exactly the comma-separated entries that, once trimmed and
    put in lower case, have 42 characters and start with [0x]; every entry
    that is a well-formed hexadecimal address (in either case, with blanks
    around it) is therefore kept, in lower case, and no test on the 40
    characters after the prefix is made. *)
Theorem customTokenAddresses_spec (CUSTOM_TOKENS : option string) :
  let entries := Js.split comma (customTokensEnv CUSTOM_TOKENS) in
  Js.join comma entries = customTokensEnv CUSTOM_TOKENS
  /\ (forall e, In e entries -> Js.contains comma e = false)
  /\ (forall a, In a (customTokenAddresses CUSTOM_TOKENS) <->
                exists e, In e entries /\ a = Js.toLowerCase (Js.trim e)
                          /\ String.length a = 42%nat /\ Js.startsWith a "0x" = true)
  /\ (forall e, In e entries -> wellFormedAddress (Js.toLowerCase (Js.trim e)) = true ->
                In (Js.toLowerCase (Js.trim e)) (customTokenAddresses CUSTOM_TOKENS))
  /\ (forall a, In a (customTokenAddresses CUSTOM_TOKENS) -> Js.toLowerCase a = a).
Proof.
  intros entries. unfold customTokenAddresses. fold entries.
  assert (Hchar : forall a, In a (List.filter keep (map normalize entries)) <->
                exists e, In e entries /\ a = Js.toLowerCase (Js.trim e)
                          /\ String.length a = 42%nat /\ Js.startsWith a "0x" = true).
  { intros a. rewrite filter_In, in_map_iff. unfold keep, normalize. split.
    - intros [[e [<- He]] Hk]. apply andb_true_iff in Hk as [Hl Hp].
      apply Nat.eqb_eq in Hl. exists e. auto.
    - intros [e [He [-> [Hl Hp]]]]. split; [exists e; auto|].
      apply andb_true_iff. split; [now apply Nat.eqb_eq | exact Hp]. }
  split; [apply join_split|].
  split; [intros e He; now apply (split_no_sep comma (customTokensEnv CUSTOM_TOKENS))|].
  split; [exact Hchar|].
  split.
  - intros e He Hw. apply filter_In. split.
    + apply in_map_iff. exists e. auto.
    + now apply wellFormed_keep.
  - intros a Ha. apply Hchar in Ha as [e [_ [-> _]]]. apply toLowerCase_idem.
Qed.

(** The amended statement at a concrete value: the mixed-case address
    is kept in lower case, the non-hexadecimal entry is kept too, the
    short entry is dropped. *)
Lemma customTokenAddresses_spec_witness :
  customTokenAddresses (Some (daiRaw ++ "," ++ notHex ++ ",0x12")) = [dai; notHex]
  /\ In dai (customTokenAddresses (Some (daiRaw ++ "," ++ notHex ++ ",0x12"))).
Proof.
  split; [vm_compute; reflexivity|].
  apply (proj1 (proj2 (proj2 (proj2
           (customTokenAddresses_spec (Some (daiRaw ++ "," ++ notHex ++ ",0x12")))))) daiRaw).
  - vm_compute. now left.
  - vm_compute. reflexivity.
Defined.

(** ** Runs of composed programs *)

Lemma run_bind {A B} (o : oracle) (p : async A) (f : A -> async B) c n :
  run o (bind p f) c n = and_then (run o p c n) (fun a c' n' => run o (f a) c' n').
Proof.
  revert c n.
  induction p as [a|e|h k IH|h k IH|k IH|v k IH|e k IH|X r k IH]; intros c n; simpl.
  - unfold and_then. simpl. now destruct (run o (f a) c n).
  - reflexivity.
  - apply IH.
  - rewrite IH. unfold and_then, logged. simpl.
    now destruct (res (run o k (markProcessed h c) n)).
  - apply IH.
  - rewrite IH. unfold and_then, logged. simpl.
    now destruct (res (run o k (setLastChecked v c) n)).
  - rewrite IH. unfold and_then, logged. simpl.
    now destruct (res (run o k c n)).
  - rewrite IH. unfold and_then, logged. simpl.
    now destruct (res (run o (k (o n X r)) c (S n))).
Qed.

Lemma run_try_catch {A} (o : oracle) (p : async A) (h : JsError -> async A) c n :
  run o (try_catch p h) c n = or_else (run o p c n) (fun e c' n' => run o (h e) c' n').
Proof.
  revert c n.
  induction p as [a|e|t k IH|t k IH|k IH|v k IH|e k IH|X r k IH]; intros c n; simpl.
  - reflexivity.
  - unfold or_else. simpl. now destruct (run o (h e) c n).
  - apply IH.
  - rewrite IH. unfold or_else, logged. simpl.
    now destruct (res (run o k (markProcessed t c) n)).
  - apply IH.
  - rewrite IH. unfold or_else, logged. simpl.
    now destruct (res (run o k (setLastChecked v c) n)).
  - rewrite IH. unfold or_else, logged. simpl.
    now destruct (res (run o k c n)).
  - rewrite IH. unfold or_else, logged. simpl.
    now destruct (res (run o (k (o n X r)) c (S n))).
Qed.

(** The sequential semantics is the event-loop semantics of a call that
    no other call interleaves with: a run is a segment to the next [await],
    the oracle's answer, and the run of what follows. *)
Lemma run_by_segments {A} (o : oracle) (p : async A) c n :
  run o p c n =
  let a := advance p c in
  match at_await a with
  | Finished x => Ran (Returned x) (vars_then a) (emitted a) n
  | Crashed e => Ran (Raised e) (vars_then a) (emitted a) n
  | Blocked r k =>
      let r2 := run o (k (o n _ r)) (vars_then a) (S n) in
      Ran (res r2) (vars r2) (emitted a ++ trace r2) (awaited r2)
  end.
Proof.
  revert c n.
  induction p as [a|e|h k IH|h k IH|k IH|v k IH|e k IH|X r k IH]; intros c n; simpl.
  - reflexivity.
  - reflexivity.
  - apply IH.
  - rewrite IH. unfold logged. simpl.
    destruct (at_await (advance k (markProcessed h c))); reflexivity.
  - apply IH.
  - rewrite IH. unfold logged. simpl.
    destruct (at_await (advance k (setLastChecked v c))); reflexivity.
  - rewrite IH. unfold logged. simpl.
    destruct (at_await (advance k c)); reflexivity.
  - reflexivity.
Qed.

(** ** The zero test of [transferToken] *)

Lemma to_int_normal z : Z.to_int z = Decimal.norm (Z.to_int z).
Proof. rewrite <- (DecimalZ.to_of (Z.to_int z)). now rewrite DecimalZ.of_to. Qed.

Lemma toString_zero z : String.eqb (toString z) "0" = true -> z = 0.
Proof.
  intros H. apply String.eqb_eq in H. unfold toString in H.
  assert (Hd : Z.to_int z <> Decimal.Pos Decimal.Nil /\ Z.to_int z <> Decimal.Neg Decimal.Nil).
  { split; intros Hc; pose proof (to_int_normal z) as Hn; rewrite Hc in Hn; discriminate. }
  destruct Hd as [H1 H2].
  pose proof (NilZero.isi _ H1 H2) as Hi. rewrite H in Hi. simpl in Hi.
  injection Hi as Hi. rewrite <- (DecimalZ.of_to z), <- Hi. reflexivity.
Qed.

(** [balance === 0n || balance.toString() === "0"] holds exactly for a
    zero balance. *)
Lemma is_zero_spec z : ((z =? 0) || String.eqb (toString z) "0") = (z =? 0).
Proof.
  destruct (z =? 0) eqn:Hz; [reflexivity|]. simpl.
  destruct (String.eqb (toString z) "0") eqn:Hs; [|reflexivity].
  apply toString_zero in Hs. apply Z.eqb_neq in Hz. contradiction.
Qed.

(** ** transferToken *)

(** C1: when the [balanceOf] read for the wallet returns zero,
    [transferToken] returns [false], the no-op result, having sent that one
    read to the chain and nothing else: no transfer is submitted, nothing is
    reported, and the variables of the monitor are untouched. *)
Theorem transferToken_zero_balance E cap tokenAddress tokenDetails (o : oracle) c n :
  new_Contract E tokenAddress WithWallet = Ok tt ->
  o n _ (BalanceOf tokenAddress (senderAddress cap)) = Ok 0 ->
  run o (transferToken E cap tokenAddress tokenDetails) c n
  = Ran (Returned false) c
        [EnterTransferToken tokenAddress;
         Issued (RBalanceOf tokenAddress (senderAddress cap))]
        (S n).
Proof.
  intros Hc Hb. unfold transferToken. simpl. rewrite Hc. simpl. rewrite Hb. reflexivity.
Qed.

Lemma transferToken_zero_balance_witness :
  run (scripted [ANumber 0]) (transferToken ethersOk wallet dai daiDetails) fresh 0
  = Ran (Returned false) fresh
        [EnterTransferToken dai; Issued (RBalanceOf dai "0xwallet")] 1.
Proof.
  apply (transferToken_zero_balance ethersOk wallet dai daiDetails (scripted [ANumber 0]) fresh 0);
    reflexivity.
Defined.

(** C9: [transferToken] always returns a boolean and never raises. It
    returns [true] exactly when the contract was built, the balance read
    gave a non-zero amount, the amount was formatted, the transfer was
    submitted and its confirmation arrived. It returns the same [false] for
    a zero balance and for a failure of any of these steps, so the result
    does not tell the two apart. *)
Theorem transferToken_result E cap tokenAddress tokenDetails (o : oracle) c n :
  let r := run o (transferToken E cap tokenAddress tokenDetails) c n in
  let sender := senderAddress cap in
  let to := recipient cap in
  (res r = Returned true \/ res r = Returned false)
  /\ (res r = Returned true <->
        exists balance formatted tx,
          new_Contract E tokenAddress WithWallet = Ok tt
          /\ o n _ (BalanceOf tokenAddress sender) = Ok balance
          /\ balance <> 0
          /\ formatTokenAmount E balance (decimals tokenDetails) = Ok formatted
          /\ o (S n) _ (Transfer tokenAddress to balance) = Ok tx
          /\ o (S (S n)) _ (WaitTx (hash tx)) = Ok tt)
  /\ (res r = Returned true ->
        exists balance tx,
          In (Issued (RTransfer tokenAddress to balance)) (trace r)
          /\ In (Issued (RWaitTx (hash tx))) (trace r)
          /\ In (LogTxHash (hash tx)) (trace r))
  /\ (o n _ (BalanceOf tokenAddress sender) = Ok 0 -> res r = Returned false)
  /\ (forall e, new_Contract E tokenAddress WithWallet = Err e -> res r = Returned false)
  /\ (forall e, o n _ (BalanceOf tokenAddress sender) = Err e -> res r = Returned false)
  /\ (forall balance e,
        o n _ (BalanceOf tokenAddress sender) = Ok balance ->
        formatTokenAmount E balance (decimals tokenDetails) = Err e -> res r = Returned false)
  /\ (forall balance e,
        o n _ (BalanceOf tokenAddress sender) = Ok balance ->
        o (S n) _ (Transfer tokenAddress to balance) = Err e -> res r = Returned false)
  /\ (forall balance tx e,
        o n _ (BalanceOf tokenAddress sender) = Ok balance ->
        o (S n) _ (Transfer tokenAddress to balance) = Ok tx ->
        o (S (S n)) _ (WaitTx (hash tx)) = Err e -> res r = Returned false).
Proof.
  unfold transferToken. simpl.
  destruct (new_Contract E tokenAddress WithWallet) as [[]|e0] eqn:Hc; simpl.
  2:{ repeat split; auto; try discriminate.
      intros (b & f & tx & H & _). discriminate. }
  destruct (o n _ (BalanceOf tokenAddress (senderAddress cap))) as [balance|e1] eqn:Hb; simpl.
  2:{ repeat split; auto; try discriminate.
      intros (b & f & tx & _ & H & _). discriminate. }
  rewrite is_zero_spec.
  destruct (Z.eqb_spec balance 0) as [->|Hnz]; simpl.
  { repeat split; auto; try discriminate.
    intros (b & f & tx & _ & H & Hn & _). congruence. }
  destruct (formatTokenAmount E balance (decimals tokenDetails)) as [formatted|e2] eqn:Hf; simpl.
  2:{ repeat split; auto; try discriminate.
      intros (b & f & tx & _ & H & _ & H' & _). congruence. }
  destruct (o (S n) _ (Transfer tokenAddress (recipient cap) balance)) as [tx|e3] eqn:Ht; simpl.
  2:{ repeat split; auto; try discriminate.
      intros (b & f & tx & _ & H & _ & _ & H' & _). congruence. }
  destruct (o (S (S n)) _ (WaitTx (hash tx))) as [[]|e4] eqn:Hw; simpl.
  2:{ repeat split; auto; try discriminate.
      intros (b & f & tx' & _ & H & _ & _ & H' & H'').
      assert (b = balance) by congruence. subst b.
      assert (tx' = tx) by congruence. subst tx'. congruence. }
  repeat split; auto; try discriminate.
  - intros _. exists balance, formatted, tx. repeat split; auto.
  - intros _. exists balance, tx. simpl. repeat split; auto 10.
  - intros H. congruence.
  - intros b e H H'. congruence.
  - intros b e H H'. congruence.
  - intros b tx' e H H' H''.
    assert (b = balance) by congruence. subst b.
    assert (tx' = tx) by congruence. subst tx'. congruence.
Qed.

(** The result [true] at a concrete run: balance 1000, transfer submitted
    and confirmed. *)
Lemma transferToken_result_witness :
  res (run (scripted [ANumber 1000; ATx {| hash := "0xsweep" |}; ADone])
           (transferToken ethersOk wallet dai daiDetails) fresh 0) = Returned true.
Proof.
  apply (proj2 (proj1 (proj2
    (transferToken_result ethersOk wallet dai daiDetails
       (scripted [ANumber 1000; ATx {| hash := "0xsweep" |}; ADone]) fresh 0)))).
  exists 1000, "1000", {| hash := "0xsweep" |}.
  repeat split; try reflexivity. lia.
Defined.

(** ** getTokenDetails *)

(** C5: [getTokenDetails] never raises and leaves the variables of the
    monitor alone. With the contract built, the three lookups are sent
    together and each field is the value the chain returned for it or,
    when that lookup failed, its own default ([UNKNOWN], 18,
    [Unknown Token]), whatever happened to the other two; in particular a
    failed symbol lookup with the other two successful gives [UNKNOWN] and
    the chain's decimals and name. When the contract cannot be built the
    three defaults are returned. *)
Theorem getTokenDetails_per_field E tokenAddress (o : oracle) c n :
  let r := run o (getTokenDetails E tokenAddress) c n in
  let lookups := PromiseAll (CallSymbol tokenAddress)
                   (PromiseAll (CallDecimals tokenAddress) (CallName tokenAddress)) in
  (exists d, res r = Returned d)
  /\ vars r = c
  /\ (forall s d nm,
        new_Contract E tokenAddress WithProvider = Ok tt ->
        o n _ lookups = (s, (d, nm)) ->
        res r = Returned {| symbol := catch_default s "UNKNOWN";
                            decimals := catch_default d 18;
                            tokenName := catch_default nm "Unknown Token" |}
        /\ trace r = [EnterGetTokenDetails tokenAddress; Issued (erase lookups)])
  /\ (forall e d nm,
        new_Contract E tokenAddress WithProvider = Ok tt ->
        o n _ lookups = (Err e, (Ok d, Ok nm)) ->
        res r = Returned {| symbol := "UNKNOWN"; decimals := d; tokenName := nm |})
  /\ (forall e,
        new_Contract E tokenAddress WithProvider = Err e ->
        res r = Returned defaultDetails).
Proof.
  unfold getTokenDetails. simpl.
  destruct (new_Contract E tokenAddress WithProvider) as [[]|e0] eqn:Hc; simpl.
  - destruct (o n _ (PromiseAll (CallSymbol tokenAddress)
               (PromiseAll (CallDecimals tokenAddress) (CallName tokenAddress))))
      as [s [d nm]] eqn:Ho; simpl.
    repeat split; eauto; try discriminate.
    all: intros;
      match goal with
      | Heq : (_, _) = (_, _) |- _ => inversion Heq; subst; reflexivity
      end.
  - repeat split; eauto; try discriminate.
Qed.

Lemma getTokenDetails_per_field_witness :
  res (run (scripted [APair (AError reverted) (APair (ANumber 6) (AString "Tether USD"))])
           (getTokenDetails ethersOk dai) fresh 0)
  = Returned {| symbol := "UNKNOWN"; decimals := 6; tokenName := "Tether USD" |}.
Proof.
  apply (proj1 (proj2 (proj2 (proj2
    (getTokenDetails_per_field ethersOk dai
       (scripted [APair (AError reverted) (APair (ANumber 6) (AString "Tether USD"))])
       fresh 0)))) reverted 6 "Tether USD"); reflexivity.
Defined.
(** ** The polling callback *)








(** ** The ledger only grows *)

Lemma markProcessed_grows h c : processedTxs c ⊆ processedTxs (markProcessed h c).
Proof. unfold markProcessed. simpl. set_solver. Qed.

Lemma advance_grows {A} (p : async A) c :
  processedTxs c ⊆ processedTxs (vars_then (advance p c)).
Proof.
  revert c.
  induction p as [a|e|h k IH|h k IH|k IH|v k IH|e k IH|X r k IH]; intros c; simpl;
    try reflexivity; try apply IH.
  - etransitivity; [apply (markProcessed_grows h)|apply IH].
  - apply (IH (setLastChecked v c)).
Qed.

Lemma run_grows {A} (o : oracle) (p : async A) c n :
  processedTxs c ⊆ processedTxs (vars (run o p c n)).
Proof.
  revert c n.
  induction p as [a|e|h k IH|h k IH|k IH|v k IH|e k IH|X r k IH]; intros c n; simpl;
    try reflexivity; try apply IH.
  - etransitivity; [apply (markProcessed_grows h)|apply IH].
  - apply (IH (setLastChecked v c)).
Qed.

Lemma resume_grows t i slot p m j :
  processedTxs (vars_of m j) ⊆ processedTxs (vars_of (resume t i slot p m) j)
  /\ length (instances (resume t i slot p m)) = length (instances m).
Proof.
  unfold resume, vars_of. simpl. split; [|apply length_insert].
  destruct (decide (i = j)) as [->|Hne].
  - destruct (instances m !! j) as [c|] eqn:Hj.
    + rewrite list_lookup_insert_eq by (eapply lookup_lt_Some; eauto).
      apply advance_grows.
    + rewrite list_insert_ge by (now apply lookup_ge_None). rewrite Hj. reflexivity.
  - rewrite list_lookup_insert_ne by assumption. reflexivity.
Qed.

Lemma spawn_grows t i p m j :
  processedTxs (vars_of m j) ⊆ processedTxs (vars_of (spawn t i p m) j)
  /\ length (instances (spawn t i p m)) = length (instances m).
Proof.
  unfold spawn.
  match goal with |- context [resume t i ?sl p ?m0] =>
    destruct (resume_grows t i sl p m0 j) as [H1 H2] end.
  split; [exact H1 | exact H2].
Qed.

Lemma fire_grows E env t j tm m i :
  (i < length (instances m))%nat ->
  processedTxs (vars_of m i) ⊆ processedTxs (vars_of (fire E env t j tm m) i)
  /\ (i < length (instances (fire E env t j tm m)))%nat.
Proof.
  intros Hi. unfold fire. destruct (cb tm) as [cap|cfg].
  - match goal with |- context [spawn t ?k ?p ?m1] =>
      destruct (spawn_grows t k p m1 i) as [Hs Hl] end.
    split; [exact Hs|]. rewrite Hl. exact Hi.
  - match goal with |- context [spawn t ?k ?p ?m1] =>
      destruct (spawn_grows t k p m1 i) as [Hs Hl] end.
    split.
    + etransitivity; [|exact Hs]. unfold vars_of, new_instance, set_timer. simpl.
      rewrite lookup_app_l by exact Hi. reflexivity.
    + rewrite Hl. unfold new_instance, set_timer. simpl. rewrite length_app. lia.
Qed.

Lemma step_grows E env m t s m' i :
  step E env m t s = Some m' ->
  (i < length (instances m))%nat ->
  processedTxs (vars_of m i) ⊆ processedTxs (vars_of m' i)
  /\ (i < length (instances m'))%nat.
Proof.
  unfold step. intros H Hi.
  destruct (punctual t m); [|discriminate].
  destruct s as [j|j a].
  - destruct (timers m !! j) as [[tm|]|]; try discriminate.
    destruct (due tm =? t); [|discriminate].
    injection H as <-. now apply fire_grows.
  - destruct (tasks m !! j) as [[[owner since X r k]|]|]; try discriminate.
    destruct (since + latency r <=? t); [|discriminate].
    destruct (decode r a) as [x|]; [|discriminate].
    injection H as <-.
    destruct (resume_grows t owner j (k x) m i) as [Hs Hl].
    split; [exact Hs|]. rewrite Hl. exact Hi.
Qed.

(** Along every schedule, an identifier in [processedTxs] of a monitor
    stays there. *)
Lemma play_grows E env schedule m m' i :
  play E env m schedule = Some m' ->
  (i < length (instances m))%nat ->
  processedTxs (vars_of m i) ⊆ processedTxs (vars_of m' i)
  /\ (i < length (instances m'))%nat.
Proof.
  revert m. induction schedule as [|[t s] rest IH]; intros m H Hi; simpl in H.
  - injection H as <-. split; [reflexivity|exact Hi].
  - destruct (step E env m t s) as [m1|] eqn:Hs; [|discriminate].
    destruct (step_grows E env m t s m1 i Hs Hi) as [H1 Hi1].
    destruct (IH m1 H Hi1) as [H2 Hi2].
    split; [etransitivity; eauto|exact Hi2].
Qed.

(** ** Calls of the closures, run to their end *)

Lemma entries_app a b : entries (a ++ b)%list = (entries a ++ entries b)%list.
Proof. unfold entries. now rewrite List.filter_app. Qed.

Lemma writes_app a b : writes (a ++ b)%list = (writes a ++ writes b)%list.
Proof. unfold writes. now rewrite List.filter_app. Qed.

(** [getTokenDetails] returns, whatever the chain answers, and touches no
    variable. *)
Lemma getTokenDetails_run E a (o : oracle) c n :
  exists d tr n',
    run o (getTokenDetails E a) c n = Ran (Returned d) c tr n'
    /\ entries tr = [EnterGetTokenDetails a] /\ writes tr = [].
Proof.
  unfold getTokenDetails. simpl.
  destruct (new_Contract E a WithProvider) as [[]|e]; simpl.
  - destruct (o n _ (PromiseAll (CallSymbol a) (PromiseAll (CallDecimals a) (CallName a))))
      as [s [d nm]]; simpl.
    do 3 eexists. split; [reflexivity|]. split; reflexivity.
  - do 3 eexists. split; [reflexivity|]. split; reflexivity.
Qed.

(** [transferToken] returns, whatever the chain answers, and touches no
    variable. *)
Lemma transferToken_run E cap a d (o : oracle) c n :
  exists b tr n',
    run o (transferToken E cap a d) c n = Ran (Returned b) c tr n'
    /\ entries tr = [EnterTransferToken a] /\ writes tr = [].
Proof.
  unfold transferToken. simpl.
  destruct (new_Contract E a WithWallet) as [[]|e0]; simpl;
    [|do 3 eexists; split; [reflexivity|]; split; reflexivity].
  destruct (o n _ (BalanceOf a (senderAddress cap))) as [balance|e1]; simpl;
    [|do 3 eexists; split; [reflexivity|]; split; reflexivity].
  destruct ((balance =? 0) || String.eqb (toString balance) "0"); simpl;
    [do 3 eexists; split; [reflexivity|]; split; reflexivity|].
  destruct (formatTokenAmount E balance (decimals d)) as [formatted|e2]; simpl;
    [|do 3 eexists; split; [reflexivity|]; split; reflexivity].
  destruct (o (S n) _ (Transfer a (recipient cap) balance)) as [tx|e3]; simpl;
    [|do 3 eexists; split; [reflexivity|]; split; reflexivity].
  destruct (o (S (S n)) _ (WaitTx (hash tx))) as [[]|e4]; simpl;
    do 3 eexists; (split; [reflexivity|]); split; reflexivity.
Qed.

(** ** handleIncomingTransfer *)

(** An entry whose identifier is in [processedTxs] is skipped in the
    synchronous part of the call: nothing is awaited, reported or
    changed. *)
Lemma handle_seen_advance E cap log c :
  transactionHash log ∈ processedTxs c ->
  advance (handleIncomingTransfer E cap log) c = Advanced (Finished tt) c [].
Proof.
  intros H. unfold handleIncomingTransfer. simpl.
  unfold hasProcessed. rewrite bool_decide_eq_true_2 by exact H. reflexivity.
Qed.

Lemma handle_seen_run E cap log (o : oracle) c n :
  transactionHash log ∈ processedTxs c ->
  run o (handleIncomingTransfer E cap log) c n = Ran (Returned tt) c [] n.
Proof.
  intros H. unfold handleIncomingTransfer. simpl.
  unfold hasProcessed. rewrite bool_decide_eq_true_2 by exact H. reflexivity.
Qed.

(** The identifier is in [processedTxs] when the call reaches its first
    [await] (or returns). *)
Lemma handle_marks_first E cap log c :
  transactionHash log ∈ processedTxs (vars_then (advance (handleIncomingTransfer E cap log) c)).
Proof.
  destruct (decide (transactionHash log ∈ processedTxs c)) as [Hin|Hout].
  - rewrite handle_seen_advance by exact Hin. exact Hin.
  - unfold handleIncomingTransfer. simpl.
    unfold hasProcessed. rewrite bool_decide_eq_false_2 by exact Hout. simpl.
    eapply advance_grows. unfold markProcessed. simpl. set_solver.
Qed.

(** A call for a new identifier, run to its end: the identifier is
    marked, then the details are resolved, then the token is swept, once. *)
Lemma handle_unseen_run E cap log (o : oracle) c n :
  transactionHash log ∉ processedTxs c ->
  let token := Js.toLowerCase (address log) in
  exists tr n',
    run o (handleIncomingTransfer E cap log) c n
    = Ran (Returned tt) (markProcessed (transactionHash log) c) tr n'
    /\ entries tr = [EnterGetTokenDetails token; EnterTransferToken token]
    /\ writes tr = [Marked (transactionHash log)].
Proof.
  intros Hout token. unfold handleIncomingTransfer. fold token.
  cbn -[getTokenDetails transferToken].
  unfold hasProcessed. rewrite bool_decide_eq_false_2 by exact Hout.
  cbn -[getTokenDetails transferToken].
  rewrite run_bind.
  destruct (getTokenDetails_run E token o (markProcessed (transactionHash log) c) n)
    as (d & tr1 & n1 & -> & He1 & Hw1).
  unfold and_then. cbn -[getTokenDetails transferToken].
  rewrite run_bind.
  destruct (transferToken_run E cap token d o (markProcessed (transactionHash log) c) (S n1))
    as (b & tr2 & n2 & -> & He2 & Hw2).
  unfold and_then, logged. cbn -[getTokenDetails transferToken].
  do 2 eexists. split; [reflexivity|].
  rewrite app_nil_r.
  change (Marked (transactionHash log) :: tr1 ++ LogIncomingTransfer log d token
              :: Issued (RSleep 60000) :: tr2)%list
    with ([Marked (transactionHash log)] ++ tr1
              ++ [LogIncomingTransfer log d token; Issued (RSleep 60000)] ++ tr2)%list.
  rewrite !entries_app, !writes_app, He1, He2, Hw1, Hw2. split; reflexivity.
Qed.

(** ** Sweeps on every path *)

Lemma at_most_weaken {A} (p : async A) n m :
  (n <= m)%nat -> at_most n p -> at_most m p.
Proof.
  revert n m.
  induction p as [a|e|h k IH|h k IH|k IH|v k IH|e k IH|X r k IH]; intros n m Hle; simpl; auto.
  - intros H b. eapply IH; eauto.
  - apply IH; exact Hle.
  - intros H v. eapply IH; eauto.
  - apply IH; exact Hle.
  - destruct (isSweep e).
    + destruct n as [|n']; [contradiction|].
      destruct m as [|m']; [lia|]. apply IH. lia.
    + apply IH; exact Hle.
  - intros H x. eapply IH; eauto.
Qed.

Lemma at_most_bind {A B} (p : async A) (f : A -> async B) a b :
  at_most a p -> (forall x, at_most b (f x)) -> at_most (a + b) (bind p f).
Proof.
  revert a.
  induction p as [x|e|h k IH|h k IH|k IH|v k IH|e k IH|X r k IH]; intros a Hp Hf; simpl in *; auto.
  - apply (at_most_weaken (f x) b); [lia|apply Hf].
  - destruct (isSweep e).
    + destruct a as [|a']; [contradiction|]. simpl. apply IH; assumption.
    + apply IH; assumption.
Qed.

Lemma at_most_try_catch {A} (p : async A) (h : JsError -> async A) a b :
  at_most a p -> (forall e, at_most b (h e)) -> at_most (a + b) (try_catch p h).
Proof.
  revert a.
  induction p as [x|e|t k IH|t k IH|k IH|v k IH|e k IH|X r k IH]; intros a Hp Hh; simpl in *; auto.
  - apply (at_most_weaken (h e) b); [lia|apply Hh].
  - destruct (isSweep e).
    + destruct a as [|a']; [contradiction|]. simpl. apply IH; assumption.
    + apply IH; assumption.
Qed.

Lemma at_most_getTokenDetails E a : at_most 0 (getTokenDetails E a).
Proof.
  unfold getTokenDetails. simpl.
  destruct (new_Contract E a WithProvider) as [[]|e]; simpl; [|exact I].
  intros [s [d nm]]. exact I.
Qed.

Lemma at_most_transferToken E cap a d : at_most 1 (transferToken E cap a d).
Proof.
  unfold transferToken. simpl.
  destruct (new_Contract E a WithWallet) as [[]|e0]; simpl; [|exact I].
  intros [balance|e1]; simpl; [|exact I].
  destruct ((balance =? 0) || String.eqb (toString balance) "0"); simpl; [exact I|].
  destruct (formatTokenAmount E balance (decimals d)) as [formatted|e2]; simpl; [|exact I].
  intros [tx|e3]; simpl; [|exact I].
  intros [[]|e4]; simpl; exact I.
Qed.

(** On every path, one call of the handler sweeps at most once. *)
Lemma at_most_handleIncomingTransfer E cap log :
  at_most 1 (handleIncomingTransfer E cap log).
Proof.
  unfold handleIncomingTransfer. cbn -[getTokenDetails transferToken].
  intros [|]; [exact I|]. cbn -[getTokenDetails transferToken].
  apply (at_most_bind _ _ 0 1); [apply at_most_getTokenDetails|].
  intros d. cbn -[getTokenDetails transferToken]. intros [].
  apply (at_most_bind _ _ 1 0); [apply at_most_transferToken|].
  intros b. exact I.
Qed.

(** A segment spends part of the bound; the rest holds for what follows
    the [await]. *)
Lemma advance_at_most {A} (p : async A) n c :
  at_most n p ->
  (sweeps (emitted (advance p c)) <= n)%nat
  /\ match at_await (advance p c) with
     | Blocked r k => forall x, at_most (n - sweeps (emitted (advance p c))) (k x)
     | _ => True
     end.
Proof.
  revert n c.
  induction p as [a|e|h k IH|h k IH|k IH|v k IH|e k IH|X r k IH]; intros n c Hp; simpl in *.
  - split; [unfold sweeps; simpl; lia|exact I].
  - split; [unfold sweeps; simpl; lia|exact I].
  - apply IH, Hp.
  - destruct (IH n (markProcessed h c) Hp) as [H1 H2]. split; [exact H1|exact H2].
  - apply IH, Hp.
  - destruct (IH n (setLastChecked v c) Hp) as [H1 H2]. split; [exact H1|exact H2].
  - destruct (isSweep e) eqn:He.
    + destruct n as [|n']; [contradiction|].
      destruct (IH n' c Hp) as [H1 H2]. unfold sweeps in *. simpl. rewrite He. simpl.
      split; [lia|].
      destruct (at_await (advance k c)); auto.
    + destruct (IH n c Hp) as [H1 H2]. unfold sweeps in *. simpl. rewrite He.
      split; [exact H1|exact H2].
  - split; [unfold sweeps; simpl; lia|].
    intros x. unfold sweeps. simpl. rewrite Nat.sub_0_r. apply Hp.
Qed.

Lemma sweeps_of_app j a b : sweeps_of j (a ++ b)%list = (sweeps_of j a + sweeps_of j b)%nat.
Proof. unfold sweeps_of. now rewrite List.filter_app, length_app. Qed.

Lemma sweeps_of_own t j evs :
  sweeps_of j (map (fun e => (t, j, e)) evs) = sweeps evs.
Proof.
  unfold sweeps_of, sweeps. induction evs as [|e evs IH]; [reflexivity|].
  simpl. rewrite Nat.eqb_refl. simpl. destruct (isSweep e); simpl; now rewrite IH.
Qed.

Lemma sweeps_of_other t j k evs :
  k <> j -> sweeps_of j (map (fun e => (t, k, e)) evs) = 0%nat.
Proof.
  intros Hne. unfold sweeps_of. induction evs as [|e evs IH]; [reflexivity|].
  simpl. rewrite (proj2 (Nat.eqb_neq k j) Hne). simpl. exact IH.
Qed.

(** Resuming the call of slot [j] within its budget. *)
Lemma resume_own_budget t i j p m b :
  (j < length (tasks m))%nat ->
  at_most b p ->
  exists new b',
    history (resume t i j p m) = (history m ++ new)%list
    /\ (sweeps_of j new + b' <= b)%nat
    /\ budget j b' (resume t i j p m)
    /\ (j < length (tasks (resume t i j p m)))%nat.
Proof.
  intros Hj Hp. unfold resume. cbn [history tasks].
  destruct (advance_at_most p b (vars_of m i) Hp) as [H1 H2].
  exists (map (fun e => (t, j, e)) (emitted (advance p (vars_of m i)))),
         (b - sweeps (emitted (advance p (vars_of m i))))%nat.
  split; [reflexivity|]. rewrite sweeps_of_own. split; [lia|]. split.
  - unfold budget. cbn [tasks]. rewrite list_lookup_insert_eq by exact Hj.
    destruct (at_await (advance p (vars_of m i))); auto.
  - rewrite length_insert. exact Hj.
Qed.

(** Resuming or starting a call in another slot leaves the budget of slot
    [j] as it is. *)
Lemma resume_other_budget t i k p m j b :
  k <> j ->
  (j < length (tasks m))%nat ->
  budget j b m ->
  exists new,
    history (resume t i k p m) = (history m ++ new)%list
    /\ sweeps_of j new = 0%nat
    /\ budget j b (resume t i k p m)
    /\ (j < length (tasks (resume t i k p m)))%nat.
Proof.
  intros Hne Hj Hb. unfold resume. cbn [history tasks].
  eexists. split; [reflexivity|]. split; [now apply sweeps_of_other|]. split.
  - unfold budget in *. cbn [tasks]. rewrite list_lookup_insert_ne by exact Hne. exact Hb.
  - rewrite length_insert. exact Hj.
Qed.

Lemma spawn_other_budget t i p m j b :
  (j < length (tasks m))%nat ->
  budget j b m ->
  exists new,
    history (spawn t i p m) = (history m ++ new)%list
    /\ sweeps_of j new = 0%nat
    /\ budget j b (spawn t i p m)
    /\ (j < length (tasks (spawn t i p m)))%nat.
Proof.
  intros Hj Hb. unfold spawn.
  match goal with |- context [resume t i ?k p ?m0] =>
    destruct (resume_other_budget t i k p m0 j b) as (new & H1 & H2 & H3 & H4) end.
  - lia.
  - cbn [tasks]. rewrite length_app. lia.
  - unfold budget in *. cbn [tasks]. rewrite lookup_app_l by exact Hj. exact Hb.
  - exists new. auto.
Qed.

Lemma step_budget E env m t s m' j b :
  step E env m t s = Some m' ->
  (j < length (tasks m))%nat ->
  budget j b m ->
  exists new b',
    history m' = (history m ++ new)%list
    /\ (sweeps_of j new + b' <= b)%nat
    /\ budget j b' m'
    /\ (j < length (tasks m'))%nat.
Proof.
  unfold step. intros H Hj Hb.
  destruct (punctual t m); [|discriminate].
  destruct s as [k|k a].
  - destruct (timers m !! k) as [[tm|]|]; try discriminate.
    destruct (due tm =? t); [|discriminate].
    injection H as <-. unfold fire.
    destruct (cb tm) as [cap|cfg].
    + match goal with |- context [spawn t ?i ?p ?m0] =>
        destruct (spawn_other_budget t i p m0 j b Hj Hb) as (new & H1 & H2 & H3 & H4) end.
      exists new, b. repeat split; auto. lia.
    + match goal with |- context [spawn t ?i ?p ?m0] =>
        destruct (spawn_other_budget t i p m0 j b Hj Hb) as (new & H1 & H2 & H3 & H4) end.
      exists new, b. repeat split; auto. lia.
  - destruct (tasks m !! k) as [[[owner since X r kont]|]|] eqn:Hk; try discriminate.
    destruct (since + latency r <=? t); [|discriminate].
    destruct (decode r a) as [x|]; [|discriminate].
    injection H as <-.
    destruct (decide (k = j)) as [->|Hne].
    + unfold budget in Hb. rewrite Hk in Hb.
      apply (resume_own_budget t owner j (kont x) m b Hj (Hb x)).
    + destruct (resume_other_budget t owner k (kont x) m j b Hne Hj Hb)
        as (new & H1 & H2 & H3 & H4).
      exists new, b. repeat split; auto. lia.
Qed.

(** Along every schedule the call of slot [j] stays within its budget. *)
Lemma play_budget E env schedule m m' j b :
  play E env m schedule = Some m' ->
  (j < length (tasks m))%nat ->
  budget j b m ->
  exists new, history m' = (history m ++ new)%list /\ (sweeps_of j new <= b)%nat.
Proof.
  revert m b. induction schedule as [|[t s] rest IH]; intros m b H Hj Hb; simpl in H.
  - injection H as <-. exists []. rewrite app_nil_r. split; [reflexivity|].
    unfold sweeps_of. simpl. lia.
  - destruct (step E env m t s) as [m1|] eqn:Hs; [|discriminate].
    destruct (step_budget E env m t s m1 j b Hs Hj Hb) as (new1 & b1 & H1 & H2 & H3 & H4).
    destruct (IH m1 b1 H H4 H3) as (new2 & H5 & H6).
    exists (new1 ++ new2)%list. rewrite H5, H1, <- app_assoc. split; [reflexivity|].
    rewrite sweeps_of_app. lia.
Qed.

Lemma sweeps_entries tr : sweeps tr = sweeps (entries tr).
Proof.
  unfold sweeps, entries. induction tr as [|e tr IH]; [reflexivity|].
  destruct e; simpl; auto.
Qed.

(** One call of the handler, run to its end: it returns, the identifier
    is in [processedTxs] afterwards, and [transferToken] was called at most
    once, for the token of the entry. *)
Lemma handle_run E cap log (o : oracle) c n :
  let token := Js.toLowerCase (address log) in
  exists c1 tr n1,
    run o (handleIncomingTransfer E cap log) c n = Ran (Returned tt) c1 tr n1
    /\ transactionHash log ∈ processedTxs c1
    /\ (sweeps tr <= 1)%nat
    /\ (transactionHash log ∉ processedTxs c ->
        entries tr = [EnterGetTokenDetails token; EnterTransferToken token]).
Proof.
  intros token.
  destruct (decide (transactionHash log ∈ processedTxs c)) as [Hin|Hout].
  - exists c, [], n. rewrite handle_seen_run by exact Hin.
    repeat split; auto. contradiction.
  - destruct (handle_unseen_run E cap log o c n Hout) as (tr & n1 & Hr & He & Hw).
    exists (markProcessed (transactionHash log) c), tr, n1.
    split; [exact Hr|]. split; [unfold markProcessed; simpl; set_solver|].
    split; [|intros _; exact He].
    rewrite sweeps_entries, He. unfold sweeps. simpl. lia.
Qed.

(** Spawning the handler for an identifier already in [processedTxs]
    leaves the machine as it was, but for the clock and a finished task. *)
Lemma spawn_seen E cap log m i t :
  (i < length (instances m))%nat ->
  transactionHash log ∈ processedTxs (vars_of m i) ->
  spawn t i (handleIncomingTransfer E cap log) m
  = {| now := t; instances := instances m; tasks := (tasks m ++ [None])%list;
       timers := timers m; history := history m |}.
Proof.
  intros Hi Hin. unfold spawn, resume.
  match goal with |- context [advance ?p (vars_of ?m0 i)] =>
    change (vars_of m0 i) with (vars_of m i) end.
  rewrite (handle_seen_advance E cap log (vars_of m i) Hin).
  cbn [at_await vars_then emitted now instances tasks timers history map timers_of List.filter].
  rewrite !app_nil_r. f_equal.
  - apply list_insert_id. unfold vars_of.
    destruct (instances m !! i) as [c2|] eqn:Hl2; [reflexivity|].
    apply lookup_ge_None in Hl2. lia.
  - apply list_insert_id. rewrite lookup_app_r by lia.
    now rewrite Nat.sub_diag.
Qed.

(** C2: a call of [handleIncomingTransfer] has the transaction id in
    [processedTxs] by the time it reaches its first [await]. Whatever the
    event loop does afterwards, in any order and with any answers, that
    call calls [transferToken] at most once, and a second call for an entry
    with the same [transactionHash] returns at once: it sends nothing,
    reports nothing, changes nothing and leaves no suspended call, so it
    neither resolves token details nor sweeps. The two calls together
    sweep at most once. *)
Theorem handleIncomingTransfer_twice E env cap log1 log2 m i t1 schedule m2 t2 :
  transactionHash log1 = transactionHash log2 ->
  (i < length (instances m))%nat ->
  play E env (spawn t1 i (handleIncomingTransfer E cap log1) m) schedule = Some m2 ->
  let m1 := spawn t1 i (handleIncomingTransfer E cap log1) m in
  let m3 := spawn t2 i (handleIncomingTransfer E cap log2) m2 in
  let first := length (tasks m) in
  transactionHash log1 ∈ processedTxs (vars_of m1 i)
  /\ (exists new, history m2 = (history m ++ new)%list /\ (sweeps_of first new <= 1)%nat)
  /\ history m3 = history m2
  /\ instances m3 = instances m2
  /\ timers m3 = timers m2
  /\ tasks m3 = (tasks m2 ++ [None])%list.
Proof.
  intros Hsame Hi Hplay m1 m3 first.
  assert (Hm1 : transactionHash log1 ∈ processedTxs (vars_of m1 i)).
  { subst m1. unfold spawn, resume, vars_of. simpl.
    rewrite list_lookup_insert_eq by exact Hi.
    destruct (instances m !! i); apply handle_marks_first. }
  assert (Hi1 : (i < length (instances m1))%nat).
  { subst m1. destruct (spawn_grows t1 i (handleIncomingTransfer E cap log1) m i) as [_ ->].
    exact Hi. }
  destruct (play_grows E env schedule m1 m2 i Hplay Hi1) as [Hsub Hi2].
  assert (Hm2 : transactionHash log2 ∈ processedTxs (vars_of m2 i)).
  { rewrite <- Hsame. set_solver. }
  split; [exact Hm1|]. split.
  { assert (Hfirst : (first < length (tasks m ++ [None]))%nat)
      by (subst first; rewrite length_app; simpl; lia).
    destruct (resume_own_budget t1 i first (handleIncomingTransfer E cap log1)
                {| now := now m; instances := instances m; tasks := (tasks m ++ [None])%list;
                   timers := timers m; history := history m |} 1 Hfirst
                (at_most_handleIncomingTransfer E cap log1))
      as (new1 & b1 & H1 & H2 & H3 & H4).
    assert (H1' : history m1 = (history m ++ new1)%list) by exact H1.
    assert (H3' : budget first b1 m1) by exact H3.
    assert (H4' : (first < length (tasks m1))%nat) by exact H4.
    destruct (play_budget E env schedule m1 m2 first b1 Hplay H4' H3') as (new2 & H5 & H6).
    exists (new1 ++ new2)%list. rewrite H5, H1'. rewrite <- app_assoc.
    split; [reflexivity|]. rewrite sweeps_of_app. lia. }
  subst m3. rewrite (spawn_seen E cap log2 m2 i t2 Hi2 Hm2). cbn [history instances timers tasks].
  repeat split; reflexivity.
Qed.

(** Two calls for the same entry: the first is started at 15.3 s and its
    details arrive at 15.4 s; the second, started at 30.3 s while the first
    sleeps, adds nothing to the history. *)
Lemma handleIncomingTransfer_twice_witness :
  match play ethersOk processEnv
          (spawn 15300 0 (handleIncomingTransfer ethersOk wallet entryDai) idle)
          [(15400, Settle 0 daiAnswer)] with
  | Some m2 =>
      history (spawn 30300 0 (handleIncomingTransfer ethersOk wallet entryDai) m2) = history m2
  | None => False
  end.
Proof.
  assert (Hsome : option_map (fun _ => tt)
                    (play ethersOk processEnv
                       (spawn 15300 0 (handleIncomingTransfer ethersOk wallet entryDai) idle)
                       [(15400, Settle 0 daiAnswer)]) = Some tt) by (vm_compute; reflexivity).
  destruct (play ethersOk processEnv
              (spawn 15300 0 (handleIncomingTransfer ethersOk wallet entryDai) idle)
              [(15400, Settle 0 daiAnswer)]) as [m2|] eqn:Hplay; [|discriminate].
  assert (Hi : (0 < length (instances idle))%nat) by (simpl; lia).
  exact (proj1 (proj2 (proj2
    (handleIncomingTransfer_twice ethersOk processEnv wallet entryDai entryDai
       idle 0%nat 15300 [(15400, Settle 0 daiAnswer)] m2 30300 eq_refl Hi Hplay)))).
Defined.

(** C10: [processedTxs] holds transaction hashes and nothing else. Of two
    entries of one batch with the same [transactionHash] and different
    token contracts the second is skipped entirely: the batch runs exactly
    as the first entry alone, so only the first entry's token is resolved
    and swept. And once a hash is in [processedTxs] of a monitor it stays
    there under every schedule of the event loop, so every later entry with
    that hash is skipped whatever token it names. *)
Theorem one_token_per_transaction E cap log1 log2 (o : oracle) c n :
  transactionHash log1 = transactionHash log2 ->
  address log1 <> address log2 ->
  let handle := handleIncomingTransfer E cap in
  let batch := for_each [log1; log2] handle in
  let token1 := Js.toLowerCase (address log1) in
  run o batch c n = run o (for_each [log1] handle) c n
  /\ (sweeps (trace (run o batch c n)) <= 1)%nat
  /\ (transactionHash log1 ∉ processedTxs c ->
      entries (trace (run o batch c n))
      = [EnterGetTokenDetails token1; EnterTransferToken token1])
  /\ (forall env m i schedule m',
        (i < length (instances m))%nat ->
        transactionHash log1 ∈ processedTxs (vars_of m i) ->
        play E env m schedule = Some m' ->
        advance (handle log2) (vars_of m' i) = Advanced (Finished tt) (vars_of m' i) []).
Proof.
  intros Hsame Hdiff handle batch token1.
  assert (Hbatch : run o batch c n = run o (for_each [log1] handle) c n
                   /\ exists c1 tr n1, run o batch c n = Ran (Returned tt) c1 tr n1
                        /\ (sweeps tr <= 1)%nat
                        /\ (transactionHash log1 ∉ processedTxs c ->
                            entries tr = [EnterGetTokenDetails token1; EnterTransferToken token1])).
  { subst batch handle. cbn [for_each]. rewrite !run_bind.
    destruct (handle_run E cap log1 o c n) as (c1 & tr & n1 & -> & Hin & Hs & He).
    unfold and_then at 1 3. cbn [res vars trace awaited].
    rewrite run_bind, handle_seen_run by (rewrite <- Hsame; exact Hin).
    unfold and_then. cbn [res vars trace awaited run]. rewrite !app_nil_r.
    split; [reflexivity|]. exists c1, tr, n1. auto. }
  destruct Hbatch as [Heq (c1 & tr & n1 & Hr & Hs & He)].
  split; [exact Heq|]. rewrite Hr. cbn [trace].
  split; [exact Hs|]. split; [exact He|].
  intros env m i schedule m' Hi Hin Hplay.
  apply handle_seen_advance. rewrite <- Hsame.
  destruct (play_grows E env schedule m m' i Hplay Hi) as [Hsub _]. set_solver.
Qed.

Lemma one_token_per_transaction_witness :
  entries (trace (run (scripted [APair (AString "DAI") (APair (ANumber 18) (AString "Dai"));
                                 ADone; ANumber 5; ATx {| hash := "0xsweep" |}; ADone])
                      (for_each [entryDai; entryUsdt] (handleIncomingTransfer ethersOk wallet))
                      atBlock10 0))
  = [EnterGetTokenDetails dai; EnterTransferToken dai].
Proof.
  apply (proj1 (proj2 (proj2
    (one_token_per_transaction ethersOk wallet entryDai entryUsdt
       (scripted [APair (AString "DAI") (APair (ANumber 18) (AString "Dai"));
                  ADone; ANumber 5; ATx {| hash := "0xsweep" |}; ADone])
       atBlock10 0 eq_refl ltac:(discriminate))))).
  vm_compute. set_solver.
Defined.

(** ** Ticks that do not overlap *)

(** A batch of entries handled to its end leaves [lastCheckedBlock]
    alone. *)
Lemma batch_run E cap logs (o : oracle) c n :
  exists c1 tr n1,
    run o (for_each logs (handleIncomingTransfer E cap)) c n = Ran (Returned tt) c1 tr n1
    /\ lastCheckedBlock c1 = lastCheckedBlock c
    /\ (forall v, ~ In (Assigned v) tr).
Proof.
  revert c n. induction logs as [|log rest IH]; intros c n.
  - exists c, [], n. repeat split. intros v [].
  - cbn [for_each]. rewrite run_bind.
    destruct (decide (transactionHash log ∈ processedTxs c)) as [Hin|Hout].
    + rewrite handle_seen_run by exact Hin. unfold and_then. cbn [res vars trace awaited].
      destruct (IH c n) as (c1 & tr & n1 & -> & Hl & Ha).
      exists c1, tr, n1. repeat split; auto.
    + destruct (handle_unseen_run E cap log o c n Hout) as (tr0 & n0 & -> & _ & Hw).
      unfold and_then. cbn [res vars trace awaited].
      destruct (IH (markProcessed (transactionHash log) c) n0) as (c1 & tr & n1 & -> & Hl & Ha).
      exists c1, (tr0 ++ tr)%list, n1. repeat split; auto.
      intros v Hv. apply in_app_or in Hv as [Hv|Hv]; [|now apply (Ha v)].
      assert (Hf : In (Assigned v) (writes tr0)).
      { unfold writes. apply filter_In. split; [exact Hv|reflexivity]. }
      rewrite Hw in Hf. destruct Hf as [Hf|[]]. discriminate.
Qed.

(** Closes the cases of a tick that assigns nothing. *)
Ltac no_assignment :=
  split; [reflexivity|]; split; [lia|];
  let v := fresh "v" in let Hv := fresh "Hv" in
  intros v Hv; cbn in Hv;
  repeat (destruct Hv as [Hv|Hv]; [discriminate|]); contradiction.

(** A tick that runs to its end with no other call in between never
    lowers [lastCheckedBlock], and assigns it, if at all, as its last
    action, after every entry of its batch has been handled. *)
Lemma pollingCallback_alone_advances E cap (o : oracle) c n :
  let r := run o (pollingCallback E cap) c n in
  res r = Returned tt
  /\ lastCheckedBlock c <= lastCheckedBlock (vars r)
  /\ (forall v, In (Assigned v) (trace r) ->
        lastCheckedBlock c < v /\ lastCheckedBlock (vars r) = v
        /\ exists tr, trace r = (tr ++ [Assigned v])%list /\ forall w, ~ In (Assigned w) tr).
Proof.
  unfold pollingCallback. cbn -[handleIncomingTransfer].
  destruct (o n _ GetBlockNumber) as [h|e]; cbn -[handleIncomingTransfer].
  2:{ no_assignment. }
  destruct (Z.gtb_spec h (lastCheckedBlock c)) as [Hgt|Hle]; cbn -[handleIncomingTransfer].
  2:{ no_assignment. }
  destruct (zeroPadValue E (senderAddress cap) 32) as [topic|e]; cbn -[handleIncomingTransfer].
  2:{ no_assignment. }
  match goal with |- context [o (S n) ?X ?q] => destruct (o (S n) X q) as [logs|e] end;
    cbn -[handleIncomingTransfer].
  2:{ no_assignment. }
  rewrite run_try_catch, run_bind.
  destruct (batch_run E cap logs o c (S (S n))) as (c1 & tr & n1 & -> & Hl & Ha).
  unfold or_else, and_then, logged. cbn -[handleIncomingTransfer].
  split; [reflexivity|]. split; [lia|].
  intros v [Hv|[Hv|Hv]]; try discriminate.
  apply in_app_or in Hv as [Hv|[Hv|[]]]; [exfalso; now apply (Ha v)|].
  injection Hv as <-. split; [lia|]. split; [reflexivity|].
  eexists (_ :: _ :: tr). split; [reflexivity|].
  intros w [Hw|[Hw|Hw]]; try discriminate. now apply (Ha w).
Qed.

(** ** Ticks that overlap *)

(** C4, evaluated on a run with overlapping ticks: the tick that read
    height 12 assigns 12 to [lastCheckedBlock] at 30.3 s, while the entry of
    block 11 found by the earlier tick is still in its 60-second delay and
    is swept only from 75.4 s on; the later ticks move the checkpoint to 16;
    the earlier tick then assigns its own height, 11, at 80 s, so the
    checkpoint goes from 16 back to 11, and the tick of 90.1 s polls blocks
    12 to 17, of which 12 to 16 had been polled and passed. *)
Theorem overlapping_ticks_move_checkpoint_back :
  exists m,
    play ethersOk processEnv (boot ethersOk processEnv ethereum) overlappingTicks = Some m
    /\ checkpoints (history m)
       = [(100, 0%nat, Assigned 10); (30300, 2%nat, Assigned 12); (45300, 3%nat, Assigned 14);
          (60300, 4%nat, Assigned 15); (75300, 5%nat, Assigned 16); (80000, 1%nat, Assigned 11)]
    /\ logQueries (history m)
       = [(15200, 1%nat, Issued (RGetLogs 11 11 walletTopics));
          (30200, 2%nat, Issued (RGetLogs 11 12 walletTopics));
          (45200, 3%nat, Issued (RGetLogs 13 14 walletTopics));
          (60200, 4%nat, Issued (RGetLogs 15 15 walletTopics));
          (75200, 5%nat, Issued (RGetLogs 16 16 walletTopics));
          (90200, 6%nat, Issued (RGetLogs 12 17 walletTopics))]
    /\ precedes (30300, 2%nat, Assigned 12) (75400, 1%nat, EnterTransferToken dai) (history m)
    /\ lastCheckedBlock (vars_of m 0) = 11
    /\ ~ nonDecreasing (history m).
Proof.
  set (final := play ethersOk processEnv (boot ethersOk processEnv ethereum) overlappingTicks).
  assert (H1 : option_map (fun m => checkpoints (history m)) final
               = Some [(100, 0%nat, Assigned 10); (30300, 2%nat, Assigned 12);
                       (45300, 3%nat, Assigned 14); (60300, 4%nat, Assigned 15);
                       (75300, 5%nat, Assigned 16); (80000, 1%nat, Assigned 11)])
    by (vm_compute; reflexivity).
  assert (H2 : option_map (fun m => logQueries (history m)) final
               = Some [(15200, 1%nat, Issued (RGetLogs 11 11 walletTopics));
                       (30200, 2%nat, Issued (RGetLogs 11 12 walletTopics));
                       (45200, 3%nat, Issued (RGetLogs 13 14 walletTopics));
                       (60200, 4%nat, Issued (RGetLogs 15 15 walletTopics));
                       (75200, 5%nat, Issued (RGetLogs 16 16 walletTopics));
                       (90200, 6%nat, Issued (RGetLogs 12 17 walletTopics))])
    by (vm_compute; reflexivity).
  assert (H3 : option_map (fun m => nth_error (history m) 15) final
               = Some (Some (30300, 2%nat, Assigned 12))) by (vm_compute; reflexivity).
  assert (H4 : option_map (fun m => nth_error (history m) 25) final
               = Some (Some (75400, 1%nat, EnterTransferToken dai))) by (vm_compute; reflexivity).
  assert (H5 : option_map (fun m => nth_error (history m) 24) final
               = Some (Some (75300, 5%nat, Assigned 16))) by (vm_compute; reflexivity).
  assert (H6 : option_map (fun m => nth_error (history m) 32) final
               = Some (Some (80000, 1%nat, Assigned 11))) by (vm_compute; reflexivity).
  assert (H7 : option_map (fun m => lastCheckedBlock (vars_of m 0)) final = Some 11)
    by (vm_compute; reflexivity).
  clearbody final. destruct final as [m|]; [|discriminate].
  cbn [option_map] in *.
  injection H1 as H1. injection H2 as H2. injection H3 as H3. injection H4 as H4.
  injection H5 as H5. injection H6 as H6. injection H7 as H7.
  exists m. split; [reflexivity|]. split; [exact H1|]. split; [exact H2|].
  split; [exists 15%nat, 25%nat; split; [lia|]; split; assumption|].
  split; [exact H7|].
  intros Hmono.
  assert (H : 16 <= 11); [|lia].
  apply (Hmono 75300 5%nat 16 80000 1%nat 11).
  exists 24%nat, 32%nat. split; [lia|]. split; assumption.
Qed.

(** ** The custom-token pass *)

(** The loop of the pass: each token's details are resolved, then the
    token is swept, in list order; the loop returns and changes no
    variable of the monitor. *)
Lemma pass_loop_run E cap tokens (o : oracle) c n :
  exists tr n',
    run o (for_each tokens (fun tokenAddress =>
             tokenDetails <- getTokenDetails E tokenAddress ;;
             transferToken E cap tokenAddress tokenDetails ;; Ret tt)) c n
    = Ran (Returned tt) c tr n'
    /\ entries tr = flat_map (fun t => [EnterGetTokenDetails t; EnterTransferToken t]) tokens
    /\ writes tr = [].
Proof.
  revert n. induction tokens as [|t rest IH]; intros n.
  - exists [], n. repeat split.
  - cbn [for_each flat_map]. rewrite !run_bind.
    destruct (getTokenDetails_run E t o c n) as (d & tr1 & n1 & -> & He1 & Hw1).
    unfold and_then at 2. cbn [res vars trace awaited].
    rewrite run_bind.
    destruct (transferToken_run E cap t d o c n1) as (b & tr2 & n2 & -> & He2 & Hw2).
    unfold and_then at 2. cbn [res vars trace awaited run].
    unfold and_then. cbn [res vars trace awaited].
    destruct (IH n2) as (tr & n' & -> & He & Hw).
    cbn [res vars trace awaited]. rewrite app_nil_r.
    do 2 eexists. split; [reflexivity|].
    rewrite !entries_app, !writes_app, He1, He2, He, Hw1, Hw2, Hw. split; reflexivity.
Qed.

Lemma customTokenPass_run E cap tokens (o : oracle) c n :
  exists tr n',
    run o (customTokenPass E cap tokens) c n = Ran (Returned tt) c tr n'
    /\ entries tr = flat_map (fun t => [EnterGetTokenDetails t; EnterTransferToken t]) tokens
    /\ writes tr = []
    /\ (tokens <> [] -> exists pass, tr = LogCheckingCustomTokens :: pass).
Proof.
  unfold customTokenPass. destruct tokens as [|t rest].
  - exists [], n. repeat split. congruence.
  - change (0 <? length (t :: rest))%nat with true. cbv iota.
    rewrite run_bind. unfold say. cbn [run and_then logged res vars trace awaited].
    destruct (pass_loop_run E cap (t :: rest) o c n) as (tr & n' & -> & He & Hw).
    cbn [res vars trace awaited app].
    do 2 eexists. split; [reflexivity|]. split; [exact He|]. split; [exact Hw|].
    intros _. eexists. reflexivity.
Qed.

(** A timer that is due fires whatever calls are suspended: nothing in
    the event loop holds a tick back until the pass has ended. *)
Lemma fire_never_waits E env m t j tm :
  punctual t m = true ->
  timers m !! j = Some (Some tm) ->
  due tm = t ->
  step E env m t (Fire j) = Some (fire E env t j tm m).
Proof.
  intros Hp Hj Hd. unfold step. rewrite Hp, Hj.
  rewrite (proj2 (Z.eqb_eq _ _) Hd). reflexivity.
Qed.

(** C8, as stated, fails: with two custom tokens whose sweeps take 12 s
    each to confirm, the timer registered at 0.1 s fires at 15.1 s; its
    tick marks and starts handling a transfer at 15.3 s, and the pass, which
    is task 0, ends at 24.7 s. *)
Lemma tick_handles_log_during_pass :
  exists m,
    play ethersOk envTwoTokens (boot ethersOk envTwoTokens ethereum) tickDuringPass = Some m
    /\ customTokenAddresses (CUSTOM_TOKENS envTwoTokens) = [dai; usdt]
    /\ precedes (12500, 0%nat, EnterTransferToken usdt) (15300, 1%nat, Marked "0xabc1") (history m)
    /\ precedes (15300, 1%nat, EnterGetTokenDetails dai) (24700, 0%nat, LogTxHash "0xsweep2")
         (history m)
    /\ ~ passBeforePolling (history m).
Proof.
  set (final := play ethersOk envTwoTokens (boot ethersOk envTwoTokens ethereum) tickDuringPass).
  assert (H1 : option_map (fun m => nth_error (history m) 18) final
               = Some (Some (12500, 0%nat, EnterTransferToken usdt))) by (vm_compute; reflexivity).
  assert (H2 : option_map (fun m => nth_error (history m) 25) final
               = Some (Some (15300, 1%nat, Marked "0xabc1"))) by (vm_compute; reflexivity).
  assert (H3 : option_map (fun m => nth_error (history m) 26) final
               = Some (Some (15300, 1%nat, EnterGetTokenDetails dai))) by (vm_compute; reflexivity).
  assert (H4 : option_map (fun m => nth_error (history m) 29) final
               = Some (Some (24700, 0%nat, LogTxHash "0xsweep2"))) by (vm_compute; reflexivity).
  clearbody final. destruct final as [m|]; [|discriminate].
  cbn [option_map] in *.
  injection H1 as H1. injection H2 as H2. injection H3 as H3. injection H4 as H4.
  exists m. split; [reflexivity|].
  split; [vm_compute; reflexivity|].
  split; [exists 18%nat, 25%nat; split; [lia|]; split; assumption|].
  split; [exists 26%nat, 29%nat; split; [lia|]; split; assumption|].
  intros H.
  apply (H 15300 1%nat "0xabc1" 24700 (LogTxHash "0xsweep2")); [discriminate|].
  exists 25%nat, 29%nat. split; [lia|]. split; assumption.
Qed.

(** C8, amended: when the start of a monitor with a non-empty custom
    token list reaches the pass, the polling timer has been registered just
    before it, with a period of 15000 ms; the pass then resolves the details
    of each token and sweeps it, one token after the other in list order,
    returns, and neither reads nor changes [processedTxs]. Nothing holds
    the timer back meanwhile: once due it fires whatever calls are
    suspended. *)
Theorem custom_pass_follows_timer E env cfg (o : oracle) c n addr h :
  new_JsonRpcProvider E (rpcUrl cfg) = Ok tt ->
  new_Wallet E (PRIVATE_KEY env) = Ok tt ->
  o n _ GetAddress = Ok addr ->
  (String.length (name cfg) <= 45)%nat ->
  o (S n) _ GetBlockNumber = Ok h ->
  customTokenAddresses (CUSTOM_TOKENS env) <> [] ->
  let cap := {| network := name cfg; senderAddress := Js.toLowerCase addr;
                recipient := RECIPIENT_ADDRESS env |} in
  let r := run o (monitorAndTransfer E env cfg) c n in
  exists pass,
    trace r = ([Issued RGetAddress;
                LogBanner (name cfg) (senderAddress cap) (recipient cap);
                Issued RGetBlockNumber;
                Assigned h;
                LogMonitoringFrom h;
                SetInterval (PollingCallback cap) 15000;
                LogCheckingCustomTokens] ++ pass)%list
    /\ entries pass
       = flat_map (fun t => [EnterGetTokenDetails t; EnterTransferToken t])
           (customTokenAddresses (CUSTOM_TOKENS env))
    /\ writes pass = []
    /\ res r = Returned tt
    /\ vars r = setLastChecked h c
    /\ (forall m t j tm,
          punctual t m = true -> timers m !! j = Some (Some tm) -> due tm = t ->
          step E env m t (Fire j) = Some (fire E env t j tm m)).
Proof.
  intros Hp Hw Ha Hlen Hh Hne cap r. subst r.
  unfold monitorAndTransfer. rewrite run_try_catch.
  unfold startup. rewrite Hp, Hw. cbn -[customTokenPass customTokenAddresses].
  rewrite Ha. cbn -[customTokenPass customTokenAddresses].
  unfold repeat_count.
  replace (45 - Z.of_nat (String.length (name cfg)) <? 0) with false
    by (symmetry; apply Z.ltb_ge; lia).
  cbn -[customTokenPass customTokenAddresses].
  rewrite Hh. cbn -[customTokenPass customTokenAddresses].
  fold cap.
  destruct (customTokenPass_run E cap (customTokenAddresses (CUSTOM_TOKENS env)) o
              (setLastChecked h c) (S (S n))) as (tr & n' & Hr & He & Hwr & Hfirst).
  destruct (Hfirst Hne) as [pass ->].
  rewrite Hr. unfold or_else, logged. cbn [res vars trace awaited].
  exists pass. repeat split; auto.
  intros m t j tm. apply fire_never_waits.
Qed.

Lemma custom_pass_follows_timer_witness :
  vars (run (scripted [AString "0xWALLET"; ANumber 10; daiAnswer; ANumber 0; usdtAnswer; ANumber 0])
            (monitorAndTransfer ethersOk envTwoTokens ethereum) fresh 0)
  = setLastChecked 10 fresh.
Proof.
  assert (Hlen : (String.length (name ethereum) <= 45)%nat) by (simpl; lia).
  assert (Hne : customTokenAddresses (CUSTOM_TOKENS envTwoTokens) <> [])
    by (vm_compute; discriminate).
  destruct (custom_pass_follows_timer ethersOk envTwoTokens ethereum
              (scripted [AString "0xWALLET"; ANumber 10; daiAnswer; ANumber 0; usdtAnswer; ANumber 0])
              fresh 0 "0xWALLET" 10 eq_refl eq_refl eq_refl Hlen eq_refl Hne)
    as (pass & _ & _ & _ & _ & Hv & _).
  exact Hv.
Defined.

(** ** Errors of the start *)

Lemma onStartupError_run cfg err (o : oracle) c n :
  run o (onStartupError cfg err) c n
  = Ran (Returned tt) c
      (if isInvalidPrivateKey err then [LogInvalidPrivateKey]
       else [LogFatalError err; LogRestarting; SetTimeout (RestartCallback cfg) 30000]) n.
Proof. unfold onStartupError. destruct (isInvalidPrivateKey err); reflexivity. Qed.









(** The same restart in the event loop: the timer set at 0.1 s fires at
    30.1 s, the new call is task 1 of a second set of variables, and it
    ends its start with the height it read, 25. *)
Lemma restart_in_the_event_loop :
  exists m,
    play ethersOk processEnv (boot ethersOk processEnv ethereum) failedStart = Some m
    /\ map lastCheckedBlock (instances m) = [0; 25]
    /\ map (fun c => elements (processedTxs c)) (instances m) = [[]; []]
    /\ checkpoints (history m) = [(30300, 1%nat, Assigned 25)]
    /\ precedes (100, 0%nat, SetTimeout (RestartCallback ethereum) 30000)
                (30100, 1%nat, Issued RGetAddress) (history m).
Proof.
  set (final := play ethersOk processEnv (boot ethersOk processEnv ethereum) failedStart).
  assert (H1 : option_map (fun m => map lastCheckedBlock (instances m)) final = Some [0; 25])
    by (vm_compute; reflexivity).
  assert (H2 : option_map (fun m => map (fun c => elements (processedTxs c)) (instances m)) final
               = Some [[]; []]) by (vm_compute; reflexivity).
  assert (H3 : option_map (fun m => checkpoints (history m)) final
               = Some [(30300, 1%nat, Assigned 25)]) by (vm_compute; reflexivity).
  assert (H4 : option_map (fun m => nth_error (history m) 5) final
               = Some (Some (100, 0%nat, SetTimeout (RestartCallback ethereum) 30000)))
    by (vm_compute; reflexivity).
  assert (H5 : option_map (fun m => nth_error (history m) 6) final
               = Some (Some (30100, 1%nat, Issued RGetAddress))) by (vm_compute; reflexivity).
  clearbody final. destruct final as [m|]; [|discriminate].
  cbn [option_map] in *.
  injection H1 as H1. injection H2 as H2. injection H3 as H3. injection H4 as H4.
  injection H5 as H5.
  exists m. split; [reflexivity|]. split; [exact H1|]. split; [exact H2|]. split; [exact H3|].
  exists 5%nat, 6%nat. split; [lia|]. split; assumption.
Qed.

(** * Further properties of the code *)

(** ** The entry point *)

Lemma filter_sublist {T} (f : T -> bool) (l : list T) : sublist (List.filter f l) l.
Proof.
  induction l as [|x l IH]; simpl; [constructor|].
  destruct (f x); now constructor.
Qed.

Lemma networkConfigs_names raw :
  map name (networkConfigs raw)
  = map fst (List.filter (fun n => truthy (snd n)) (candidateNetworks raw)).
Proof. unfold networkConfigs. rewrite map_map. reflexivity. Qed.

(** X1: [main] ends the process with code 1 exactly when the private key, the
    recipient or every one of the four RPC URLs is unset or empty. Otherwise
    it starts one monitor for each network whose URL is set, with that URL,
    in the order Ethereum, Arbitrum, Base, Polygon, none twice; and the
    banner of each of them never raises a RangeError, its name being at most
    45 characters long. *)
Theorem main_starts_configured_networks (raw : RawEnv) :
  match main raw with
  | Exit code _ =>
      code = 1
      /\ (truthy (env_PRIVATE_KEY raw) = false
          \/ truthy (env_RECIPIENT_ADDRESS raw) = false
          \/ (truthy (env_RPC_URL raw) = false /\ truthy (env_ARBITRUM_RPC_URL raw) = false
              /\ truthy (env_BASE_RPC_URL raw) = false
              /\ truthy (env_POLYGON_RPC_URL raw) = false))
  | Monitors _ monitors =>
      truthy (env_PRIVATE_KEY raw) = true
      /\ truthy (env_RECIPIENT_ADDRESS raw) = true
      /\ monitors <> []
      /\ (forall n u, In {| name := n; rpcUrl := u |} monitors <->
                      u <> EmptyString /\ In (n, Some u) (candidateNetworks raw))
      /\ sublist (map name monitors) ["Ethereum"; "Arbitrum"; "Base"; "Polygon"]
      /\ NoDup (map name monitors)
      /\ (forall cfg, In cfg monitors ->
            repeat_count (45 - Z.of_nat (String.length (name cfg))) = Ok tt)
  end.
Proof.
  unfold main.
  destruct (truthy (env_PRIVATE_KEY raw)) eqn:Hk; simpl; [|auto].
  destruct (truthy (env_RECIPIENT_ADDRESS raw)) eqn:Hr; simpl; [|auto].
  assert (Hmem : forall n u, In {| name := n; rpcUrl := u |} (networkConfigs raw) <->
                   u <> EmptyString /\ In (n, Some u) (candidateNetworks raw)).
  { intros n u. unfold networkConfigs. rewrite in_map_iff. split.
    - intros [[n' [u'|]] [Heq Hin]]; apply filter_In in Hin as [Hin Ht];
        simpl in *; [|discriminate].
      injection Heq as -> ->. split; [|exact Hin].
      intros ->. simpl in Ht. discriminate.
    - intros [Hne Hin]. exists (n, Some u). split; [reflexivity|].
      apply filter_In. split; [exact Hin|]. simpl.
      destruct (String.eqb_spec u EmptyString); [contradiction|reflexivity]. }
  assert (Hsub : sublist (map name (networkConfigs raw))
                   ["Ethereum"; "Arbitrum"; "Base"; "Polygon"]).
  { rewrite networkConfigs_names.
    change ["Ethereum"; "Arbitrum"; "Base"; "Polygon"]
      with (fst <$> candidateNetworks raw).
    apply fmap_sublist, filter_sublist. }
  destruct (networkConfigs raw) as [|cfg0 rest] eqn:Hcfgs.
  - simpl. split; [reflexivity|]. right. right.
    unfold networkConfigs, candidateNetworks in Hcfgs. simpl in Hcfgs.
    destruct (truthy (env_RPC_URL raw)); [discriminate|].
    destruct (truthy (env_ARBITRUM_RPC_URL raw)); [discriminate|].
    destruct (truthy (env_BASE_RPC_URL raw)); [discriminate|].
    destruct (truthy (env_POLYGON_RPC_URL raw)); [discriminate|]. auto.
  - cbn [length Nat.eqb].
    split; [reflexivity|]. split; [reflexivity|]. split; [discriminate|].
    split; [exact Hmem|]. split; [exact Hsub|]. split.
    + eapply sublist_NoDup; [|exact Hsub].
      clear. repeat (apply NoDup_cons_2;
                     [rewrite list_elem_of_In; simpl; intuition discriminate|]).
      apply NoDup_nil_2.
    + intros [n u] Hin. apply Hmem in Hin as [_ Hin]. simpl.
      unfold candidateNetworks in Hin. simpl in Hin.
      destruct Hin as [H|[H|[H|[H|[]]]]]; injection H as <- _; reflexivity.
Qed.

(** ** The custom token list, continued *)

Lemma split_without_sep sep s : Js.contains sep s = false -> Js.split sep s = [s].
Proof.
  induction s as [|c r IH]; simpl; [reflexivity|].
  destruct (Ascii.eqb c sep); simpl; [discriminate|].
  intros H. now rewrite (IH H).
Qed.

Lemma split_app sep p r :
  Js.contains sep p = false ->
  Js.split sep (p ++ String sep r) = p :: Js.split sep r.
Proof.
  induction p as [|c p IH]; simpl.
  - intros _. now rewrite Ascii.eqb_refl.
  - destruct (Ascii.eqb c sep); simpl; [discriminate|].
    intros H. now rewrite (IH H).
Qed.

(** The pieces of a joined list are the list, when it is not empty and no
    element contains the separator. *)
Lemma split_join sep l :
  l <> [] ->
  (forall p, In p l -> Js.contains sep p = false) ->
  Js.split sep (Js.join sep l) = l.
Proof.
  induction l as [|p ps IH]; [congruence|]. intros _ Hl.
  destruct ps as [|q qs].
  - simpl. apply split_without_sep, Hl. now left.
  - rewrite join_cons by discriminate.
    rewrite split_app by (apply Hl; now left).
    f_equal. apply IH; [discriminate|]. intros x Hx. apply Hl. now right.
Qed.

Lemma isWhiteSpace_lowerChar c : Js.isWhiteSpace (Js.lowerChar c) = Js.isWhiteSpace c.
Proof. destruct c as [[] [] [] [] [] [] [] []]; reflexivity. Qed.

Lemma comma_lowerChar c : Ascii.eqb (Js.lowerChar c) comma = Ascii.eqb c comma.
Proof. destruct c as [[] [] [] [] [] [] [] []]; reflexivity. Qed.

Lemma contains_toLowerCase s :
  Js.contains comma (Js.toLowerCase s) = Js.contains comma s.
Proof. induction s; simpl; [reflexivity|]. now rewrite comma_lowerChar, IHs. Qed.

Lemma contains_trimStart c s :
  Js.contains c s = false -> Js.contains c (Js.trimStart s) = false.
Proof.
  induction s as [|d r IH]; simpl; [auto|].
  intros H. apply orb_false_iff in H as [H1 H2].
  destruct (Js.isWhiteSpace d); [now apply IH|]. simpl. now rewrite H1, H2.
Qed.

Lemma contains_trimEnd c s :
  Js.contains c s = false -> Js.contains c (Js.trimEnd s) = false.
Proof.
  induction s as [|d r IH]; simpl; [auto|].
  intros H. apply orb_false_iff in H as [H1 H2]. specialize (IH H2).
  destruct (Js.trimEnd r) as [|e r'].
  - destruct (Js.isWhiteSpace d); simpl; [reflexivity|]. now rewrite H1.
  - simpl in *. now rewrite H1, IH.
Qed.

Lemma trimStart_toLowerCase s :
  Js.trimStart (Js.toLowerCase s) = Js.toLowerCase (Js.trimStart s).
Proof.
  induction s as [|c r IH]; simpl; [reflexivity|].
  rewrite isWhiteSpace_lowerChar. destruct (Js.isWhiteSpace c); [exact IH|reflexivity].
Qed.

Lemma trimEnd_toLowerCase s :
  Js.trimEnd (Js.toLowerCase s) = Js.toLowerCase (Js.trimEnd s).
Proof.
  induction s as [|c r IH]; simpl; [reflexivity|].
  rewrite IH, isWhiteSpace_lowerChar.
  destruct (Js.trimEnd r) as [|e r']; simpl; [|reflexivity].
  destruct (Js.isWhiteSpace c); reflexivity.
Qed.

Lemma trimEnd_idem s : Js.trimEnd (Js.trimEnd s) = Js.trimEnd s.
Proof.
  induction s as [|c r IH]; simpl; [reflexivity|].
  destruct (Js.trimEnd r) as [|e r'] eqn:Hr.
  - destruct (Js.isWhiteSpace c) eqn:Hc; simpl; [reflexivity|]. now rewrite Hc.
  - change (Js.trimEnd (String c (String e r'))) with
      (match Js.trimEnd (String e r') with
       | EmptyString => if Js.isWhiteSpace c then EmptyString else String c EmptyString
       | r'' => String c r''
       end).
    rewrite IH. reflexivity.
Qed.


Lemma trimStart_noLeadingSpace s : noLeadingSpace (Js.trimStart s).
Proof.
  induction s as [|c r IH]; simpl; [exact I|].
  destruct (Js.isWhiteSpace c) eqn:Hc; [exact IH|]. simpl. exact Hc.
Qed.

Lemma trimEnd_noLeadingSpace s : noLeadingSpace s -> noLeadingSpace (Js.trimEnd s).
Proof.
  destruct s as [|c r]; simpl; [auto|]. intros Hc.
  destruct (Js.trimEnd r); [rewrite Hc|]; simpl; exact Hc.
Qed.

Lemma trimStart_fixed s : noLeadingSpace s -> Js.trimStart s = s.
Proof. destruct s as [|c r]; simpl; [auto|]. now intros ->. Qed.

Lemma trim_idem s : Js.trim (Js.trim s) = Js.trim s.
Proof.
  unfold Js.trim.
  rewrite (trimStart_fixed (Js.trimEnd (Js.trimStart s)))
    by apply trimEnd_noLeadingSpace, trimStart_noLeadingSpace.
  apply trimEnd_idem.
Qed.

Lemma trim_toLowerCase s : Js.trim (Js.toLowerCase s) = Js.toLowerCase (Js.trim s).
Proof. unfold Js.trim. now rewrite trimStart_toLowerCase, trimEnd_toLowerCase. Qed.

Lemma normalize_idem s : normalize (normalize s) = normalize s.
Proof.
  unfold normalize. now rewrite trim_toLowerCase, trim_idem, toLowerCase_idem.
Qed.

Lemma map_fixed {T} (f : T -> T) (l : list T) :
  (forall x, In x l -> f x = x) -> map f l = l.
Proof.
  induction l as [|x l IH]; simpl; [reflexivity|]. intros H.
  rewrite (H x) by now left. f_equal. apply IH. intros y Hy. apply H. now right.
Qed.

Lemma filter_all {T} (f : T -> bool) (l : list T) :
  (forall x, In x l -> f x = true) -> List.filter f l = l.
Proof.
  induction l as [|x l IH]; simpl; [reflexivity|]. intros H.
  rewrite (H x) by now left. f_equal. apply IH. intros y Hy. apply H. now right.
Qed.

(** X2: the parsed list is in normal form: written back as a comma-separated
    value it parses to itself, and no address of it contains a comma or has
    white space around it. *)
Theorem customTokenAddresses_round_trip (CUSTOM_TOKENS : option string) :
  let parsed := customTokenAddresses CUSTOM_TOKENS in
  customTokenAddresses (Some (Js.join comma parsed)) = parsed
  /\ (forall a, In a parsed ->
        Js.contains comma a = false /\ Js.trim a = a /\ normalize a = a).
Proof.
  intros parsed.
  assert (Hnf : forall a, In a parsed ->
            Js.contains comma a = false /\ Js.trim a = a /\ normalize a = a /\ keep a = true).
  { intros a Ha. subst parsed. unfold customTokenAddresses in Ha.
    apply filter_In in Ha as [Ha Hk]. apply in_map_iff in Ha as [e [<- He]].
    split; [|split; [|split]].
    - unfold normalize. rewrite contains_toLowerCase. unfold Js.trim.
      apply contains_trimEnd, contains_trimStart.
      now apply (split_no_sep comma (customTokensEnv CUSTOM_TOKENS)).
    - unfold normalize. now rewrite trim_toLowerCase, trim_idem.
    - apply normalize_idem.
    - exact Hk. }
  split; [|intros a Ha; destruct (Hnf a Ha) as (H1 & H2 & H3 & _); auto].
  unfold customTokenAddresses at 1. cbn [customTokensEnv].
  destruct parsed as [|a rest] eqn:Hp; [reflexivity|].
  rewrite split_join; [|discriminate|intros p Hin; now apply Hnf].
  rewrite map_fixed by (intros x Hx; now apply Hnf).
  apply filter_all. intros x Hx. now apply Hnf.
Qed.

(** ** Errors never escape *)

Lemma never_throws_bind {A B} (p : async A) (f : A -> async B) :
  never_throws p -> (forall a, never_throws (f a)) -> never_throws (bind p f).
Proof.
  induction p as [a|e|h k IH|h k IH|k IH|v k IH|e k IH|X r k IH]; simpl; auto.
Qed.

Lemma never_throws_try_catch {A} (p : async A) (h : JsError -> async A) :
  (forall e, never_throws (h e)) -> never_throws (try_catch p h).
Proof.
  induction p as [a|e|t k IH|t k IH|k IH|v k IH|e k IH|X r k IH]; simpl; auto.
Qed.

Lemma never_throws_for_each {T} (l : list T) (body : T -> async unit) :
  (forall x, never_throws (body x)) -> never_throws (for_each l body).
Proof.
  intros H. induction l as [|x l IH]; simpl; [exact I|].
  apply never_throws_bind; auto.
Qed.

Lemma never_throws_getTokenDetails E a : never_throws (getTokenDetails E a).
Proof.
  unfold getTokenDetails. simpl. apply never_throws_try_catch. intros e. exact I.
Qed.

Lemma never_throws_transferToken E cap a d : never_throws (transferToken E cap a d).
Proof.
  unfold transferToken. simpl. apply never_throws_try_catch. intros e. exact I.
Qed.

Lemma never_throws_handleIncomingTransfer E cap log :
  never_throws (handleIncomingTransfer E cap log).
Proof.
  unfold handleIncomingTransfer. cbn -[getTokenDetails transferToken].
  intros [|]; [exact I|]. cbn -[getTokenDetails transferToken].
  apply never_throws_bind; [apply never_throws_getTokenDetails|].
  intros d. cbn -[getTokenDetails transferToken]. intros [].
  apply never_throws_bind; [apply never_throws_transferToken|].
  intros b. exact I.
Qed.

Lemma never_throws_pollingCallback E cap : never_throws (pollingCallback E cap).
Proof. unfold pollingCallback. apply never_throws_try_catch. intros e. exact I. Qed.

Lemma never_throws_onStartupError cfg err : never_throws (onStartupError cfg err).
Proof. unfold onStartupError. destruct (isInvalidPrivateKey err); simpl; exact I. Qed.

Lemma never_throws_monitorAndTransfer E env cfg :
  never_throws (monitorAndTransfer E env cfg).
Proof.
  unfold monitorAndTransfer. apply never_throws_try_catch.
  apply never_throws_onStartupError.
Qed.

Lemma never_throws_customTokenPass E cap tokens :
  never_throws (customTokenPass E cap tokens).
Proof.
  unfold customTokenPass. destruct (0 <? length tokens)%nat; [|exact I].
  cbn -[getTokenDetails transferToken for_each].
  apply never_throws_for_each. intros t.
  apply never_throws_bind; [apply never_throws_getTokenDetails|].
  intros d. apply never_throws_bind; [apply never_throws_transferToken|].
  intros b. exact I.
Qed.

Lemma run_never_throws {A} (o : oracle) (p : async A) c n :
  never_throws p -> exists a, res (run o p c n) = Returned a.
Proof.
  revert c n.
  induction p as [a|e|h k IH|h k IH|k IH|v k IH|e k IH|X r k IH]; intros c n Hp; simpl in *;
    eauto; contradiction.
Qed.

Lemma advance_never_throws {A} (p : async A) c :
  never_throws p ->
  match at_await (advance p c) with
  | Finished _ => True
  | Crashed _ => False
  | Blocked r k => forall x, never_throws (k x)
  end.
Proof.
  revert c.
  induction p as [a|e|h k IH|h k IH|k IH|v k IH|e k IH|X r k IH]; intros c Hp; simpl in *;
    auto; try (apply IH; auto).
Qed.

Lemma resume_safe t i slot p m :
  never_throws p ->
  (forall j o, tasks m !! j = Some o -> safe_task o) ->
  forall j o, tasks (resume t i slot p m) !! j = Some o -> safe_task o.
Proof.
  intros Hp Hm j o. unfold resume. cbn [tasks].
  destruct (decide (slot = j)) as [->|Hne].
  - destruct (decide (j < length (tasks m))%nat) as [Hlt|Hge].
    + rewrite list_lookup_insert_eq by exact Hlt. intros [= <-].
      pose proof (advance_never_throws p (vars_of m i) Hp) as Ha.
      destruct (at_await (advance p (vars_of m i))); simpl; auto.
    + rewrite list_insert_ge by lia. apply Hm.
  - rewrite list_lookup_insert_ne by exact Hne. apply Hm.
Qed.

Lemma spawn_safe t i p m :
  never_throws p ->
  (forall j o, tasks m !! j = Some o -> safe_task o) ->
  forall j o, tasks (spawn t i p m) !! j = Some o -> safe_task o.
Proof.
  intros Hp Hm. unfold spawn. apply resume_safe; [exact Hp|].
  cbn [tasks]. intros j o Hj.
  apply lookup_app_Some in Hj as [Hj|[_ Hj]]; [now apply (Hm j)|].
  apply list_lookup_singleton_Some in Hj as [_ <-]. exact I.
Qed.

Lemma step_safe E env m t s m' :
  step E env m t s = Some m' ->
  (forall j o, tasks m !! j = Some o -> safe_task o) ->
  forall j o, tasks m' !! j = Some o -> safe_task o.
Proof.
  unfold step. intros H Hm.
  destruct (punctual t m); [|discriminate].
  destruct s as [k|k a].
  - destruct (timers m !! k) as [[tm|]|]; try discriminate.
    destruct (due tm =? t); [|discriminate].
    injection H as <-. unfold fire.
    destruct (cb tm) as [cap|cfg].
    + apply spawn_safe; [apply never_throws_pollingCallback|exact Hm].
    + apply spawn_safe; [apply never_throws_monitorAndTransfer|exact Hm].
  - destruct (tasks m !! k) as [[[owner since X r kont]|]|] eqn:Hk; try discriminate.
    destruct (since + latency r <=? t); [|discriminate].
    destruct (decode r a) as [x|]; [|discriminate].
    injection H as <-.
    apply resume_safe; [|exact Hm]. apply (Hm k _ Hk x).
Qed.

Lemma play_safe E env schedule m m' :
  play E env m schedule = Some m' ->
  (forall j o, tasks m !! j = Some o -> safe_task o) ->
  forall j o, tasks m' !! j = Some o -> safe_task o.
Proof.
  revert m. induction schedule as [|[t s] rest IH]; intros m Hp H0; simpl in Hp.
  - injection Hp as <-. exact H0.
  - destruct (step E env m t s) as [m1|] eqn:Hs; [|discriminate].
    apply (IH m1 Hp). eapply step_safe; eauto.
Qed.

(** X3: on no path does a closure of the monitor end with an uncaught error:
    [getTokenDetails], [transferToken], [handleIncomingTransfer], the
    polling callback and [monitorAndTransfer] itself always return. In the
    event loop started for a network this holds of every call at every
    moment: under any schedule, whatever a suspended call is answered, it
    runs to its next [await] or to its end without an uncaught error. *)
Theorem no_error_escapes E env cfg schedule m :
  play E env (boot E env cfg) schedule = Some m ->
  (forall j i since X (r : rpc X) k,
     tasks m !! j = Some (Some (Suspended i since r k)) ->
     forall x c, match at_await (advance (k x) c) with
                 | Crashed _ => False
                 | _ => True
                 end)
  /\ (forall cap a d log (o : oracle) c n,
        (exists v, res (run o (getTokenDetails E a) c n) = Returned v)
        /\ (exists v, res (run o (transferToken E cap a d) c n) = Returned v)
        /\ res (run o (handleIncomingTransfer E cap log) c n) = Returned tt
        /\ res (run o (pollingCallback E cap) c n) = Returned tt
        /\ res (run o (monitorAndTransfer E env cfg) c n) = Returned tt).
Proof.
  intros Hplay. split.
  - assert (Hall : forall j o, tasks m !! j = Some o -> safe_task o).
    { apply (play_safe E env schedule (boot E env cfg) m Hplay).
      unfold boot. apply spawn_safe; [apply never_throws_monitorAndTransfer|].
      intros j o Hj. cbn [tasks] in Hj. rewrite lookup_nil in Hj. discriminate. }
    intros j i since X r k Hj x c.
    pose proof (Hall j _ Hj x) as Hk. simpl in Hk.
    pose proof (advance_never_throws (k x) c Hk) as Ha.
    destruct (at_await (advance (k x) c)); auto.
  - intros cap a d log o c n.
    split; [apply run_never_throws, never_throws_getTokenDetails|].
    split; [apply run_never_throws, never_throws_transferToken|].
    split; [destruct (run_never_throws o (handleIncomingTransfer E cap log) c n
                        (never_throws_handleIncomingTransfer E cap log)) as [[] ->];
            reflexivity|].
    split; [destruct (run_never_throws o (pollingCallback E cap) c n
                        (never_throws_pollingCallback E cap)) as [[] ->];
            reflexivity|].
    destruct (run_never_throws o (monitorAndTransfer E env cfg) c n
                (never_throws_monitorAndTransfer E env cfg)) as [[] ->].
    reflexivity.
Qed.

Lemma no_error_escapes_witness :
  exists m,
    play ethersOk processEnv (boot ethersOk processEnv ethereum) failedStart = Some m
    /\ res (run (scripted []) (monitorAndTransfer ethersOk processEnv ethereum) fresh 0)
       = Returned tt.
Proof.
  assert (H : option_map (fun _ => tt)
                (play ethersOk processEnv (boot ethersOk processEnv ethereum) failedStart)
              = Some tt) by (vm_compute; reflexivity).
  destruct (play ethersOk processEnv (boot ethersOk processEnv ethereum) failedStart)
    as [m|] eqn:Hplay; [|discriminate].
  exists m. split; [reflexivity|].
  destruct (no_error_escapes ethersOk processEnv ethereum failedStart m Hplay) as [_ Hall].
  destruct (Hall wallet dai daiDetails entryDai (scripted []) fresh 0%nat)
    as (_ & _ & _ & _ & Hm).
  exact Hm.
Defined.

(** ** Timers *)


Lemma timersOnly_isTimer : timersOnly isTimer.
Proof. intros e H. exact H. Qed.

Lemma timersOnly_isRepeatingRestart : timersOnly isRepeatingRestart.
Proof. intros [] H; try reflexivity; discriminate. Qed.

Lemma emits_weaken {A} P (p : async A) n m :
  (n <= m)%nat -> emits_at_most P n p -> emits_at_most P m p.
Proof.
  revert n m.
  induction p as [a|e|h k IH|h k IH|k IH|v k IH|e k IH|X r k IH]; intros n m Hle; simpl; auto.
  - intros H b. eapply IH; eauto.
  - apply IH; exact Hle.
  - intros H v. eapply IH; eauto.
  - apply IH; exact Hle.
  - destruct (P e).
    + destruct n as [|n']; [contradiction|].
      destruct m as [|m']; [lia|]. apply IH. lia.
    + apply IH; exact Hle.
  - intros H x. eapply IH; eauto.
Qed.

Lemma emits_bind {A B} P (p : async A) (f : A -> async B) a b :
  emits_at_most P a p -> (forall x, emits_at_most P b (f x)) ->
  emits_at_most P (a + b) (bind p f).
Proof.
  revert a.
  induction p as [x|e|h k IH|h k IH|k IH|v k IH|e k IH|X r k IH]; intros a Hp Hf; simpl in *; auto.
  - apply (emits_weaken P (f x) b); [lia|apply Hf].
  - destruct (P e).
    + destruct a as [|a']; [contradiction|]. simpl. apply IH; assumption.
    + apply IH; assumption.
Qed.

(** A [catch] block that cannot run adds nothing. *)
Lemma emits_try_catch_quiet {A} P (p : async A) (h : JsError -> async A) n :
  never_throws p -> emits_at_most P n p -> emits_at_most P n (try_catch p h).
Proof.
  revert n.
  induction p as [x|e|t k IH|t k IH|k IH|v k IH|e k IH|X r k IH]; intros n Hn Hp; simpl in *;
    auto; try contradiction.
  destruct (P e).
  - destruct n as [|n']; [contradiction|]. apply IH; assumption.
  - apply IH; assumption.
Qed.

Lemma emits_for_each {T} P (l : list T) (body : T -> async unit) :
  (forall x, emits_at_most P 0 (body x)) -> emits_at_most P 0 (for_each l body).
Proof.
  intros H. induction l as [|x l IH]; simpl; [exact I|].
  apply (emits_bind P _ _ 0 0); auto.
Qed.

(** Rewrites the test [P] away on the events of the goal that are not
    timers. *)
Ltac not_a_timer HP :=
  repeat match goal with
         | |- context [?P ?e] =>
             match type of HP with timersOnly P => rewrite (HP e eq_refl) end
         end.

Lemma no_timer_getTokenDetails P E a :
  timersOnly P -> emits_at_most P 0 (getTokenDetails E a).
Proof.
  intros HP. unfold getTokenDetails. simpl. not_a_timer HP.
  destruct (new_Contract E a WithProvider) as [[]|e]; simpl; [|exact I].
  intros [s [d nm]]. exact I.
Qed.

Lemma no_timer_transferToken P E cap a d :
  timersOnly P -> emits_at_most P 0 (transferToken E cap a d).
Proof.
  intros HP. unfold transferToken. simpl. not_a_timer HP.
  destruct (new_Contract E a WithWallet) as [[]|e0]; simpl;
    [|not_a_timer HP; exact I].
  intros [balance|e1]; simpl; [|not_a_timer HP; exact I].
  destruct ((balance =? 0) || String.eqb (toString balance) "0"); simpl; [exact I|].
  destruct (formatTokenAmount E balance (decimals d)) as [formatted|e2]; simpl;
    [|not_a_timer HP; exact I].
  not_a_timer HP.
  intros [tx|e3]; simpl; [|not_a_timer HP; exact I].
  intros [[]|e4]; simpl; not_a_timer HP; exact I.
Qed.

Lemma no_timer_handleIncomingTransfer P E cap log :
  timersOnly P -> emits_at_most P 0 (handleIncomingTransfer E cap log).
Proof.
  intros HP. unfold handleIncomingTransfer. cbn -[getTokenDetails transferToken].
  intros [|]; [exact I|]. cbn -[getTokenDetails transferToken].
  apply (emits_bind P _ _ 0 0); [now apply no_timer_getTokenDetails|].
  intros d. cbn -[getTokenDetails transferToken]. not_a_timer HP. intros [].
  apply (emits_bind P _ _ 0 0); [now apply no_timer_transferToken|].
  intros b. exact I.
Qed.

(** The polling callback registers no timer, whatever fails. *)
Lemma no_timer_pollingCallback P E cap :
  timersOnly P -> emits_at_most P 0 (pollingCallback E cap).
Proof.
  intros HP. unfold pollingCallback. cbn -[handleIncomingTransfer for_each].
  intros [h|e]; cbn -[handleIncomingTransfer for_each]; [|exact I].
  intros last. destruct (h >? last); cbn -[handleIncomingTransfer for_each]; [|exact I].
  destruct (zeroPadValue E (senderAddress cap) 32) as [topic|e];
    cbn -[handleIncomingTransfer for_each]; [|exact I].
  intros [logs|e]; cbn -[handleIncomingTransfer for_each]; [|exact I].
  apply emits_try_catch_quiet.
  - apply never_throws_bind; [|intros; exact I].
    apply never_throws_for_each. intros l. apply never_throws_handleIncomingTransfer.
  - apply (emits_bind P _ _ 0 0); [|intros; exact I].
    apply emits_for_each. intros l. now apply no_timer_handleIncomingTransfer.
Qed.

Lemma no_timer_customTokenPass P E cap tokens :
  timersOnly P -> emits_at_most P 0 (customTokenPass E cap tokens).
Proof.
  intros HP. unfold customTokenPass. destruct (0 <? length tokens)%nat; [|exact I].
  cbn -[getTokenDetails transferToken for_each]. not_a_timer HP.
  apply emits_for_each. intros t.
  apply (emits_bind P _ _ 0 0); [now apply no_timer_getTokenDetails|].
  intros d. apply (emits_bind P _ _ 0 0); [now apply no_timer_transferToken|].
  intros b. exact I.
Qed.

Lemma onStartupError_timers cfg err :
  emits_at_most isTimer 1 (onStartupError cfg err)
  /\ emits_at_most isRepeatingRestart 0 (onStartupError cfg err).
Proof. unfold onStartupError. destruct (isInvalidPrivateKey err); simpl; auto. Qed.

(** One call of [monitorAndTransfer] registers at most one timer, and
    never a repeating restart. *)
Lemma monitorAndTransfer_timers E env cfg :
  emits_at_most isTimer 1 (monitorAndTransfer E env cfg)
  /\ emits_at_most isRepeatingRestart 0 (monitorAndTransfer E env cfg).
Proof.
  pose proof (onStartupError_timers cfg) as Hh.
  unfold monitorAndTransfer, startup.
  destruct (new_JsonRpcProvider E (rpcUrl cfg)) as [[]|e];
    cbn -[customTokenPass customTokenAddresses onStartupError]; [|apply Hh].
  destruct (new_Wallet E (PRIVATE_KEY env)) as [[]|e];
    cbn -[customTokenPass customTokenAddresses onStartupError]; [|apply Hh].
  split.
  - intros [addr|e]; cbn -[customTokenPass customTokenAddresses onStartupError]; [|apply Hh].
    destruct (repeat_count (45 - Z.of_nat (String.length (name cfg)))) as [[]|e];
      cbn -[customTokenPass customTokenAddresses onStartupError]; [|apply Hh].
    intros [h|e]; cbn -[customTokenPass customTokenAddresses onStartupError]; [|apply Hh].
    apply emits_try_catch_quiet; [apply never_throws_customTokenPass|].
    apply no_timer_customTokenPass, timersOnly_isTimer.
  - intros [addr|e]; cbn -[customTokenPass customTokenAddresses onStartupError]; [|apply Hh].
    destruct (repeat_count (45 - Z.of_nat (String.length (name cfg)))) as [[]|e];
      cbn -[customTokenPass customTokenAddresses onStartupError]; [|apply Hh].
    intros [h|e]; cbn -[customTokenPass customTokenAddresses onStartupError]; [|apply Hh].
    apply emits_try_catch_quiet; [apply never_throws_customTokenPass|].
    apply no_timer_customTokenPass, timersOnly_isRepeatingRestart.
Qed.

Lemma count_cons P e tr :
  count P (e :: tr) = ((if P e then 1 else 0) + count P tr)%nat.
Proof. unfold count. simpl. destruct (P e); reflexivity. Qed.

(** A segment spends part of the bound on timers; the rest holds for what
    follows the [await]. *)
Lemma advance_emits {A} P (p : async A) n c :
  timersOnly P ->
  emits_at_most P n p ->
  (count P (emitted (advance p c)) <= n)%nat
  /\ match at_await (advance p c) with
     | Blocked r k => forall x, emits_at_most P (n - count P (emitted (advance p c))) (k x)
     | _ => True
     end.
Proof.
  intros HP. revert n c.
  induction p as [a|e|h k IH|h k IH|k IH|v k IH|e k IH|X r k IH]; intros n c Hp; simpl in *.
  - split; [unfold count; simpl; lia|exact I].
  - split; [unfold count; simpl; lia|exact I].
  - apply IH, Hp.
  - destruct (IH n (markProcessed h c) Hp) as [H1 H2].
    rewrite count_cons, (HP (Marked h) eq_refl). split; [exact H1|exact H2].
  - apply IH, Hp.
  - destruct (IH n (setLastChecked v c) Hp) as [H1 H2].
    rewrite count_cons, (HP (Assigned v) eq_refl). split; [exact H1|exact H2].
  - rewrite count_cons. destruct (P e) eqn:He.
    + destruct n as [|n']; [contradiction|].
      destruct (IH n' c Hp) as [H1 H2]. split; [lia|].
      destruct (at_await (advance k c)); auto.
    + destruct (IH n c Hp) as [H1 H2]. split; [exact H1|exact H2].
  - rewrite count_cons, (HP (Issued (erase r)) eq_refl).
    split; [unfold count; simpl; lia|].
    intros x. unfold count. simpl. rewrite Nat.sub_0_r. apply Hp.
Qed.

Lemma active_app a b : active (a ++ b)%list = (active a + active b)%nat.
Proof. unfold active. now rewrite List.filter_app, length_app. Qed.

Lemma timers_of_active t i evs : active (timers_of t i evs) = count isTimer evs.
Proof.
  unfold active, timers_of, count.
  induction evs as [|e evs IH]; [reflexivity|].
  destruct e; simpl; auto.
Qed.

Lemma timers_of_one_shot t i evs j o :
  count isRepeatingRestart evs = 0%nat ->
  timers_of t i evs !! j = Some o -> one_shot_restart o.
Proof.
  unfold timers_of. revert j.
  induction evs as [|e evs IH]; intros j Hc Hj; [destruct j; discriminate|].
  rewrite count_cons in Hc.
  destruct (isRepeatingRestart e) eqn:He; [lia|]. simpl in Hc.
  destruct e; simpl in Hj; try (now apply (IH j)).
  - destruct j as [|j]; [|now apply (IH j)].
    injection Hj as <-. simpl. destruct cb0; [exact I|discriminate].
  - destruct j as [|j]; [|now apply (IH j)].
    injection Hj as <-. simpl. destruct cb0; [exact I|reflexivity].
Qed.

Lemma active_insert_some (l : list (option Timer)) j x y :
  l !! j = Some (Some x) -> active (<[ j := Some y ]> l) = active l.
Proof.
  revert j. induction l as [|o l IH]; intros j Hj; [rewrite lookup_nil in Hj; discriminate|].
  destruct j as [|j]; simpl in *.
  - injection Hj as ->. reflexivity.
  - unfold active in *. simpl. destruct o; simpl; rewrite (IH j Hj); reflexivity.
Qed.

Lemma active_insert_none (l : list (option Timer)) j x :
  l !! j = Some (Some x) -> S (active (<[ j := None ]> l)) = active l.
Proof.
  revert j. induction l as [|o l IH]; intros j Hj; [rewrite lookup_nil in Hj; discriminate|].
  destruct j as [|j]; simpl in *.
  - injection Hj as ->. reflexivity.
  - unfold active in *. simpl. destruct o; simpl; rewrite <- (IH j Hj); reflexivity.
Qed.

Lemma active_positive (l : list (option Timer)) j x :
  l !! j = Some (Some x) -> (1 <= active l)%nat.
Proof. intros H. rewrite <- (active_insert_none l j x H). lia. Qed.

(** Resuming a task within what it may register keeps the count. *)
Lemma resume_one_timer t i slot p m who :
  (slot < length (tasks m))%nat ->
  one_timer_with who m ->
  emits_at_most isTimer (if bool_decide (who = Some slot) then 1 else 0) p ->
  emits_at_most isRepeatingRestart 0 p ->
  one_timer (resume t i slot p m).
Proof.
  intros Hslot (Htasks & Hshots & Hact) Hp Hq.
  destruct (advance_emits isTimer p _ (vars_of m i) timersOnly_isTimer Hp) as [Hc Hk].
  destruct (advance_emits isRepeatingRestart p _ (vars_of m i)
              timersOnly_isRepeatingRestart Hq) as [Hc' Hk'].
  set (a := advance p (vars_of m i)) in *.
  assert (Hshots' : forall j o, timers (resume t i slot p m) !! j = Some o -> one_shot_restart o).
  { intros j o. unfold resume. cbn [timers]. fold a. intros Hj.
    apply lookup_app_Some in Hj as [Hj|[_ Hj]]; [now apply (Hshots j)|].
    eapply timers_of_one_shot; [|exact Hj]. lia. }
  assert (Hactive : active (timers (resume t i slot p m))
                    = (active (timers m) + count isTimer (emitted a))%nat).
  { unfold resume. cbn [timers]. fold a. now rewrite active_app, timers_of_active. }
  assert (Hothers : forall who' j o,
            j <> slot -> tasks (resume t i slot p m) !! j = Some o ->
            (bool_decide (who = Some j) = true -> bool_decide (who' = Some j) = true) ->
            may_register (if bool_decide (who' = Some j) then 1 else 0) o).
  { intros who' j o Hne Hj Himp. unfold resume in Hj. cbn [tasks] in Hj.
    rewrite list_lookup_insert_ne in Hj by congruence.
    pose proof (Htasks j o Hj) as Hm.
    destruct (bool_decide (who = Some j)) eqn:Hw.
    - now rewrite (Himp eq_refl).
    - destruct (bool_decide (who' = Some j)); [|exact Hm].
      destruct o as [[owner since X r k]|]; [|exact I]. simpl in *.
      intros x. destruct (Hm x) as [H1 H2]. split; [|exact H2].
      apply (emits_weaken isTimer _ 0 1); [lia|exact H1]. }
  assert (Hown : forall b,
            (b = (if bool_decide (who = Some slot) then 1 else 0) - count isTimer (emitted a))%nat ->
            forall o, tasks (resume t i slot p m) !! slot = Some o -> may_register b o).
  { intros b -> o. unfold resume. cbn [tasks]. fold a.
    rewrite list_lookup_insert_eq by exact Hslot. intros [= <-].
    revert Hk Hk'. destruct (at_await a); simpl; auto. }
  destruct (bool_decide (who = Some slot)) eqn:Hw.
  - apply bool_decide_eq_true in Hw. subst who.
    destruct (count isTimer (emitted a)) as [|[|c]] eqn:Hcount; [| |lia].
    + exists (Some slot). split; [|split; [exact Hshots'|]].
      * intros j o Hj. destruct (decide (j = slot)) as [->|Hne].
        -- rewrite bool_decide_eq_true_2 by reflexivity.
           apply (Hown 1%nat); [reflexivity|exact Hj].
        -- apply (Hothers (Some slot) j o Hne Hj). auto.
      * rewrite Hactive, Hact. reflexivity.
    + exists None. split; [|split; [exact Hshots'|]].
      * intros j o Hj. rewrite bool_decide_eq_false_2 by discriminate.
        destruct (decide (j = slot)) as [->|Hne].
        -- apply (Hown 0%nat); [reflexivity|exact Hj].
        -- pose proof (Hothers None j o Hne Hj) as Ho.
           rewrite (bool_decide_eq_false_2 (None = Some j)) in Ho by discriminate.
           apply Ho. intros Hc2. apply bool_decide_eq_true in Hc2.
           injection Hc2 as Hc2. congruence.
      * rewrite Hactive, Hact. simpl. lia.
  - assert (Hzero : count isTimer (emitted a) = 0%nat) by lia.
    exists who. split; [|split; [exact Hshots'|]].
    + intros j o Hj. destruct (decide (j = slot)) as [->|Hne].
      * rewrite Hw. apply (Hown 0%nat); [rewrite Hzero; reflexivity|exact Hj].
      * apply (Hothers who j o Hne Hj). auto.
    + rewrite Hactive, Hzero, Nat.add_0_r. exact Hact.
Qed.

(** Starting a task in a new slot. *)
Lemma spawn_one_timer t i p m who :
  one_timer_with who m ->
  emits_at_most isTimer (if bool_decide (who = Some (length (tasks m))) then 1 else 0) p ->
  emits_at_most isRepeatingRestart 0 p ->
  one_timer (spawn t i p m).
Proof.
  intros (Htasks & Hshots & Hact) Hp Hq. unfold spawn.
  apply (resume_one_timer t i _ p _ who); [cbn [tasks]; rewrite length_app; simpl; lia| |exact Hp|exact Hq].
  split; [|split; [exact Hshots|exact Hact]].
  cbn [tasks]. intros j o Hj.
  apply lookup_app_Some in Hj as [Hj|[_ Hj]]; [now apply Htasks|].
  apply list_lookup_singleton_Some in Hj as [_ <-]. exact I.
Qed.

Lemma step_one_timer E env m t s m' :
  step E env m t s = Some m' -> one_timer m -> one_timer m'.
Proof.
  unfold step. intros H [who (Htasks & Hshots & Hact)].
  destruct (punctual t m); [|discriminate].
  destruct s as [k|k a].
  - destruct (timers m !! k) as [[tm|]|] eqn:Hk; try discriminate.
    destruct (due tm =? t); [|discriminate].
    injection H as <-.
    pose proof (active_positive _ _ _ Hk) as Hpos.
    destruct who as [w|]; [lia|].
    pose proof (Hshots k _ Hk) as Hshot. simpl in Hshot.
    unfold fire. destruct (cb tm) as [cap|cfg] eqn:Hcb.
    + apply (spawn_one_timer t _ _ _ None).
      * split; [exact Htasks|]. split.
        -- unfold set_timer. cbn [timers]. intros j o Hj.
           destruct (decide (k = j)) as [->|Hne].
           ++ rewrite list_lookup_insert_eq in Hj by (eapply lookup_lt_Some; eauto).
              injection Hj as <-.
              destruct (every tm) eqn:Hev; simpl; exact I.
           ++ rewrite list_lookup_insert_ne in Hj by exact Hne. now apply (Hshots j).
        -- unfold set_timer. cbn [timers].
           destruct (every tm).
           ++ now rewrite (active_insert_some _ _ tm).
           ++ pose proof (active_insert_none _ _ _ Hk). lia.
      * rewrite bool_decide_eq_false_2 by discriminate.
        apply no_timer_pollingCallback, timersOnly_isTimer.
      * apply no_timer_pollingCallback, timersOnly_isRepeatingRestart.
    + rewrite Hshot.
      destruct (monitorAndTransfer_timers E env cfg) as [Hm1 Hm2].
      apply (spawn_one_timer t _ _ _ (Some (length (tasks m)))).
      * split; [|split].
        -- unfold new_instance, set_timer. cbn [tasks]. intros j o Hj.
           pose proof (Htasks j o Hj) as Hm.
           rewrite (bool_decide_eq_false_2 (None = Some j)) in Hm by discriminate.
           destruct (bool_decide (Some (length (tasks m)) = Some j)); [|exact Hm].
           destruct o as [[owner since X r kk]|]; [|exact I]. simpl in *.
           intros x. destruct (Hm x) as [H1 H2]. split; [|exact H2].
           apply (emits_weaken isTimer _ 0 1); [lia|exact H1].
        -- unfold new_instance, set_timer. cbn [timers]. intros j o Hj.
           destruct (decide (k = j)) as [->|Hne].
           ++ rewrite list_lookup_insert_eq in Hj by (eapply lookup_lt_Some; eauto).
              injection Hj as <-. exact I.
           ++ rewrite list_lookup_insert_ne in Hj by exact Hne. now apply (Hshots j).
        -- unfold new_instance, set_timer. cbn [timers].
           pose proof (active_insert_none _ _ _ Hk). lia.
      * unfold new_instance, set_timer. cbn [tasks].
        rewrite bool_decide_eq_true_2 by reflexivity. exact Hm1.
      * exact Hm2.
  - destruct (tasks m !! k) as [[[owner since X r kont]|]|] eqn:Hk; try discriminate.
    destruct (since + latency r <=? t); [|discriminate].
    destruct (decode r a) as [x|]; [|discriminate].
    injection H as <-.
    pose proof (Htasks k _ Hk) as Hm. simpl in Hm. destruct (Hm x) as [H1 H2].
    apply (resume_one_timer t owner k (kont x) m who);
      [eapply lookup_lt_Some; eauto| |exact H1|exact H2].
    split; [exact Htasks|]. split; [exact Hshots|exact Hact].
Qed.

Lemma play_one_timer E env schedule m m' :
  play E env m schedule = Some m' -> one_timer m -> one_timer m'.
Proof.
  revert m. induction schedule as [|[t s] rest IH]; intros m Hp H0; simpl in Hp.
  - injection Hp as <-. exact H0.
  - destruct (step E env m t s) as [m1|] eqn:Hs; [|discriminate].
    apply (IH m1 Hp). eapply step_one_timer; eauto.
Qed.

Lemma boot_one_timer E env cfg : one_timer (boot E env cfg).
Proof.
  unfold boot. destruct (monitorAndTransfer_timers E env cfg) as [Hm1 Hm2].
  apply (spawn_one_timer 0 0 _ _ (Some 0%nat)).
  - split; [|split].
    + cbn [tasks]. intros j o Hj. rewrite lookup_nil in Hj. discriminate.
    + cbn [timers]. intros j o Hj. rewrite lookup_nil in Hj. discriminate.
    + reflexivity.
  - cbn [tasks length]. rewrite bool_decide_eq_true_2 by reflexivity. exact Hm1.
  - exact Hm2.
Qed.

(** X4: the polling interval and the restart timeout of a network never
    coexist and never multiply. Of the timers that run a callback of the
    program (the [setInterval] of line 138 and the [setTimeout] of line
    188, which is what [timers] holds), at most one is pending at every
    moment of the event loop started for the network, under any schedule
    and through any number of failed starts and restarts: two polling
    loops never run side by side and restarts never pile up. The settling
    delays of line 127 are awaited promises, not counted here; several of
    them can be pending at once. *)
Theorem one_polling_or_restart_timer E env cfg schedule m :
  play E env (boot E env cfg) schedule = Some m ->
  (active (timers m) <= 1)%nat.
Proof.
  intros Hplay.
  destruct (play_one_timer E env schedule _ m Hplay (boot_one_timer E env cfg))
    as [who (_ & _ & Hact)].
  destruct who; lia.
Qed.

Lemma one_polling_or_restart_timer_witness :
  exists m,
    play ethersOk processEnv (boot ethersOk processEnv ethereum) failedStart = Some m
    /\ (active (timers m) <= 1)%nat.
Proof.
  assert (H : option_map (fun _ => tt)
                (play ethersOk processEnv (boot ethersOk processEnv ethereum) failedStart)
              = Some tt) by (vm_compute; reflexivity).
  destruct (play ethersOk processEnv (boot ethersOk processEnv ethereum) failedStart)
    as [m|] eqn:Hplay; [|discriminate].
  exists m. split; [reflexivity|].
  exact (one_polling_or_restart_timer ethersOk processEnv ethereum failedStart m Hplay).
Defined.

(** ** The settling delay *)

Lemma delay_mono {A} (p : async A) f f' :
  (f = true -> f' = true) -> sweeps_after_delay f p -> sweeps_after_delay f' p.
Proof.
  revert f f'.
  induction p as [a|e|h k IH|h k IH|k IH|v k IH|e k IH|X r k IH]; intros f f' Hf; simpl; auto.
  - intros H b. eapply IH; eauto.
  - intros H v. eapply IH; eauto.
  - apply IH; exact Hf.
  - intros [H1 H2]. split; [auto|].
    eapply IH; [|exact H2]. destruct (isMark e); auto.
  - intros H x. eapply IH; [|apply H].
    destruct f, f'; simpl; auto; intros _; try (specialize (Hf eq_refl); discriminate).
Qed.

Lemma delay_bind {A B} (p : async A) (g : A -> async B) f :
  sweeps_after_delay f p -> (forall a, sweeps_after_delay false (g a)) ->
  sweeps_after_delay f (bind p g).
Proof.
  revert f.
  induction p as [a|e|h k IH|h k IH|k IH|v k IH|e k IH|X r k IH]; intros f Hp Hg; simpl in *; auto.
  - apply (delay_mono (g a) false f); [discriminate|apply Hg].
  - destruct Hp as [H1 H2]. split; [exact H1|]. apply IH; assumption.
Qed.

Lemma delay_try_catch {A} (p : async A) (h : JsError -> async A) f :
  sweeps_after_delay f p -> (forall e, sweeps_after_delay false (h e)) ->
  sweeps_after_delay f (try_catch p h).
Proof.
  revert f.
  induction p as [a|e|t k IH|t k IH|k IH|v k IH|e k IH|X r k IH]; intros f Hp Hh; simpl in *; auto.
  - apply (delay_mono (h e) false f); [discriminate|apply Hh].
  - destruct Hp as [H1 H2]. split; [exact H1|]. apply IH; assumption.
Qed.

Lemma delay_for_each {T} (l : list T) (body : T -> async unit) :
  (forall x, sweeps_after_delay false (body x)) ->
  sweeps_after_delay false (for_each l body).
Proof.
  intros H. induction l as [|x l IH]; simpl; [exact I|].
  apply delay_bind; auto.
Qed.

Lemma delay_getTokenDetails E a f : sweeps_after_delay f (getTokenDetails E a).
Proof.
  unfold getTokenDetails. simpl. split; [discriminate|].
  destruct (new_Contract E a WithProvider) as [[]|e]; simpl; [|exact I].
  intros [s [d nm]]. exact I.
Qed.

Lemma delay_transferToken E cap a d : sweeps_after_delay true (transferToken E cap a d).
Proof.
  unfold transferToken. simpl. split; [reflexivity|].
  destruct (new_Contract E a WithWallet) as [[]|e0]; simpl;
    [|split; [discriminate|exact I]].
  intros [balance|e1]; simpl; [|split; [discriminate|exact I]].
  destruct ((balance =? 0) || String.eqb (toString balance) "0"); simpl; [exact I|].
  destruct (formatTokenAmount E balance (decimals d)) as [formatted|e2]; simpl;
    [|split; [discriminate|exact I]].
  split; [discriminate|].
  intros [tx|e3]; simpl; [|split; [discriminate|exact I]].
  intros [[]|e4]; simpl; repeat (split; [discriminate|]); exact I.
Qed.

(** On every path of the handler, the 60-second delay lies between the
    mark and the sweep. *)
Lemma delay_handleIncomingTransfer E cap log f :
  sweeps_after_delay f (handleIncomingTransfer E cap log).
Proof.
  unfold handleIncomingTransfer. cbn -[getTokenDetails transferToken].
  intros [|]; [exact I|]. cbn -[getTokenDetails transferToken].
  apply delay_bind; [apply delay_getTokenDetails|].
  intros d. cbn -[getTokenDetails transferToken]. split; [discriminate|].
  intros []. apply delay_bind; [apply delay_transferToken|].
  intros b. exact I.
Qed.

Lemma delay_pollingCallback E cap : sweeps_after_delay false (pollingCallback E cap).
Proof.
  unfold pollingCallback. apply delay_try_catch; [|intros e; exact I].
  cbn -[handleIncomingTransfer for_each].
  intros [h|e]; cbn -[handleIncomingTransfer for_each]; [|exact I].
  intros last. destruct (h >? last); cbn -[handleIncomingTransfer for_each]; [|exact I].
  destruct (zeroPadValue E (senderAddress cap) 32) as [topic|e];
    cbn -[handleIncomingTransfer for_each]; [|exact I].
  intros [logs|e]; cbn -[handleIncomingTransfer for_each]; [|exact I].
  apply delay_bind; [|intros; exact I].
  apply delay_for_each. intros l. apply delay_handleIncomingTransfer.
Qed.

(** Within one segment: a sweep needs the delay to have been awaited
    before the segment, and none follows a mark of the same segment. *)
Lemma advance_delay {A} (p : async A) f c :
  sweeps_after_delay f p ->
  (forall k e, nth_error (emitted (advance p c)) k = Some e -> isSweep e = true ->
     f = true
     /\ forall i e', (i < k)%nat -> nth_error (emitted (advance p c)) i = Some e' ->
                     isMark e' = false)
  /\ match at_await (advance p c) with
     | Blocked r k =>
         forall x, sweeps_after_delay
                     ((if existsb isMark (emitted (advance p c)) then false else f)
                      || isSettlingDelay r) (k x)
     | _ => True
     end.
Proof.
  revert f c.
  induction p as [a|e|h k IH|h k IH|k IH|v k IH|e k IH|X r k IH]; intros f c Hp; simpl in *.
  - split; [intros [|k] e H; discriminate | exact I].
  - split; [intros [|k] e0 H; discriminate | exact I].
  - apply IH, Hp.
  - destruct (IH false (markProcessed h c) Hp) as [H1 H2]. split.
    + intros [|k0] e Hk Hs; simpl in Hk; [injection Hk as <-; discriminate|].
      destruct (H1 k0 e Hk Hs) as [Hf _]. discriminate.
    + destruct (at_await (advance k (markProcessed h c))); auto.
      intros x. specialize (H2 x).
      destruct (existsb isMark (emitted (advance k (markProcessed h c)))); exact H2.
  - apply IH, Hp.
  - destruct (IH f (setLastChecked v c) Hp) as [H1 H2]. split.
    + intros [|k0] e Hk Hs; simpl in Hk; [injection Hk as <-; discriminate|].
      destruct (H1 k0 e Hk Hs) as [Hf Hm]. split; [exact Hf|].
      intros [|i] e' Hi He'; simpl in He'; [injection He' as <-; reflexivity|].
      apply (Hm i e'); [lia|exact He'].
    + exact H2.
  - destruct Hp as [Hs Hp].
    destruct (IH _ c Hp) as [H1 H2]. split.
    + intros [|k0] e0 Hk Hsw; simpl in Hk.
      * injection Hk as <-. split; [now apply Hs|]. intros i e' Hi. lia.
      * destruct (H1 k0 e0 Hk Hsw) as [Hf Hm].
        destruct (isMark e) eqn:He; [discriminate|]. split; [exact Hf|].
        intros [|i] e' Hi He'; simpl in He'; [injection He' as <-; exact He|].
        apply (Hm i e'); [lia|exact He'].
    + destruct (at_await (advance k c)); auto.
      intros x. specialize (H2 x).
      destruct (isMark e); simpl; [|exact H2].
      destruct (existsb isMark (emitted (advance k c))); exact H2.
  - split.
    + intros [|[|k0]] e Hk Hs; simpl in Hk; try discriminate.
      injection Hk as <-. discriminate.
    + intros x. apply Hp.
Qed.

Lemma settling_latency {X} (r : rpc X) : isSettlingDelay r = true -> latency r = 60000.
Proof. destruct r; simpl; try discriminate. intros H. lia. Qed.

Lemma nth_error_tagged (new : list entry) t slot evs i a j e :
  nth_error (new ++ map (fun e => (t, slot, e)) evs)%list i = Some (a, j, e) ->
  ((i < length new)%nat /\ nth_error new i = Some (a, j, e))
  \/ ((length new <= i)%nat /\ slot = j /\ a = t
      /\ nth_error evs (i - length new) = Some e).
Proof.
  intros H. destruct (Nat.lt_ge_cases i (length new)) as [Hlt|Hge].
  - left. split; [exact Hlt|]. rewrite nth_error_app1 in H; assumption.
  - right. rewrite nth_error_app2 in H by exact Hge.
    rewrite nth_error_map in H.
    destruct (nth_error evs (i - length new)) as [e0|]; simpl in H; [|discriminate].
    injection H as <- <- <-. auto.
Qed.

Lemma marks_until_mono j s s' new : s <= s' -> marks_until j s new -> marks_until j s' new.
Proof. intros Hs H a h Hin. specialize (H a h Hin). lia. Qed.

Lemma marks_until_other j s new t slot evs :
  slot <> j -> marks_until j s new ->
  marks_until j s (new ++ map (fun e => (t, slot, e)) evs).
Proof.
  intros Hne H a h Hin. apply in_app_or in Hin. destruct Hin as [Hin|Hin]; [eauto|].
  apply in_map_iff in Hin. destruct Hin as [e [He _]]. congruence.
Qed.

Lemma delayed_sweeps_other j new t slot evs :
  slot <> j -> delayed_sweeps j new ->
  delayed_sweeps j (new ++ map (fun e => (t, slot, e)) evs).
Proof.
  intros Hne H a h t' tok [i [k [Hik [Hi Hk]]]].
  apply nth_error_tagged in Hi. apply nth_error_tagged in Hk.
  destruct Hi as [[Hi1 Hi2]|[_ [Hi _]]]; [|congruence].
  destruct Hk as [[Hk1 Hk2]|[_ [Hk _]]]; [|congruence].
  apply (H a h t' tok). exists i, k. auto.
Qed.

(** A task other than [j] runs: the state of [j] is kept. *)
Lemma resume_delay_other j f new t i slot p m :
  slot <> j -> now m <= t ->
  delay_state j f new m ->
  delay_state j f (new ++ map (fun e => (t, slot, e)) (emitted (advance p (vars_of m i))))
              (resume t i slot p m).
Proof.
  intros Hne Ht (Ha & Hb & Hd & Hc). unfold delay_state. simpl.
  split; [|split; [|split]].
  - apply marks_until_other; [exact Hne|]. eapply marks_until_mono; eauto.
  - apply delayed_sweeps_other; assumption.
  - intros Hf. destruct (Hd Hf) as [s [Hs1 Hs2]]. exists s. split; [lia|].
    apply marks_until_other; assumption.
  - rewrite list_lookup_insert_ne by exact Hne.
    destruct (tasks m !! j) as [[[o since X r k]|]|]; auto.
    destruct Hc as (Hc1 & Hc2 & Hc3). split; [exact Hc1|]. split; [lia|].
    apply marks_until_other; assumption.
Qed.

(** Task [j] itself runs a segment. *)
Lemma resume_delay_own j f0 new t i p m :
  (j < length (tasks m))%nat ->
  marks_until j t new -> delayed_sweeps j new ->
  (f0 = true -> exists s, s + 60000 <= t /\ marks_until j s new) ->
  sweeps_after_delay f0 p ->
  exists f,
    delay_state j f (new ++ map (fun e => (t, j, e)) (emitted (advance p (vars_of m i))))
                (resume t i j p m).
Proof.
  intros Hj Ha Hb Hd Hp.
  destruct (advance_delay p f0 (vars_of m i) Hp) as [Hsw Hk].
  set (evs := emitted (advance p (vars_of m i))) in *.
  exists (if existsb isMark evs then false else f0).
  assert (Ha' : marks_until j t (new ++ map (fun e => (t, j, e)) evs)).
  { intros a h Hin. apply in_app_or in Hin. destruct Hin as [Hin|Hin]; [eauto|].
    apply in_map_iff in Hin. destruct Hin as [e [He _]]. injection He as <- _. lia. }
  unfold delay_state. simpl. split; [exact Ha'|]. split; [|split].
  - intros a h t' tok [x [y [Hxy [Hx Hy]]]].
    apply nth_error_tagged in Hx. apply nth_error_tagged in Hy.
    destruct Hy as [[Hy1 Hy2]|(Hy1 & _ & -> & Hy2)].
    + destruct Hx as [[Hx1 Hx2]|[Hx1 _]]; [|lia].
      apply (Hb a h t' tok). exists x, y. auto.
    + destruct (Hsw _ _ Hy2 eq_refl) as [Hf Hno].
      destruct Hx as [[Hx1 Hx2]|(Hx1 & _ & _ & Hx2)].
      * destruct (Hd Hf) as [s [Hs1 Hs2]].
        assert (a <= s) by (apply (Hs2 a h), nth_error_In with x; exact Hx2). lia.
      * assert (Hm : isMark (Marked h) = false).
        { apply (Hno (x - length new)%nat (Marked h)); [lia|exact Hx2]. }
        discriminate.
  - destruct (existsb isMark evs) eqn:Hex; [discriminate|].
    intros Hf. destruct (Hd Hf) as [s [Hs1 Hs2]]. exists s. split; [exact Hs1|].
    intros a h Hin. apply in_app_or in Hin. destruct Hin as [Hin|Hin]; [eauto|].
    apply in_map_iff in Hin. destruct Hin as [e [He Hin]]. injection He as _ He'. subst e.
    assert (Hc : existsb isMark evs = true) by (apply existsb_exists; exists (Marked h); auto).
    congruence.
  - rewrite list_lookup_insert_eq by exact Hj.
    destruct (at_await (advance p (vars_of m i))) as [| |X r k]; auto.
    split; [exact Hk|]. split; [lia|exact Ha'].
Qed.

Lemma delay_state_ext j f new m m' :
  now m' = now m -> tasks m' !! j = tasks m !! j ->
  delay_state j f new m -> delay_state j f new m'.
Proof. unfold delay_state. intros -> ->. auto. Qed.

Lemma spawn_delay_other j f new t i p m :
  (j < length (tasks m))%nat -> now m <= t ->
  delay_state j f new m ->
  exists evs slot,
    slot <> j
    /\ history (spawn t i p m) = (history m ++ map (fun e => (t, slot, e)) evs)%list
    /\ delay_state j f (new ++ map (fun e => (t, slot, e)) evs) (spawn t i p m)
    /\ (j < length (tasks (spawn t i p m)))%nat.
Proof.
  intros Hj Ht H. unfold spawn.
  match goal with |- context [resume t i ?s p ?m0] => set (m1 := m0) end.
  exists (emitted (advance p (vars_of m1 i))), (length (tasks m)).
  split; [lia|]. split; [reflexivity|]. split.
  - apply resume_delay_other; [lia|exact Ht|].
    apply (delay_state_ext j f new m m1); [reflexivity| |exact H].
    subst m1. simpl. apply lookup_app_l. exact Hj.
  - simpl. rewrite length_insert, length_app. lia.
Qed.

Lemma punctual_now t m : punctual t m = true -> now m <= t.
Proof. unfold punctual. intros H. apply andb_prop in H. destruct H as [H _]. lia. Qed.

Lemma step_delay E env j base m t s m' :
  step E env m t s = Some m' ->
  (exists f new, history m = (base ++ new)%list /\ delay_state j f new m
                 /\ (j < length (tasks m))%nat) ->
  exists f new, history m' = (base ++ new)%list /\ delay_state j f new m'
                /\ (j < length (tasks m'))%nat.
Proof.
  unfold step. destruct (punctual t m) eqn:Hp; [|discriminate].
  apply punctual_now in Hp.
  intros Hs (f & new & Hh & Hd & Hj). destruct s as [k|k a].
  - destruct (timers m !! k) as [[tm|]|]; try discriminate.
    destruct (due tm =? t); [|discriminate]. injection Hs as <-.
    unfold fire.
    match goal with |- context [set_timer k ?o m] => set (m1 := set_timer k o m) end.
    assert (Hd1 : delay_state j f new m1) by (revert Hd; apply delay_state_ext; reflexivity).
    destruct (cb tm) as [cap|cfg].
    + destruct (spawn_delay_other j f new t (t_owner tm) (pollingCallback E cap) m1 Hj Hp Hd1)
        as (evs & slot & _ & Hh' & Hd' & Hj').
      exists f, (new ++ map (fun e => (t, slot, e)) evs)%list.
      split; [|split; assumption].
      rewrite Hh'. subst m1. simpl. rewrite Hh. symmetry. apply app_assoc.
    + set (m2 := new_instance m1).
      assert (Hd2 : delay_state j f new m2) by (revert Hd1; apply delay_state_ext; reflexivity).
      destruct (spawn_delay_other j f new t (length (instances m1))
                  (monitorAndTransfer E env cfg) m2 Hj Hp Hd2)
        as (evs & slot & _ & Hh' & Hd' & Hj').
      exists f, (new ++ map (fun e => (t, slot, e)) evs)%list.
      split; [|split; assumption].
      rewrite Hh'. subst m2 m1. simpl. rewrite Hh. symmetry. apply app_assoc.
  - destruct (tasks m !! k) as [[[i since X r kk]|]|] eqn:Hk; try discriminate.
    destruct (since + latency r <=? t) eqn:Hl; [|discriminate].
    destruct (decode r a) as [x|]; [|discriminate]. injection Hs as <-.
    destruct (Nat.eq_dec k j) as [->|Hne].
    + destruct Hd as (Ha & Hb & Hsl & Hc). rewrite Hk in Hc.
      destruct Hc as (Hc1 & Hc2 & Hc3).
      destruct (resume_delay_own j (f || isSettlingDelay r) new t i (kk x) m) as [f' Hd'];
        auto.
      * eapply marks_until_mono; eauto.
      * intros Hf. apply orb_prop in Hf. destruct Hf as [Hf|Hf].
        -- destruct (Hsl Hf) as [s [Hs1 Hs2]]. exists s. split; [lia|exact Hs2].
        -- exists since. rewrite (settling_latency r Hf) in Hl. split; [lia|exact Hc3].
      * exists f', (new ++ map (fun e => (t, j, e)) (emitted (advance (kk x) (vars_of m i))))%list.
        split; [|split; [exact Hd'|]].
        -- simpl. rewrite Hh. symmetry. apply app_assoc.
        -- simpl. rewrite length_insert. exact Hj.
    + exists f, (new ++ map (fun e => (t, k, e)) (emitted (advance (kk x) (vars_of m i))))%list.
      split; [|split].
      * simpl. rewrite Hh. symmetry. apply app_assoc.
      * apply resume_delay_other; assumption.
      * simpl. rewrite length_insert. exact Hj.
Qed.

Lemma play_delay E env j base schedule : forall m m',
  play E env m schedule = Some m' ->
  (exists f new, history m = (base ++ new)%list /\ delay_state j f new m
                 /\ (j < length (tasks m))%nat) ->
  exists f new, history m' = (base ++ new)%list /\ delay_state j f new m'
                /\ (j < length (tasks m'))%nat.
Proof.
  induction schedule as [|[t s] rest IH]; intros m m' H Hinv; simpl in H.
  - injection H as <-. exact Hinv.
  - destruct (step E env m t s) as [m1|] eqn:Hs; [|discriminate].
    apply (IH m1 m' H). eapply step_delay; eauto.
Qed.

(** X5: a polling tick never sweeps within 60 seconds of marking.
    Let timer [j] of any event-loop state [m] hold the polling callback and
    fire, and let the loop go on under any schedule. In what the new tick
    (task [length (tasks m)]) does, every call of [transferToken] comes at
    least 60000 ms after every identifier the tick added to [processedTxs]
    before it: the settling delay of [handleIncomingTransfer] is always
    waited out, whatever the calls answer and however ticks interleave. *)
Theorem sweep_waits_for_settling_delay E env m j tm cap t0 schedule m' :
  timers m !! j = Some (Some tm) ->
  cb tm = PollingCallback cap ->
  play E env m ((t0, Fire j) :: schedule) = Some m' ->
  exists new,
    history m' = (history m ++ new)%list
    /\ forall a h t tok,
         precedes (a, length (tasks m), Marked h)
                  (t, length (tasks m), EnterTransferToken tok) new ->
         a + 60000 <= t.
Proof.
  intros Htm Hcb H. simpl in H.
  destruct (step E env m t0 (Fire j)) as [m1|] eqn:Hs; [|discriminate].
  assert (Hinv : exists f new, history m1 = (history m ++ new)%list
                               /\ delay_state (length (tasks m)) f new m1
                               /\ (length (tasks m) < length (tasks m1))%nat).
  { unfold step in Hs. destruct (punctual t0 m); [|discriminate].
    rewrite Htm in Hs. destruct (due tm =? t0); [|discriminate]. injection Hs as <-.
    unfold fire. rewrite Hcb. unfold spawn.
    match goal with |- context [resume t0 ?i ?s ?p ?m0] => set (m0' := m0) end.
    destruct (resume_delay_own (length (tasks m)) false [] t0 (t_owner tm)
                (pollingCallback E cap) m0') as [f Hd].
    - subst m0'. simpl. rewrite length_app. simpl. lia.
    - intros a h [].
    - intros a h t tok (x & y & _ & Hx & _). destruct x; discriminate.
    - discriminate.
    - apply delay_pollingCallback.
    - exists f. eexists. split; [|split; [exact Hd|]].
      + reflexivity.
      + simpl. rewrite length_insert, length_app. simpl. lia. }
  destruct (play_delay E env _ _ schedule m1 m' H Hinv) as (f & new & Hh & Hd & _).
  exists new. split; [exact Hh|].
  destruct Hd as (_ & Hb & _). exact Hb.
Qed.

Lemma sweep_waits_for_settling_delay_witness :
  exists m',
    play ethersOk processEnv armed ((15100, Fire 0%nat) :: afterFirstTick) = Some m'
    /\ precedes (15300, 1%nat, Marked "0xabc1") (75400, 1%nat, EnterTransferToken dai)
                (history m')
    /\ 15300 + 60000 <= 75400.
Proof.
  assert (H : option_map (fun m => (nth_error (history m) 2, nth_error (history m) 11))
                (play ethersOk processEnv armed ((15100, Fire 0%nat) :: afterFirstTick))
              = Some (Some (15300, 1%nat, Marked "0xabc1"),
                      Some (75400, 1%nat, EnterTransferToken dai)))
    by (vm_compute; reflexivity).
  destruct (play ethersOk processEnv armed ((15100, Fire 0%nat) :: afterFirstTick))
    as [m'|] eqn:Hplay; [|discriminate].
  simpl in H. injection H as H2 H11.
  assert (Hprec : precedes (15300, 1%nat, Marked "0xabc1")
                           (75400, 1%nat, EnterTransferToken dai) (history m')).
  { exists 2%nat, 11%nat. split; [lia|]. split; assumption. }
  exists m'. split; [reflexivity|]. split; [exact Hprec|].
  destruct (sweep_waits_for_settling_delay ethersOk processEnv armed 0 pollingTimer wallet
              15100 afterFirstTick m' eq_refl eq_refl Hplay) as (new & Hh & Hd).
  simpl in Hh. rewrite <- Hh in Hd.
  exact (Hd 15300 "0xabc1" 75400 dai Hprec).
Defined.

(** ** What the monitor only ever does *)

Lemma only_emits_bind {A B} Q (p : async A) (g : A -> async B) :
  only_emits Q p -> (forall a, only_emits Q (g a)) -> only_emits Q (bind p g).
Proof.
  induction p as [a|e|h k IH|h k IH|k IH|v k IH|e k IH|X r k IH]; intros Hp Hg; simpl in *; auto.
  - destruct Hp; auto.
  - destruct Hp; auto.
  - destruct Hp; auto.
  - destruct Hp; auto.
Qed.

Lemma only_emits_try_catch {A} Q (p : async A) (h : JsError -> async A) :
  only_emits Q p -> (forall e, only_emits Q (h e)) -> only_emits Q (try_catch p h).
Proof.
  induction p as [a|e|t k IH|t k IH|k IH|v k IH|e k IH|X r k IH]; intros Hp Hh; simpl in *; auto.
  - destruct Hp; auto.
  - destruct Hp; auto.
  - destruct Hp; auto.
  - destruct Hp; auto.
Qed.

Lemma only_emits_for_each {T} Q (l : list T) (body : T -> async unit) :
  (forall x, only_emits Q (body x)) -> only_emits Q (for_each l body).
Proof.
  intros H. induction l as [|x l IH]; simpl; [exact I|].
  apply only_emits_bind; auto.
Qed.

Lemma advance_only_emits {A} Q (p : async A) c :
  only_emits Q p ->
  Forall Q (emitted (advance p c))
  /\ match at_await (advance p c) with
     | Blocked r k => forall x, only_emits Q (k x)
     | _ => True
     end.
Proof.
  revert c.
  induction p as [a|e|h k IH|h k IH|k IH|v k IH|e k IH|X r k IH]; intros c Hp; simpl in *.
  - split; [constructor|exact I].
  - split; [constructor|exact I].
  - apply IH, Hp.
  - destruct Hp as [Hq Hp]. destruct (IH (markProcessed h c) Hp) as [H1 H2].
    split; [constructor; auto|exact H2].
  - apply IH, Hp.
  - destruct Hp as [Hq Hp]. destruct (IH (setLastChecked v c) Hp) as [H1 H2].
    split; [constructor; auto|exact H2].
  - destruct Hp as [Hq Hp]. destruct (IH c Hp) as [H1 H2]. split; [constructor; auto|exact H2].
  - destruct Hp as [Hq Hp]. split; [constructor; [exact Hq|constructor]|exact Hp].
Qed.

Lemma timers_of_callback t i evs j tm :
  timers_of t i evs !! j = Some (Some tm) ->
  exists e, In e evs /\ callbackOf e = Some (cb tm).
Proof.
  intros H. apply list_elem_of_lookup_2 in H. apply list_elem_of_In in H.
  unfold timers_of in H. apply filter_In in H. destruct H as [H _].
  apply in_map_iff in H. destruct H as [e [He Hin]]. exists e. split; [exact Hin|].
  destruct e; simpl in He; try discriminate; injection He as <-; reflexivity.
Qed.

Section Only.

Variable E : Ethers.
Variable env : ProcessEnv.
Variable Q : event -> Prop.
Hypothesis Hclosed : closed_under_callbacks E env Q.

Lemma resume_only t i slot p m :
  only_emits Q p -> emits_only E env Q m -> emits_only E env Q (resume t i slot p m).
Proof.
  intros Hp (Hh & Ht & Htm).
  destruct (advance_only_emits Q p (vars_of m i) Hp) as [Hev Hk].
  unfold emits_only, resume. cbn [history tasks timers]. split; [|split].
  - apply Forall_app. split; [exact Hh|].
    apply Forall_forall. intros x Hx. apply list_elem_of_In, in_map_iff in Hx.
    destruct Hx as [e [<- Hin]]. simpl.
    rewrite Forall_forall in Hev. apply Hev. apply list_elem_of_In. exact Hin.
  - intros j o. destruct (decide (slot = j)) as [->|Hne].
    + destruct (decide (j < length (tasks m))%nat) as [Hlt|Hge].
      * rewrite list_lookup_insert_eq by exact Hlt. intros [= <-].
        destruct (at_await (advance p (vars_of m i))); simpl; auto.
      * rewrite list_insert_ge by lia. apply Ht.
    + rewrite list_lookup_insert_ne by exact Hne. apply Ht.
  - intros j tm Hj. apply lookup_app_Some in Hj as [Hj|[_ Hj]]; [now apply (Htm j)|].
    apply timers_of_callback in Hj. destruct Hj as [e [Hin Hcb]].
    apply (Hclosed e _ Hcb).
    rewrite Forall_forall in Hev. apply Hev. apply list_elem_of_In. exact Hin.
Qed.

Lemma spawn_only t i p m :
  only_emits Q p -> emits_only E env Q m -> emits_only E env Q (spawn t i p m).
Proof.
  intros Hp (Hh & Ht & Htm). unfold spawn. apply resume_only; [exact Hp|].
  split; [exact Hh|]. split; [|exact Htm].
  cbn [tasks]. intros j o Hj.
  apply lookup_app_Some in Hj as [Hj|[_ Hj]]; [now apply (Ht j)|].
  apply list_lookup_singleton_Some in Hj as [_ <-]. exact I.
Qed.

Lemma step_only m t s m' :
  step E env m t s = Some m' -> emits_only E env Q m -> emits_only E env Q m'.
Proof.
  unfold step. intros H Hm.
  destruct (punctual t m); [|discriminate].
  destruct s as [k|k a].
  - destruct (timers m !! k) as [[tm|]|] eqn:Hk; try discriminate.
    destruct (due tm =? t); [|discriminate].
    injection H as <-. destruct Hm as (Hh & Ht & Htm).
    pose proof (Htm k tm Hk) as Hcb.
    assert (Hm1 : forall o, (match o with Some tm' => cb tm' = cb tm | None => True end) ->
                            emits_only E env Q (set_timer k o m)).
    { intros o Ho. split; [exact Hh|]. split; [exact Ht|].
      cbn [timers set_timer]. intros j tm' Hj.
      destruct (decide (k = j)) as [->|Hne].
      - apply list_lookup_insert_Some in Hj. destruct Hj as [(_ & Hj & _)|[Hj _]]; [|congruence].
        subst o. rewrite Ho. exact Hcb.
      - rewrite list_lookup_insert_ne in Hj by exact Hne. now apply (Htm j). }
    unfold fire.
    match goal with |- context [set_timer k ?o m] => specialize (Hm1 o) end.
    assert (Hm1' := Hm1 ltac:(destruct (every tm); simpl; auto)).
    destruct (cb tm) as [cap|cfg]; simpl in Hcb.
    + apply spawn_only; assumption.
    + apply spawn_only; [exact Hcb|].
      destruct Hm1' as (H1 & H2 & H3). split; [exact H1|]. split; [exact H2|exact H3].
  - destruct (tasks m !! k) as [[[owner since X r kont]|]|] eqn:Hk; try discriminate.
    destruct (since + latency r <=? t); [|discriminate].
    destruct (decode r a) as [x|]; [|discriminate].
    injection H as <-.
    apply resume_only; [|exact Hm]. destruct Hm as (_ & Ht & _). apply (Ht k _ Hk x).
Qed.

Lemma play_only schedule : forall m m',
  play E env m schedule = Some m' -> emits_only E env Q m -> emits_only E env Q m'.
Proof.
  induction schedule as [|[t s] rest IH]; intros m m' Hp H0; simpl in Hp.
  - injection Hp as <-. exact H0.
  - destruct (step E env m t s) as [m1|] eqn:Hs; [|discriminate].
    apply (IH m1 m' Hp). eapply step_only; eauto.
Qed.

Lemma boot_only cfg :
  only_emits Q (monitorAndTransfer E env cfg) -> emits_only E env Q (boot E env cfg).
Proof.
  intros H. unfold boot. apply spawn_only; [exact H|].
  split; [constructor|]. split.
  - intros j o Hj. cbn [tasks] in Hj. rewrite lookup_nil in Hj. discriminate.
  - intros j tm Hj. cbn [timers] in Hj. rewrite lookup_nil in Hj. discriminate.
Qed.

End Only.

Section Programs.

Variable E : Ethers.
Variable Q : event -> Prop.

(** [Q] restricts only timers, transfers and delays other than the
    settling delay. *)
Hypothesis Hother :
  forall e,
    callbackOf e = None ->
    (forall q, e = Issued q ->
               transfersOf q = [] /\ forall ms, In ms (sleepsOf q) -> ms = 60000) ->
    Q e.

Ltac other :=
  apply Hother;
  [ reflexivity
  | let q := fresh "q" in
    let H := fresh "H" in
    intros q H;
    first [ discriminate H
          | injection H as <-; split; [reflexivity|];
            let ms := fresh "ms" in
            let Hin := fresh "Hin" in
            intros ms Hin; simpl in Hin; intuition ] ].

Lemma only_getTokenDetails a : only_emits Q (getTokenDetails E a).
Proof.
  unfold getTokenDetails. simpl. split; [other|].
  destruct (new_Contract E a WithProvider) as [[]|e]; simpl; [|exact I].
  split; [other|]. intros [s [d nm]]. exact I.
Qed.

Lemma only_transferToken cap a d :
  (forall b, b <> 0 -> Q (Issued (RTransfer a (recipient cap) b))) ->
  only_emits Q (transferToken E cap a d).
Proof.
  intros Ht. unfold transferToken. simpl. split; [other|].
  destruct (new_Contract E a WithWallet) as [[]|e0]; simpl;
    [|split; [other|exact I]].
  split; [other|].
  intros [balance|e1]; simpl; [|split; [other|exact I]].
  destruct (balance =? 0) eqn:Hz; simpl; [exact I|].
  destruct (String.eqb (toString balance) "0"); simpl; [exact I|].
  destruct (formatTokenAmount E balance (decimals d)) as [formatted|e2]; simpl;
    [|split; [other|exact I]].
  split; [other|]. split; [apply Ht; lia|].
  intros [tx|e3]; simpl; [|split; [other|exact I]].
  split; [other|].
  intros [[]|e4]; simpl; repeat (split; [other|]); exact I.
Qed.

Lemma only_handleIncomingTransfer cap log :
  (forall a b, b <> 0 -> Q (Issued (RTransfer a (recipient cap) b))) ->
  only_emits Q (handleIncomingTransfer E cap log).
Proof.
  intros Ht. unfold handleIncomingTransfer. cbn -[getTokenDetails transferToken].
  intros [|]; [exact I|]. cbn -[getTokenDetails transferToken].
  split; [other|].
  apply only_emits_bind; [apply only_getTokenDetails|].
  intros d. cbn -[getTokenDetails transferToken]. split; [other|]. split; [other|].
  intros []. apply only_emits_bind; [apply only_transferToken, Ht|].
  intros b. exact I.
Qed.

Lemma only_pollingCallback cap :
  (forall a b, b <> 0 -> Q (Issued (RTransfer a (recipient cap) b))) ->
  only_emits Q (pollingCallback E cap).
Proof.
  intros Ht. unfold pollingCallback. apply only_emits_try_catch; [|intros e; exact I].
  cbn -[handleIncomingTransfer for_each]. split; [other|].
  intros [h|e]; cbn -[handleIncomingTransfer for_each]; [|exact I].
  intros last. destruct (h >? last); cbn -[handleIncomingTransfer for_each]; [|exact I].
  destruct (zeroPadValue E (senderAddress cap) 32) as [topic|e];
    cbn -[handleIncomingTransfer for_each]; [|exact I].
  split; [other|].
  intros [logs|e]; cbn -[handleIncomingTransfer for_each]; [|exact I].
  apply only_emits_bind.
  - apply only_emits_for_each. intros l. apply only_handleIncomingTransfer, Ht.
  - intros []. simpl. split; [other|exact I].
Qed.

Lemma only_customTokenPass cap tokens :
  (forall a b, b <> 0 -> Q (Issued (RTransfer a (recipient cap) b))) ->
  only_emits Q (customTokenPass E cap tokens).
Proof.
  intros Ht. unfold customTokenPass.
  destruct (0 <? length tokens)%nat; [|exact I].
  cbn -[getTokenDetails transferToken for_each]. split; [other|].
  apply only_emits_for_each. intros a.
  apply only_emits_bind; [apply only_getTokenDetails|].
  intros d. apply only_emits_bind; [apply only_transferToken, Ht|].
  intros b. exact I.
Qed.

Lemma only_onStartupError cfg err :
  Q (SetTimeout (RestartCallback cfg) 30000) ->
  only_emits Q (onStartupError cfg err).
Proof.
  intros Hr. unfold onStartupError. destruct (isInvalidPrivateKey err); simpl.
  - split; [other|exact I].
  - split; [other|]. split; [other|]. split; [exact Hr|exact I].
Qed.

Lemma only_monitorAndTransfer env cfg :
  (forall a b, b <> 0 -> Q (Issued (RTransfer a (RECIPIENT_ADDRESS env) b))) ->
  (forall addr,
     Q (SetInterval (PollingCallback {| network := name cfg;
                                        senderAddress := Js.toLowerCase addr;
                                        recipient := RECIPIENT_ADDRESS env |}) 15000)) ->
  Q (SetTimeout (RestartCallback cfg) 30000) ->
  only_emits Q (monitorAndTransfer E env cfg).
Proof.
  intros Ht Hi Hr.
  pose proof (only_onStartupError cfg) as Hh.
  unfold monitorAndTransfer. apply only_emits_try_catch; [|intros e; apply Hh, Hr].
  unfold startup.
  destruct (new_JsonRpcProvider E (rpcUrl cfg)) as [[]|e];
    cbn -[customTokenPass customTokenAddresses]; [|exact I].
  destruct (new_Wallet E (PRIVATE_KEY env)) as [[]|e];
    cbn -[customTokenPass customTokenAddresses]; [|exact I].
  split; [other|].
  intros [addr|e]; cbn -[customTokenPass customTokenAddresses]; [|exact I].
  destruct (repeat_count (45 - Z.of_nat (String.length (name cfg)))) as [[]|e];
    cbn -[customTokenPass customTokenAddresses]; [|exact I].
  split; [other|]. split; [other|].
  intros [h|e]; cbn -[customTokenPass customTokenAddresses]; [|exact I].
  split; [other|]. split; [other|]. split; [apply Hi|].
  apply only_customTokenPass. intros a b Hb. simpl. apply (Ht a b Hb).
Qed.

End Programs.

Lemma to_recipient_other R e :
  callbackOf e = None ->
  (forall q, e = Issued q ->
             transfersOf q = [] /\ forall ms, In ms (sleepsOf q) -> ms = 60000) ->
  to_recipient R e.
Proof.
  intros Hcb Hq. destruct e; simpl in *; try exact I; try discriminate.
  intros token to amount Hin. rewrite (proj1 (Hq r eq_refl)) in Hin. destruct Hin.
Qed.

Lemma to_recipient_transfer R a b : b <> 0 -> to_recipient R (Issued (RTransfer a R b)).
Proof.
  intros Hb token to amount [Hin|[]]. injection Hin as _ <- <-. auto.
Qed.

Lemma to_recipient_closed E env :
  closed_under_callbacks E env (to_recipient (RECIPIENT_ADDRESS env)).
Proof.
  assert (Hm : forall cfg, only_emits (to_recipient (RECIPIENT_ADDRESS env))
                                      (monitorAndTransfer E env cfg)).
  { intros cfg. apply only_monitorAndTransfer.
    - apply to_recipient_other.
    - intros a b. apply to_recipient_transfer.
    - intros addr. reflexivity.
    - exact I. }
  assert (Hp : forall cap, recipient cap = RECIPIENT_ADDRESS env ->
                           only_emits (to_recipient (RECIPIENT_ADDRESS env))
                                      (pollingCallback E cap)).
  { intros cap Hcap. apply only_pollingCallback.
    - apply to_recipient_other.
    - intros a b. rewrite Hcap. apply to_recipient_transfer. }
  intros e cb Hcb Hq.
  destruct e; simpl in Hcb; try discriminate; injection Hcb as ->;
    destruct cb as [cap|cfg]; simpl in *; auto.
Qed.

Lemma history_to_recipient E env cfg schedule m :
  play E env (boot E env cfg) schedule = Some m ->
  Forall (fun x : entry => to_recipient (RECIPIENT_ADDRESS env) (snd x)) (history m).
Proof.
  intros Hplay.
  pose proof (to_recipient_closed E env) as Hc.
  assert (Hm : emits_only E env (to_recipient (RECIPIENT_ADDRESS env)) m).
  { apply (play_only E env _ Hc schedule _ m Hplay).
    apply boot_only; [exact Hc|].
    apply (Hc (SetTimeout (RestartCallback cfg) 30000) _ eq_refl I). }
  apply Hm.
Qed.

(** X6: the monitor only ever sends tokens to the configured recipient.
    In the event loop started for a network, under any schedule and
    whatever the chain answers (through the custom-token pass, every
    polling tick and every restart), every [transfer] call the program
    makes has [RECIPIENT_ADDRESS] as its destination and moves a non-zero
    amount. *)
Theorem transfers_go_to_recipient E env cfg schedule m :
  play E env (boot E env cfg) schedule = Some m ->
  forall t j q token to amount,
    In (t, j, Issued q) (history m) ->
    In (token, to, amount) (transfersOf q) ->
    to = RECIPIENT_ADDRESS env /\ amount <> 0.
Proof.
  intros Hplay t j q token to amount Hin Hq.
  pose proof (history_to_recipient E env cfg schedule m Hplay) as Hh.
  rewrite Forall_forall in Hh.
  apply list_elem_of_In in Hin. specialize (Hh _ Hin). simpl in Hh.
  apply (Hh token to amount Hq).
Qed.

Lemma known_timer_closed E env cfg : closed_under_callbacks E env (known_timer env cfg).
Proof.
  assert (Ho : forall e,
               callbackOf e = None ->
               (forall q, e = Issued q ->
                          transfersOf q = [] /\ forall ms, In ms (sleepsOf q) -> ms = 60000) ->
               known_timer env cfg e).
  { intros e Hcb Hq. destruct e; simpl in *; try exact I; try discriminate.
    apply (Hq r eq_refl). }
  intros e cb Hcb Hq.
  destruct e; simpl in Hcb; try discriminate; injection Hcb as ->; simpl in Hq.
  - destruct Hq as (_ & cap & -> & _). unfold program_of.
    apply only_pollingCallback; [exact Ho|]. intros a b _ ms' [].
  - destruct Hq as (_ & ->). unfold program_of.
    apply only_monitorAndTransfer; [exact Ho| | |].
    + intros a b _ ms' [].
    + intros addr. simpl. split; [reflexivity|]. eexists. split; [reflexivity|]. auto.
    + simpl. auto.
Qed.

(** X7: the timers a monitor sets. In the event loop started for the
    network [cfg], under any schedule, every [setInterval] ever called
    registers the polling callback of this network, sweeping to
    [RECIPIENT_ADDRESS], with a period of 15000 ms (line 138); every
    [setTimeout] ever called with a callback of the program registers a
    restart of [monitorAndTransfer] for the same [cfg] after 30000 ms (line
    188), so a restart never changes the network; and every delay ever
    awaited, the [setTimeout(resolve, ...)] of line 127, lasts 60000 ms.
    The program sets no other timer. *)
Theorem registered_timers E env cfg schedule m :
  play E env (boot E env cfg) schedule = Some m ->
  forall t j,
    (forall cb ms,
       In (t, j, SetInterval cb ms) (history m) ->
       ms = 15000
       /\ exists cap, cb = PollingCallback cap
                      /\ network cap = name cfg /\ recipient cap = RECIPIENT_ADDRESS env)
    /\ (forall cb ms,
          In (t, j, SetTimeout cb ms) (history m) ->
          ms = 30000 /\ cb = RestartCallback cfg)
    /\ (forall q ms,
          In (t, j, Issued q) (history m) -> In ms (sleepsOf q) -> ms = 60000).
Proof.
  intros Hplay t j.
  pose proof (known_timer_closed E env cfg) as Hc.
  assert (Hm : emits_only E env (known_timer env cfg) m).
  { apply (play_only E env _ Hc schedule _ m Hplay).
    apply boot_only; [exact Hc|].
    apply (Hc (SetTimeout (RestartCallback cfg) 30000) _ eq_refl).
    simpl. auto. }
  destruct Hm as [Hh _]. rewrite Forall_forall in Hh.
  split; [|split].
  - intros cb ms Hin. apply list_elem_of_In in Hin. apply (Hh _ Hin).
  - intros cb ms Hin. apply list_elem_of_In in Hin. apply (Hh _ Hin).
  - intros q ms Hin Hms. apply list_elem_of_In in Hin. apply (Hh _ Hin ms Hms).
Qed.

Lemma transfers_go_to_recipient_witness :
  exists m,
    play ethersOk envTwoTokens (boot ethersOk envTwoTokens ethereum) tickDuringPass = Some m
    /\ forall t j q token to amount,
         In (t, j, Issued q) (history m) ->
         In (token, to, amount) (transfersOf q) ->
         to = "0xrecipient" /\ amount <> 0.
Proof.
  assert (H : option_map (fun _ => tt)
                (play ethersOk envTwoTokens (boot ethersOk envTwoTokens ethereum)
                      tickDuringPass)
              = Some tt) by (vm_compute; reflexivity).
  destruct (play ethersOk envTwoTokens (boot ethersOk envTwoTokens ethereum) tickDuringPass)
    as [m|] eqn:Hplay; [|discriminate].
  exists m. split; [reflexivity|].
  exact (transfers_go_to_recipient ethersOk envTwoTokens ethereum tickDuringPass m Hplay).
Defined.

Lemma registered_timers_witness :
  exists m,
    play ethersOk processEnv (boot ethersOk processEnv ethereum) overlappingTicks = Some m
    /\ In (15400, 1%nat, Issued (RSleep 60000)) (history m)
    /\ forall t j,
         (forall cb ms,
            In (t, j, SetInterval cb ms) (history m) ->
            ms = 15000
            /\ exists cap, cb = PollingCallback cap
                           /\ network cap = "Ethereum" /\ recipient cap = "0xrecipient")
         /\ (forall cb ms,
               In (t, j, SetTimeout cb ms) (history m) ->
               ms = 30000 /\ cb = RestartCallback ethereum)
         /\ (forall q ms,
               In (t, j, Issued q) (history m) -> In ms (sleepsOf q) -> ms = 60000).
Proof.
  assert (H : option_map (fun m => nth_error (history m) 12)
                (play ethersOk processEnv (boot ethersOk processEnv ethereum) overlappingTicks)
              = Some (Some (15400, 1%nat, Issued (RSleep 60000))))
    by (vm_compute; reflexivity).
  destruct (play ethersOk processEnv (boot ethersOk processEnv ethereum) overlappingTicks)
    as [m|] eqn:Hplay; [|discriminate].
  cbn [option_map] in H. injection H as H.
  exists m. split; [reflexivity|]. split; [exact (nth_error_In (history m) 12 H)|].
  exact (registered_timers ethersOk processEnv ethereum overlappingTicks m Hplay).
Defined.

Lemma truthy_Some v : truthy v = true -> exists s, v = Some s /\ s <> EmptyString.
Proof.
  destruct v as [s|]; simpl; [|discriminate].
  intros H. exists s. split; [reflexivity|]. intros ->. discriminate.
Qed.

(** X12: from the environment to the chain. When [main] starts monitors,
    the private key, the recipient and the RPC URL of every monitor are not
    empty, and in the event loop of each of them, under any schedule, every
    [transfer] call goes to the [RECIPIENT_ADDRESS] of the environment and
    moves a non-zero amount. *)
Theorem main_monitors_sweep_to_recipient E raw out monitors cfg schedule m :
  main raw = Monitors out monitors ->
  In cfg monitors ->
  play E (processEnvOf raw) (boot E (processEnvOf raw) cfg) schedule = Some m ->
  exists R,
    env_RECIPIENT_ADDRESS raw = Some R
    /\ R <> EmptyString
    /\ PRIVATE_KEY (processEnvOf raw) <> EmptyString
    /\ rpcUrl cfg <> EmptyString
    /\ forall t j q token to amount,
         In (t, j, Issued q) (history m) ->
         In (token, to, amount) (transfersOf q) ->
         to = R /\ amount <> 0.
Proof.
  unfold main. intros Hmain Hin Hplay.
  destruct (truthy (env_PRIVATE_KEY raw)) eqn:Hk; simpl in Hmain; [|discriminate].
  destruct (truthy (env_RECIPIENT_ADDRESS raw)) eqn:Hr; simpl in Hmain; [|discriminate].
  destruct (length (networkConfigs raw) =? 0)%nat; [discriminate|].
  injection Hmain as _ <-.
  apply truthy_Some in Hk. destruct Hk as (key & Hkey & Hkne).
  apply truthy_Some in Hr. destruct Hr as (R & HR & HRne).
  exists R. split; [exact HR|]. split; [exact HRne|]. split; [|split].
  - simpl. rewrite Hkey. exact Hkne.
  - unfold networkConfigs in Hin. apply in_map_iff in Hin.
    destruct Hin as [[n u] [<- Hin]]. apply filter_In in Hin as [_ Ht]. simpl in *.
    apply truthy_Some in Ht. destruct Ht as (s & -> & Hs). exact Hs.
  - intros t j q token to amount Hq Ht.
    pose proof (history_to_recipient E (processEnvOf raw) cfg schedule m Hplay) as Hh.
    rewrite Forall_forall in Hh.
    apply list_elem_of_In in Hq. specialize (Hh _ Hq). simpl in Hh.
    destruct (Hh token to amount Ht) as [Hto Hamt].
    split; [|exact Hamt]. rewrite Hto, HR. reflexivity.
Qed.

Lemma main_monitors_sweep_to_recipient_witness :
  exists out m,
    main rawEnv = Monitors out [ethereum; {| name := "Base"; rpcUrl := "https://base.example" |}]
    /\ play ethersOk (processEnvOf rawEnv) (boot ethersOk (processEnvOf rawEnv) ethereum)
            tickDuringPass = Some m
    /\ In (300, 0%nat, Issued (RTransfer dai "0xrecipient" 1000)) (history m)
    /\ In (12600, 0%nat, Issued (RTransfer usdt "0xrecipient" 500)) (history m)
    /\ forall t j q token to amount,
         In (t, j, Issued q) (history m) ->
         In (token, to, amount) (transfersOf q) ->
         to = "0xrecipient" /\ amount <> 0.
Proof.
  assert (H : option_map (fun m => (nth_error (history m) 12, nth_error (history m) 21))
                (play ethersOk (processEnvOf rawEnv)
                      (boot ethersOk (processEnvOf rawEnv) ethereum) tickDuringPass)
              = Some (Some (300, 0%nat, Issued (RTransfer dai "0xrecipient" 1000)),
                      Some (12600, 0%nat, Issued (RTransfer usdt "0xrecipient" 500))))
    by (vm_compute; reflexivity).
  destruct (play ethersOk (processEnvOf rawEnv)
                 (boot ethersOk (processEnvOf rawEnv) ethereum) tickDuringPass)
    as [m|] eqn:Hplay; [|discriminate].
  cbn [option_map] in H. injection H as H12 H21.
  destruct (main_monitors_sweep_to_recipient ethersOk rawEnv _ _ ethereum tickDuringPass m
              eq_refl (or_introl eq_refl) Hplay) as (R & HR & _ & _ & _ & Hall).
  injection HR as <-.
  eexists. exists m. split; [reflexivity|]. split; [reflexivity|].
  split; [exact (nth_error_In (history m) 12 H12)|].
  split; [exact (nth_error_In (history m) 21 H21)|].
  exact Hall.
Defined.

(** ** What one sweep and one start do *)

(** X8: the calls of one sweep. Whatever the chain answers,
    [transferToken] leaves the variables alone and awaits nothing but: the
    balance of the wallet in the token; then, only if that balance was read
    and is not zero and could be formatted, one [transfer] of exactly that
    balance of that token to the recipient; then, only if that transfer was
    answered with a transaction, one [wait] on that transaction. *)
Theorem transferToken_sends_whole_balance E cap a d (o : oracle) c n :
  let r := run o (transferToken E cap a d) c n in
  let sender := senderAddress cap in
  vars r = c
  /\ (issued (trace r) = []
      \/ issued (trace r) = [RBalanceOf a sender]
      \/ exists balance formatted,
           o n _ (BalanceOf a sender) = Ok balance
           /\ balance <> 0
           /\ formatTokenAmount E balance (decimals d) = Ok formatted
           /\ (issued (trace r) = [RBalanceOf a sender; RTransfer a (recipient cap) balance]
               \/ exists tx,
                    o (S n) _ (Transfer a (recipient cap) balance) = Ok tx
                    /\ issued (trace r)
                       = [RBalanceOf a sender; RTransfer a (recipient cap) balance;
                          RWaitTx (hash tx)])).
Proof.
  unfold transferToken. simpl.
  destruct (new_Contract E a WithWallet) as [[]|e0]; simpl; [|auto].
  destruct (o n _ (BalanceOf a (senderAddress cap))) as [balance|e1] eqn:Hb; simpl; [|auto].
  rewrite is_zero_spec.
  destruct (Z.eqb_spec balance 0) as [->|Hnz]; simpl; [auto|].
  destruct (formatTokenAmount E balance (decimals d)) as [formatted|e2] eqn:Hf; simpl; [|auto].
  destruct (o (S n) _ (Transfer a (recipient cap) balance)) as [tx|e3] eqn:Ht; simpl.
  2:{ split; [reflexivity|]. right. right. exists balance, formatted. auto. }
  destruct (o (S (S n)) _ (WaitTx (hash tx))) as [[]|e4]; simpl;
    (split; [reflexivity|]; right; right; exists balance, formatted;
     split; [reflexivity|]; split; [exact Hnz|]; split; [exact Hf|];
     right; exists tx; auto).
Qed.

Ltac start_failed e :=
  unfold or_else, logged; cbn [res vars trace awaited];
  rewrite onStartupError_run; cbn [res vars trace awaited];
  split;
  [ split;
    [ intros (cb0 & ms0 & Hin); exfalso; revert Hin;
      destruct (isInvalidPrivateKey e); simpl; intuition discriminate
    | intros (H1 & H2 & (addr0 & H3) & H4 & (h0 & H5)); try discriminate ]
  | intros H1 (H2 & H3 & (addr0 & H4) & H5 & (h0 & H6)); try discriminate ].

(** X10: when polling starts. One call of [monitorAndTransfer] registers the
    polling interval exactly when the five steps before it succeed: the
    provider and the wallet are built, the wallet address is read, the
    network name has at most 45 characters (the banner repeats a rule
    [45 - name.length] times), and the block height is read. With no usable
    address in [CUSTOM_TOKENS] (unset and empty included) such a start
    awaits those two calls and nothing more, and ends with
    [lastCheckedBlock] at the height read and [processedTxs] untouched. *)
Theorem polling_starts_iff E env cfg (o : oracle) c n :
  let r := run o (monitorAndTransfer E env cfg) c n in
  let started :=
    new_JsonRpcProvider E (rpcUrl cfg) = Ok tt
    /\ new_Wallet E (PRIVATE_KEY env) = Ok tt
    /\ (exists addr, o n _ GetAddress = Ok addr)
    /\ (String.length (name cfg) <= 45)%nat
    /\ (exists h, o (S n) _ GetBlockNumber = Ok h) in
  ((exists cb ms, In (SetInterval cb ms) (trace r)) <-> started)
  /\ (customTokenAddresses (CUSTOM_TOKENS env) = [] -> started ->
      exists addr h,
        o n _ GetAddress = Ok addr /\ o (S n) _ GetBlockNumber = Ok h
        /\ r = Ran (Returned tt) (setLastChecked h c)
                 [Issued RGetAddress;
                  LogBanner (name cfg) (Js.toLowerCase addr) (RECIPIENT_ADDRESS env);
                  Issued RGetBlockNumber;
                  Assigned h;
                  LogMonitoringFrom h;
                  SetInterval (PollingCallback {| network := name cfg;
                                                  senderAddress := Js.toLowerCase addr;
                                                  recipient := RECIPIENT_ADDRESS env |}) 15000]
                 (S (S n)))
  /\ customTokenAddresses None = []
  /\ customTokenAddresses (Some EmptyString) = [].
Proof.
  intros r started. subst r started.
  match goal with |- ?A /\ ?B /\ _ =>
    enough (Hab : A /\ B)
      by (destruct Hab; split; [assumption|split; [assumption|split; reflexivity]])
  end.
  unfold monitorAndTransfer. rewrite run_try_catch. unfold startup.
  destruct (new_JsonRpcProvider E (rpcUrl cfg)) as [[]|e] eqn:Hp;
    cbn -[customTokenPass customTokenAddresses]; [|start_failed e].
  destruct (new_Wallet E (PRIVATE_KEY env)) as [[]|e] eqn:Hw;
    cbn -[customTokenPass customTokenAddresses]; [|start_failed e].
  destruct (o n _ GetAddress) as [addr|e] eqn:Ha;
    cbn -[customTokenPass customTokenAddresses]; [|start_failed e].
  destruct (repeat_count (45 - Z.of_nat (String.length (name cfg)))) as [[]|e] eqn:Hr;
    cbn -[customTokenPass customTokenAddresses].
  2:{ unfold repeat_count in Hr.
      destruct (Z.ltb_spec (45 - Z.of_nat (String.length (name cfg))) 0) as [Hlong|_];
        [|discriminate].
      start_failed e; lia. }
  destruct (o (S n) _ GetBlockNumber) as [h|e] eqn:Hh;
    cbn -[customTokenPass customTokenAddresses]; [|start_failed e].
  assert (Hlen : (String.length (name cfg) <= 45)%nat).
  { unfold repeat_count in Hr.
    destruct (Z.ltb_spec (45 - Z.of_nat (String.length (name cfg))) 0); [discriminate|lia]. }
  match goal with |- context [run o (customTokenPass E ?cap ?l) ?c1 ?n1] =>
    destruct (customTokenPass_run E cap l o c1 n1) as (tr & n' & Hrun & _) end.
  split.
  - rewrite Hrun. unfold or_else, logged. cbn [res vars trace awaited]. split.
    + intros _. repeat split; eauto.
    + intros _. do 2 eexists. simpl. do 5 right. left. reflexivity.
  - intros Hnone _. exists addr, h. split; [reflexivity|]. split; [reflexivity|].
    rewrite Hnone. reflexivity.
Qed.

Lemma polling_starts_iff_witness :
  exists addr h,
    scripted [AString "0xWALLET"; ANumber 10] 0%nat _ GetAddress = Ok addr
    /\ scripted [AString "0xWALLET"; ANumber 10] 1%nat _ GetBlockNumber = Ok h
    /\ run (scripted [AString "0xWALLET"; ANumber 10])
           (monitorAndTransfer ethersOk processEnv ethereum) fresh 0
       = Ran (Returned tt) (setLastChecked h fresh)
             [Issued RGetAddress;
              LogBanner "Ethereum" (Js.toLowerCase addr) "0xrecipient";
              Issued RGetBlockNumber;
              Assigned h;
              LogMonitoringFrom h;
              SetInterval (PollingCallback {| network := "Ethereum";
                                              senderAddress := Js.toLowerCase addr;
                                              recipient := "0xrecipient" |}) 15000]
             2.
Proof.
  destruct (polling_starts_iff ethersOk processEnv ethereum
              (scripted [AString "0xWALLET"; ANumber 10]) fresh 0) as (_ & Hstart & _).
  assert (Hlen : (String.length (name ethereum) <= 45)%nat) by (simpl; lia).
  apply Hstart; [reflexivity|].
  split; [reflexivity|]. split; [reflexivity|].
  split; [exists "0xWALLET"; reflexivity|]. split; [exact Hlen|].
  exists 10. reflexivity.
Defined.

(** ** Marking and the checkpoint of a tick *)

Lemma marks_mono {A} (p : async A) known all (Q Q' : A -> gset string -> gset string -> Prop) :
  (forall a kn al, Q a kn al -> Q' a kn al) ->
  marks p known all Q -> marks p known all Q'.
Proof.
  intros HQ. revert known all.
  induction p as [a|e|h k IH|h k IH|k IH|v k IH|e k IH|X r k IH]; intros known all; simpl; auto.
  - intros [H1 H2]. split; auto.
  - intros [H1 H2]. split; auto.
Qed.

Lemma marks_bind {A B} (p : async A) (f : A -> async B) known all Q :
  marks p known all (fun a kn al => marks (f a) kn al Q) ->
  marks (bind p f) known all Q.
Proof.
  revert known all.
  induction p as [a|e|h k IH|h k IH|k IH|v k IH|e k IH|X r k IH]; intros known all; simpl; auto.
  - intros [H1 H2]. split; auto.
  - intros [H1 H2]. split; auto.
Qed.

Lemma guarded_bind {A B} (p : async A) (f : A -> async B) known all :
  marks p known all (fun a kn al => checkpoint_guarded kn al (f a)) ->
  checkpoint_guarded known all (bind p f).
Proof.
  revert known all.
  induction p as [a|e|h k IH|h k IH|k IH|v k IH|e k IH|X r k IH]; intros known all; simpl; auto.
  - intros [H1 H2]. split; auto.
  - intros [].
  - intros [H1 H2]. split; auto.
Qed.

Lemma guarded_try_catch {A} (p : async A) (h : JsError -> async A) known all :
  checkpoint_guarded known all p ->
  (forall e kn al, checkpoint_guarded kn al (h e)) ->
  checkpoint_guarded known all (try_catch p h).
Proof.
  intros Hp Hh. revert known all Hp.
  induction p as [a|e|t k IH|t k IH|k IH|v k IH|e k IH|X r k IH]; intros known all; simpl; auto.
  - intros [H1 H2]. split; auto.
  - intros [H1 H2]. split; [exact H1|]. destruct k; simpl in *; auto; contradiction.
  - intros [H1 H2]. split; auto.
Qed.

Section Marking.

Variable E : Ethers.

Lemma marks_getTokenDetails a known all :
  marks (getTokenDetails E a) known all (fun _ kn al => kn = known /\ al = all).
Proof.
  unfold getTokenDetails. simpl. split; [reflexivity|].
  destruct (new_Contract E a WithProvider) as [[]|e]; simpl; [|auto].
  intros [s [d nm]]. simpl. auto.
Qed.

Lemma marks_transferToken cap a d known all :
  marks (transferToken E cap a d) known all (fun _ kn al => kn = known /\ al = all).
Proof.
  unfold transferToken. simpl. split; [reflexivity|].
  destruct (new_Contract E a WithWallet) as [[]|e0]; simpl; [|auto].
  intros [balance|e1]; simpl; [|auto].
  destruct ((balance =? 0) || String.eqb (toString balance) "0"); simpl; [auto|].
  destruct (formatTokenAmount E balance (decimals d)) as [formatted|e2]; simpl; [|auto].
  split; [reflexivity|].
  intros [tx|e3]; simpl; [|auto].
  intros [[]|e4]; simpl; auto.
Qed.

(** [handleIncomingTransfer] assigns nothing, and when it returns the
    hash of its log is in [processedTxs]. *)
Lemma marks_handleIncomingTransfer cap log known all :
  marks (handleIncomingTransfer E cap log) known all
        (fun _ kn al => kn = {[ transactionHash log ]} ∪ known /\ al = all).
Proof.
  unfold handleIncomingTransfer. cbn -[getTokenDetails transferToken].
  split; [auto|].
  apply marks_bind.
  eapply marks_mono; [|apply marks_getTokenDetails].
  intros d kn al [-> ->]. cbn -[getTokenDetails transferToken].
  split; [reflexivity|]. intros [].
  apply marks_bind.
  eapply marks_mono; [|apply marks_transferToken].
  intros b kn al [-> ->]. simpl. auto.
Qed.

Lemma marks_for_each cap logs : forall known all,
  marks (for_each logs (handleIncomingTransfer E cap)) known all
        (fun _ kn al =>
           (known ⊆ kn /\ forall l, In l logs -> transactionHash l ∈ kn) /\ al = all).
Proof.
  induction logs as [|l rest IH]; intros known all.
  - simpl. split; [|reflexivity]. split; [reflexivity|]. intros l [].
  - cbn [for_each]. apply marks_bind.
    eapply marks_mono; [|apply marks_handleIncomingTransfer].
    intros [] kn al [-> ->].
    eapply marks_mono; [|apply IH].
    intros [] kn al [[Hsub Hall] ->]. split; [|reflexivity]. split.
    + etransitivity; [|exact Hsub]. apply union_subseteq_r.
    + intros l' [<-|Hin]; [|now apply Hall].
      apply Hsub, elem_of_union_l, elem_of_singleton. reflexivity.
Qed.

(** The polling callback assigns [lastCheckedBlock] only after the loop
    over its logs, when the hash of each of them is in [processedTxs], and
    returns right after. *)
Lemma guarded_pollingCallback cap :
  checkpoint_guarded ∅ ∅ (pollingCallback E cap).
Proof.
  unfold pollingCallback. apply guarded_try_catch; [|intros; exact I].
  cbn -[handleIncomingTransfer for_each].
  intros [h|e]; cbn -[handleIncomingTransfer for_each]; [|exact I].
  intros last. destruct (h >? last); cbn -[handleIncomingTransfer for_each]; [|exact I].
  destruct (zeroPadValue E (senderAddress cap) 32) as [topic|e];
    cbn -[handleIncomingTransfer for_each]; [|exact I].
  intros [logs|e]; cbn -[handleIncomingTransfer for_each]; [|exact I].
  apply guarded_bind.
  eapply marks_mono; [|apply marks_for_each].
  intros [] kn al [[Hsub Hall] ->]. simpl. split; [|exact I].
  apply union_least; [apply empty_subseteq|].
  intros x Hx. apply elem_of_list_to_set, list_elem_of_In, in_map_iff in Hx.
  destruct Hx as (l & <- & Hl). now apply Hall.
Qed.

End Marking.

Lemma received_grows {X} (r : rpc X) x D : D ⊆ received r x D.
Proof.
  destruct r; simpl; try reflexivity.
  destruct x; [apply union_subseteq_l|reflexivity].
Qed.

Lemma decode_logs {X} (r : rpc X) logs x D l :
  decode r (ALogs logs) = Some x -> In l logs -> transactionHash l ∈ received r x D.
Proof.
  destruct r; simpl; try discriminate.
  intros [= <-] Hin. apply elem_of_union_r, elem_of_list_to_set, list_elem_of_In, in_map_iff.
  exists l. auto.
Qed.

(** One segment of a guarded call: if it assigns, every hash received is
    in [processedTxs] and the call has returned; if it suspends, it has
    not assigned and goes on guarded. *)
Lemma advance_guarded {A} (p : async A) known all c :
  checkpoint_guarded known all p ->
  known ⊆ processedTxs c ->
  ((exists v, In (Assigned v) (emitted (advance p c))) ->
   all ⊆ processedTxs (vars_then (advance p c))
   /\ exists x, at_await (advance p c) = Finished x)
  /\ match at_await (advance p c) with
     | Blocked r k =>
         (forall v, ~ In (Assigned v) (emitted (advance p c)))
         /\ exists known',
              known' ⊆ processedTxs (vars_then (advance p c))
              /\ forall x, checkpoint_guarded known' (received r x all) (k x)
     | _ => True
     end.
Proof.
  revert known c.
  induction p as [a|e|h k IH|h k IH|k IH|v k IH|e k IH|X r k IH]; intros known c Hp Hk;
    simpl in *.
  - split; [intros [v []]|exact I].
  - split; [intros [v []]|exact I].
  - destruct Hp as [Ht Hf]. unfold hasProcessed.
    destruct (decide (h ∈ processedTxs c)) as [Hin|Hout].
    + rewrite bool_decide_eq_true_2 by exact Hin. apply (IH true _ c Ht).
      apply union_least; [now apply singleton_subseteq_l|exact Hk].
    + rewrite bool_decide_eq_false_2 by exact Hout. apply (IH false _ c Hf Hk).
  - assert (Hk' : {[ h ]} ∪ known ⊆ processedTxs (markProcessed h c)).
    { unfold markProcessed. simpl. now apply union_mono_l. }
    destruct (IH _ (markProcessed h c) Hp Hk') as [H1 H2]. split.
    + intros [v [Hv|Hv]]; [discriminate|]. apply H1. eauto.
    + destruct (at_await (advance k (markProcessed h c))); auto.
      destruct H2 as [Hno Hex]. split; [|exact Hex].
      intros v [Hv|Hv]; [discriminate|]. now apply (Hno v).
  - apply (IH _ known c (Hp _) Hk).
  - destruct Hp as [Hall Hret]. destruct k; simpl in Hret; try contradiction.
    simpl. split; [|exact I].
    intros _. split; [|eauto]. etransitivity; [exact Hall|exact Hk].
  - destruct Hp as [He Hp]. destruct (IH known c Hp Hk) as [H1 H2]. split.
    + intros [v [Hv|Hv]]; [subst e; discriminate|]. apply H1. eauto.
    + destruct (at_await (advance k c)); auto.
      destruct H2 as [Hno Hex]. split; [|exact Hex].
      intros v [Hv|Hv]; [subst e; discriminate|]. now apply (Hno v).
  - split.
    + intros [v [Hv|[]]]. discriminate.
    + split; [intros v [Hv|[]]; discriminate|].
      exists known. split; [exact Hk|]. intros x. apply Hp.
Qed.

Lemma assigned_other (new : list entry) t slot evs s t' v :
  slot <> s ->
  In (t', s, Assigned v) (new ++ map (fun e => (t, slot, e)) evs)%list ->
  In (t', s, Assigned v) new.
Proof.
  intros Hne Hin. apply in_app_or in Hin as [Hin|Hin]; [exact Hin|].
  apply in_map_iff in Hin. destruct Hin as (e & He & _). congruence.
Qed.

Lemma tick_state_ext s i D new m m' :
  tasks m' !! s = tasks m !! s ->
  (length (tasks m) <= length (tasks m'))%nat ->
  (length (instances m) <= length (instances m'))%nat ->
  processedTxs (vars_of m i) ⊆ processedTxs (vars_of m' i) ->
  tick_state s i D new m -> tick_state s i D new m'.
Proof.
  unfold tick_state. intros -> Ht Hi Hv (Hs & Hi' & H).
  split; [lia|]. split; [lia|].
  destruct (tasks m !! s) as [[[i' since X r k]|]|].
  - destruct H as (-> & Hno & known & Hk & Hg). split; [reflexivity|].
    split; [exact Hno|]. exists known. split; [|exact Hg]. etransitivity; eauto.
  - intros Ha. etransitivity; [apply H, Ha|exact Hv].
  - intros Ha. etransitivity; [apply H, Ha|exact Hv].
Qed.

(** Another task runs a segment: the state of the tick is kept. *)
Lemma resume_tick_other s i D new t i2 slot p m :
  slot <> s ->
  tick_state s i D new m ->
  tick_state s i D
    (new ++ map (fun e => (t, slot, e)) (emitted (advance p (vars_of m i2))))
    (resume t i2 slot p m).
Proof.
  intros Hne H.
  assert (H' : tick_state s i D new (resume t i2 slot p m)).
  { revert H. apply tick_state_ext.
    - unfold resume. cbn [tasks]. now apply list_lookup_insert_ne.
    - unfold resume. cbn [tasks]. now rewrite length_insert.
    - destruct (resume_grows t i2 slot p m i) as [_ ->]. lia.
    - apply resume_grows. }
  destruct H' as (Hs & Hi & Hm). split; [exact Hs|]. split; [exact Hi|].
  destruct (tasks (resume t i2 slot p m) !! s) as [[[i' since X r k]|]|].
  - destruct Hm as (-> & Hno & Hex). split; [reflexivity|]. split; [|exact Hex].
    intros t' v Hin. apply (Hno t' v). eapply assigned_other; eauto.
  - intros (t' & v & Hin). apply Hm. exists t', v. eapply assigned_other; eauto.
  - intros (t' & v & Hin). apply Hm. exists t', v. eapply assigned_other; eauto.
Qed.

(** The tick itself runs a segment. *)
Lemma resume_tick_own s i D new t p known m :
  checkpoint_guarded known D p ->
  known ⊆ processedTxs (vars_of m i) ->
  (forall t' v, ~ In (t', s, Assigned v) new) ->
  (s < length (tasks m))%nat ->
  (i < length (instances m))%nat ->
  tick_state s i D
    (new ++ map (fun e => (t, s, e)) (emitted (advance p (vars_of m i))))
    (resume t i s p m).
Proof.
  intros Hp Hk Hno Hs Hi.
  destruct (advance_guarded p known D (vars_of m i) Hp Hk) as [H1 H2].
  assert (Hv : vars_of (resume t i s p m) i = vars_then (advance p (vars_of m i))).
  { unfold resume, vars_of at 1. cbn [instances].
    rewrite list_lookup_insert_eq by exact Hi. reflexivity. }
  assert (Hin : forall t' v,
             In (t', s, Assigned v)
                (new ++ map (fun e => (t, s, e)) (emitted (advance p (vars_of m i))))%list ->
             In (Assigned v) (emitted (advance p (vars_of m i)))).
  { intros t' v H. apply in_app_or in H as [H|H]; [destruct (Hno _ _ H)|].
    apply in_map_iff in H. destruct H as (e & He & H). injection He as _ <-. exact H. }
  unfold tick_state. rewrite Hv.
  split; [unfold resume; cbn [tasks]; now rewrite length_insert|].
  split; [unfold resume; cbn [instances]; now rewrite length_insert|].
  unfold resume at 1. cbn [tasks]. rewrite list_lookup_insert_eq by exact Hs.
  destruct (at_await (advance p (vars_of m i))) as [x|e|X r k].
  - intros (t' & v & H). apply H1. exists v. eapply Hin, H.
  - intros (t' & v & H). apply H1. exists v. eapply Hin, H.
  - destruct H2 as [Hnone Hex]. split; [reflexivity|]. split; [|exact Hex].
    intros t' v H. apply (Hnone v). eapply Hin, H.
Qed.

Lemma spawn_tick_other s i D new t i2 p m :
  tick_state s i D new m ->
  exists evs slot,
    history (spawn t i2 p m) = (history m ++ map (fun e => (t, slot, e)) evs)%list
    /\ tick_state s i D (new ++ map (fun e => (t, slot, e)) evs) (spawn t i2 p m).
Proof.
  intros H. unfold spawn.
  match goal with |- context [resume t i2 ?sl p ?m0] => set (m1 := m0) end.
  exists (emitted (advance p (vars_of m1 i2))), (length (tasks m)).
  split; [reflexivity|].
  assert (Hs : (s < length (tasks m))%nat) by apply H.
  apply resume_tick_other; [lia|].
  revert H. apply tick_state_ext.
  - subst m1. cbn [tasks]. now apply lookup_app_l.
  - subst m1. cbn [tasks]. rewrite length_app. lia.
  - reflexivity.
  - reflexivity.
Qed.

Lemma step_tick E env s i base m t st m' D new :
  history m = (base ++ new)%list ->
  tick_state s i D new m ->
  step E env m t st = Some m' ->
  exists D' new',
    history m' = (base ++ new')%list
    /\ tick_state s i D' new' m'
    /\ D ⊆ D'
    /\ forall logs l, st = Settle s (ALogs logs) -> In l logs -> transactionHash l ∈ D'.
Proof.
  intros Hh Hm Hstep. unfold step in Hstep.
  destruct (punctual t m); [|discriminate].
  destruct st as [k|k a].
  - destruct (timers m !! k) as [[tm|]|]; try discriminate.
    destruct (due tm =? t); [|discriminate]. injection Hstep as <-.
    unfold fire.
    match goal with |- context [set_timer k ?o m] => set (m1 := set_timer k o m) end.
    assert (Hm1 : tick_state s i D new m1) by exact Hm.
    destruct (cb tm) as [cap|cfg].
    + destruct (spawn_tick_other s i D new t (t_owner tm) (pollingCallback E cap) m1 Hm1)
        as (evs & slot & Hh' & Hm').
      exists D, (new ++ map (fun e => (t, slot, e)) evs)%list.
      split; [rewrite Hh'; subst m1; cbn [history set_timer]; rewrite Hh;
              symmetry; apply app_assoc|].
      split; [exact Hm'|]. split; [reflexivity|]. intros logs l Hst. discriminate.
    + set (m2 := new_instance m1).
      assert (Hm2 : tick_state s i D new m2).
      { revert Hm1. apply tick_state_ext.
        - reflexivity.
        - reflexivity.
        - subst m2. cbn [instances new_instance]. rewrite length_app. lia.
        - subst m2. unfold vars_of. cbn [instances new_instance].
          rewrite lookup_app_l by apply Hm. reflexivity. }
      destruct (spawn_tick_other s i D new t (length (instances m1))
                  (monitorAndTransfer E env cfg) m2 Hm2)
        as (evs & slot & Hh' & Hm').
      exists D, (new ++ map (fun e => (t, slot, e)) evs)%list.
      split; [rewrite Hh'; subst m2 m1; cbn [history set_timer new_instance]; rewrite Hh;
              symmetry; apply app_assoc|].
      split; [exact Hm'|]. split; [reflexivity|]. intros logs l Hst. discriminate.
  - destruct (tasks m !! k) as [[[i' since X r kk]|]|] eqn:Hk; try discriminate.
    destruct (since + latency r <=? t); [|discriminate].
    destruct (decode r a) as [x|] eqn:Hx; [|discriminate]. injection Hstep as <-.
    destruct (Nat.eq_dec k s) as [->|Hne].
    + destruct Hm as (Hs & Hi & Hm). rewrite Hk in Hm.
      destruct Hm as (-> & Hno & known & Hkn & Hg).
      exists (received r x D),
             (new ++ map (fun e => (t, s, e)) (emitted (advance (kk x) (vars_of m i))))%list.
      split; [unfold resume; cbn [history]; rewrite Hh; symmetry; apply app_assoc|].
      split; [apply (resume_tick_own s i _ new t (kk x) known m); auto|].
      split; [apply received_grows|].
      intros logs l [= ->] Hl. eapply decode_logs; eauto.
    + exists D,
             (new ++ map (fun e => (t, k, e)) (emitted (advance (kk x) (vars_of m i'))))%list.
      split; [unfold resume; cbn [history]; rewrite Hh; symmetry; apply app_assoc|].
      split; [now apply resume_tick_other|]. split; [reflexivity|].
      intros logs l [= -> _]. contradiction.
Qed.

Lemma play_tick E env s i base schedule : forall m m' D new,
  history m = (base ++ new)%list ->
  tick_state s i D new m ->
  play E env m schedule = Some m' ->
  exists D' new',
    history m' = (base ++ new')%list
    /\ tick_state s i D' new' m'
    /\ D ⊆ D'
    /\ forall t1 logs l,
         In (t1, Settle s (ALogs logs)) schedule -> In l logs -> transactionHash l ∈ D'.
Proof.
  induction schedule as [|[t st] rest IH]; intros m m' D new Hh Hm Hplay; simpl in Hplay.
  - injection Hplay as <-. exists D, new. split; [exact Hh|]. split; [exact Hm|].
    split; [reflexivity|]. intros t1 logs l [].
  - destruct (step E env m t st) as [m1|] eqn:Hstep; [|discriminate].
    destruct (step_tick E env s i base m t st m1 D new Hh Hm Hstep)
      as (D1 & new1 & Hh1 & Hm1 & HD1 & Hl1).
    destruct (IH m1 m' D1 new1 Hh1 Hm1 Hplay) as (D2 & new2 & Hh2 & Hm2 & HD2 & Hl2).
    exists D2, new2. split; [exact Hh2|]. split; [exact Hm2|].
    split; [etransitivity; eauto|].
    intros t1 logs l [Heq|Hin] Hl.
    + injection Heq as _ ->. apply HD2. now apply (Hl1 logs l).
    + now apply (Hl2 t1 logs l).
Qed.

(** X9: a tick moves the checkpoint only past marked logs. Let timer [j]
    of any event-loop state hold the polling callback and fire, and let the
    loop go on under any schedule, other ticks overlapping as they may.
    Whenever the new tick has assigned [lastCheckedBlock], it has ended
    with that assignment, and the transaction hash of every log its log
    query was answered with is in [processedTxs] of its monitor: the tick
    never moves the checkpoint while a log it received is still
    unmarked. *)
Theorem checkpoint_follows_marking E env m j tm cap t0 schedule m' :
  timers m !! j = Some (Some tm) ->
  cb tm = PollingCallback cap ->
  (t_owner tm < length (instances m))%nat ->
  play E env m ((t0, Fire j) :: schedule) = Some m' ->
  let s := length (tasks m) in
  exists new,
    history m' = (history m ++ new)%list
    /\ forall t v,
         In (t, s, Assigned v) new ->
         tasks m' !! s = Some None
         /\ forall t1 logs l,
              In (t1, Settle s (ALogs logs)) schedule ->
              In l logs ->
              transactionHash l ∈ processedTxs (vars_of m' (t_owner tm)).
Proof.
  intros Htm Hcb Hi Hplay s. simpl in Hplay.
  destruct (step E env m t0 (Fire j)) as [m1|] eqn:Hstep; [|discriminate].
  assert (H1 : exists new1,
             history m1 = (history m ++ new1)%list
             /\ tick_state s (t_owner tm) ∅ new1 m1).
  { unfold step in Hstep. destruct (punctual t0 m); [|discriminate].
    rewrite Htm in Hstep. destruct (due tm =? t0); [|discriminate].
    injection Hstep as <-. unfold fire. rewrite Hcb. unfold spawn.
    match goal with |- context [resume t0 ?i ?sl ?p ?m0] => set (m0' := m0) end.
    eexists. split; [reflexivity|].
    apply (resume_tick_own s (t_owner tm) ∅ [] t0 (pollingCallback E cap) ∅ m0').
    - apply guarded_pollingCallback.
    - apply empty_subseteq.
    - intros t' v [].
    - subst m0' s. cbn [tasks]. rewrite length_app. simpl. lia.
    - exact Hi. }
  destruct H1 as (new1 & Hh1 & Hm1).
  destruct (play_tick E env s (t_owner tm) (history m) schedule m1 m' ∅ new1 Hh1 Hm1 Hplay)
    as (D & new & Hh & (Hs & _ & Hm) & _ & Hl).
  exists new. split; [exact Hh|].
  intros t v Hin.
  destruct (tasks m' !! s) as [[[i' since X r k]|]|] eqn:Hk.
  - destruct Hm as (_ & Hno & _). destruct (Hno t v Hin).
  - split; [reflexivity|]. intros t1 logs l Hsched Hlog.
    apply Hm; [eauto|]. now apply (Hl t1 logs l).
  - apply lookup_ge_None in Hk. lia.
Qed.

Lemma checkpoint_follows_marking_witness :
  exists m',
    play ethersOk processEnv armed ((15100, Fire 0%nat) :: afterFirstTick) = Some m'
    /\ In (80000, 1%nat, Assigned 11) (history m')
    /\ tasks m' !! 1%nat = Some None
    /\ "0xabc1" ∈ processedTxs (vars_of m' 0).
Proof.
  assert (H : option_map (fun m => nth_error (history m) 18)
                (play ethersOk processEnv armed ((15100, Fire 0%nat) :: afterFirstTick))
              = Some (Some (80000, 1%nat, Assigned 11)))
    by (vm_compute; reflexivity).
  destruct (play ethersOk processEnv armed ((15100, Fire 0%nat) :: afterFirstTick))
    as [m'|] eqn:Hplay; [|discriminate].
  cbn [option_map] in H. injection H as H.
  destruct (checkpoint_follows_marking ethersOk processEnv armed 0 pollingTimer wallet
              15100 afterFirstTick m' eq_refl eq_refl ltac:(simpl; lia) Hplay)
    as (new & Hh & Hall).
  simpl in Hh. rewrite <- Hh in Hall.
  pose proof (nth_error_In (history m') 18 H) as Hin.
  destruct (Hall 80000 11 Hin) as [Hended Hmarked].
  exists m'. split; [reflexivity|]. split; [exact Hin|]. split; [exact Hended|].
  apply (Hmarked 15300 [entryDai] entryDai); simpl; auto.
Defined.
